(** * mates: grammar, scanner and structural resolver

    A shallow embedding of the markdown compiler core of weistn/mates
    (grammar registry, scanner, parser/resolver and document tree) together
    with the properties the specification states about it.

    Conventions of the embedding.
    - Go pointers to tag, entity and style definitions are indices into the
      grammar's [Tags], [Entities] and [Styles] slices.  These slices are only
      ever appended to, so an index identifies one definition for the whole
      life of a grammar, and pointer equality is equality of indices.
    - Go [string]s and [[]byte] are [string]s whose characters are bytes.
    - Go [int] and [rune] values are [Z].
    - The HTML template, the resource list and the config map of a definition
      are opaque payload for the core and are left out of the records. *)

From Stdlib Require Import ZArith String Ascii List Lia Bool.
From stdpp Require Import base option list gmap strings.

Local Open Scope string_scope.

(** ** Grammar (grammar.go) *)

Inductive ParentHood : Type :=
  | NoParentHood
  | RootParentHood
  | DefaultRootParentHood
  | IndentParentHood
  | TextParentHood.

Global Instance ParentHood_eq_dec : EqDecision ParentHood.
Proof. solve_decision. Defined.

Inductive SectionMode : Type :=
  | sectionNormal
  | sectionMedia
  | sectionTable
  | sectionCode
  | sectionMath
  | sectionParagraph.

Global Instance SectionMode_eq_dec : EqDecision SectionMode.
Proof. solve_decision. Defined.

Record TagDefinition : Type := mkTag {
  Name : string;
  DefaultParent : option string;
  TagSectionMode : SectionMode;
  PossibleParents : list string;
  Counter : string;
  ResetCounter : list string;
  DefaultAttribute : string;
  ClassShortcuts : gmap string string;
  TagParentHood : ParentHood;
  FirstChild : bool;
  allowedInParentHood : bool
}.

Record EntityDefinition : Type := mkEntity {
  EName : string;
  ECounter : string;
  EClassShortcuts : gmap string string
}.

Record StyleDefinition : Type := mkStyle {
  SName : string;
  SClassShortcuts : gmap string string
}.

Record Grammar : Type := mkGrammar {
  Tags : list TagDefinition;
  Entities : list EntityDefinition;
  Styles : list StyleDefinition;
  currentDefaultRoot : option nat
}.

Record GrammarError : Type := mkGrammarError { GText : string }.

Definition set_Tags (g : Grammar) (ts : list TagDefinition) : Grammar :=
  mkGrammar ts (Entities g) (Styles g) (currentDefaultRoot g).

Definition set_currentDefaultRoot (g : Grammar) (r : option nat) : Grammar :=
  mkGrammar (Tags g) (Entities g) (Styles g) r.

Definition set_DefaultParent (t : TagDefinition) (p : option string) : TagDefinition :=
  mkTag (Name t) p (TagSectionMode t) (PossibleParents t) (Counter t)
        (ResetCounter t) (DefaultAttribute t) (ClassShortcuts t)
        (TagParentHood t) (FirstChild t) (allowedInParentHood t).

Definition set_PossibleParents (t : TagDefinition) (ps : list string) : TagDefinition :=
  mkTag (Name t) (DefaultParent t) (TagSectionMode t) ps (Counter t)
        (ResetCounter t) (DefaultAttribute t) (ClassShortcuts t)
        (TagParentHood t) (FirstChild t) (allowedInParentHood t).

Definition set_allowedInParentHood (t : TagDefinition) (b : bool) : TagDefinition :=
  mkTag (Name t) (DefaultParent t) (TagSectionMode t) (PossibleParents t) (Counter t)
        (ResetCounter t) (DefaultAttribute t) (ClassShortcuts t)
        (TagParentHood t) (FirstChild t) b.

(** [GetTag]: [for i := len(grammar.Tags) - 1; i >= 0; i--].  The argument
    [i] of the loop is the number of slots still to inspect; the slot looked
    at is [i - 1]. *)
Fixpoint GetTag_loop (tags : list TagDefinition) (tagname : string) (i : nat)
  : option nat :=
  match i with
  | O => None
  | S j =>
      match tags !! j with
      | Some tag => if String.eqb (Name tag) tagname then Some j
                    else GetTag_loop tags tagname j
      | None => GetTag_loop tags tagname j
      end
  end.

Definition GetTag (grammar : Grammar) (tagname : string) : option nat :=
  GetTag_loop (Tags grammar) tagname (length (Tags grammar)).

(** [GetEntity] and [GetStyle]: [for _, e := range ...], first match. *)
Fixpoint GetEntity_loop (es : list EntityDefinition) (entityname : string) (i : nat)
  : option nat :=
  match es with
  | [] => None
  | e :: rest => if String.eqb (EName e) entityname then Some i
                 else GetEntity_loop rest entityname (S i)
  end.

Definition GetEntity (grammar : Grammar) (entityname : string) : option nat :=
  GetEntity_loop (Entities grammar) entityname O.

Fixpoint GetStyle_loop (ss : list StyleDefinition) (stylename : string) (i : nat)
  : option nat :=
  match ss with
  | [] => None
  | e :: rest => if String.eqb (SName e) stylename then Some i
                 else GetStyle_loop rest stylename (S i)
  end.

Definition GetStyle (grammar : Grammar) (stylename : string) : option nat :=
  GetStyle_loop (Styles grammar) stylename O.

Definition addBuiltinTag (grammar : Grammar) (tag : TagDefinition) : Grammar :=
  match GetTag grammar (Name tag) with
  | Some _ => grammar
  | None => set_Tags grammar (Tags grammar ++ [tag])
  end.

Definition addBuiltinEntity (grammar : Grammar) (entity : EntityDefinition) : Grammar :=
  match GetEntity grammar (EName entity) with
  | Some _ => grammar
  | None => mkGrammar (Tags grammar) (Entities grammar ++ [entity])
                      (Styles grammar) (currentDefaultRoot grammar)
  end.

Definition addCustomEntity (grammar : Grammar) (entity : EntityDefinition) : Grammar :=
  mkGrammar (Tags grammar) (Entities grammar ++ [entity])
            (Styles grammar) (currentDefaultRoot grammar).

Definition addCustomStyle (grammar : Grammar) (entity : StyleDefinition) : Grammar :=
  mkGrammar (Tags grammar) (Entities grammar) (Styles grammar ++ [entity])
            (currentDefaultRoot grammar).

(** The builtin tags of [loadBuiltinTags], in source order. *)
Definition builtin (name : string) (dp : option string) (sm : SectionMode)
    (pp : list string) (counter : string) (defattr : string)
    (ph : ParentHood) (allowed : bool) : TagDefinition :=
  mkTag name dp sm pp counter [] defattr ∅ ph false allowed.

Definition builtinTags : list TagDefinition :=
  [ builtin "#root" None sectionNormal [] "" "" RootParentHood false;
    builtin "#p" None sectionParagraph [] "" "" TextParentHood true;
    builtin "#ul" None sectionNormal [] "" "" IndentParentHood true;
    builtin "#li" (Some "#ul") sectionNormal ["#ul"; "#ol"] "" "" TextParentHood false;
    builtin "#ol" None sectionNormal [] "" "" IndentParentHood true;
    builtin "#" None sectionNormal [] "" "" TextParentHood true;
    builtin "##" None sectionNormal [] "" "" TextParentHood true;
    builtin "###" None sectionNormal [] "" "" TextParentHood true;
    builtin "####" None sectionNormal [] "" "" TextParentHood true;
    builtin "#table" None sectionTable [] "Table" "" NoParentHood true;
    builtin "#tbody" (Some "#table") sectionTable ["#table"; "#pie"; "#chart"] "" ""
            NoParentHood false;
    builtin "#thead" (Some "#table") sectionTable ["#table"; "#pie"; "#chart"] "" ""
            NoParentHood false;
    builtin "#tbody-row" (Some "#tbody") sectionTable ["#tbody"] "" "" NoParentHood false;
    builtin "#thead-row" (Some "#thead") sectionTable ["#thead"] "" "" NoParentHood false;
    builtin "#tbody-cell" (Some "#tbody-row") sectionTable ["#tbody-row"] "" ""
            TextParentHood false;
    builtin "#thead-cell" (Some "#thead-row") sectionTable ["#thead-row"] "" ""
            TextParentHood false;
    builtin "#code" None sectionCode [] "Sample" "class" TextParentHood true;
    builtin "#math" None sectionMath [] "Equation" "" TextParentHood true;
    builtin "#bib" None sectionNormal [] "bib" "label" TextParentHood true;
    builtin "#pie" None sectionTable [] "Chart" "" NoParentHood true;
    builtin "#chart" None sectionTable [] "Chart" "" NoParentHood true;
    builtin "#caption" None sectionNormal [] "" "" TextParentHood true;
    builtin ">" None sectionNormal [] "" "" IndentParentHood true;
    builtin "#dl" None sectionNormal [] "" "" IndentParentHood true;
    builtin "#dt" (Some "#dl") sectionNormal ["#dl"] "" "" TextParentHood false;
    builtin "#dd" (Some "#dl") sectionNormal ["#dl"] "" "" IndentParentHood false ].

Definition loadBuiltinTags (grammar : Grammar) : Grammar :=
  fold_left addBuiltinTag builtinTags grammar.

Definition NewGrammar : Grammar :=
  loadBuiltinTags (mkGrammar [] [] [] None).

(** [fmt.Sprintf] of the two error texts of [addCustomTag]; [%v] of a string
    is the string. *)
Definition errUnknownDefaultParent (parent name : string) : GrammarError :=
  mkGrammarError ("Unknown tag named " ++ parent
                  ++ " is used as default parent for tag " ++ name).

Definition errUnknownPossibleParent (parent name : string) : GrammarError :=
  mkGrammarError ("Unknown tag named " ++ parent
                  ++ " is used as possible parent for tag " ++ name).

(** [for _, t := range tag.PossibleParents]: the first name that does not
    resolve. *)
Fixpoint firstUnknownParent (grammar : Grammar) (parents : list string) : option string :=
  match parents with
  | [] => None
  | t :: rest =>
      match GetTag grammar t with
      | None => Some t
      | Some _ => firstUnknownParent grammar rest
      end
  end.

(** [grammar.currentDefaultRoot.Name], where the pointer is not nil. *)
Definition currentDefaultRootName (grammar : Grammar) : option string :=
  match currentDefaultRoot grammar with
  | None => None
  | Some r => Name <$> Tags grammar !! r
  end.

(** The [continue] test of the loop over [grammar.Tags] in [addCustomTag];
    [i] is the index of [child], [self] the index of the new tag, [root] the
    name of the current default root when there is one. *)
Definition skipChild (root : option string) (self i : nat) (child : TagDefinition) : bool :=
  match DefaultParent child with
  | Some dp =>
      match root with
      | None => true
      | Some r => negb (String.eqb dp r)
      end
  | None => false
  end
  || bool_decide (TagParentHood child = DefaultRootParentHood)
  || Nat.eqb i self
  || String.eqb (Name child) "#root".

Definition rebaseChild (root : option string) (self : nat) (newname : string)
    (i : nat) (child : TagDefinition) : TagDefinition :=
  if skipChild root self i child then child
  else set_PossibleParents (set_DefaultParent child (Some newname))
                           (newname :: PossibleParents child).

(** [addCustomTag].  The result is the grammar after the call together with
    the returned error ([None] for [nil]). *)
Definition addCustomTag (grammar : Grammar) (tag : TagDefinition)
  : Grammar * option GrammarError :=
  let self := length (Tags grammar) in
  let g1 := set_Tags grammar (Tags grammar ++ [tag]) in
  match (match DefaultParent tag with
         | Some dp => match GetTag g1 dp with
                      | None => Some (errUnknownDefaultParent dp (Name tag))
                      | Some _ => None
                      end
         | None => None
         end) with
  | Some e => (g1, Some e)
  | None =>
    match firstUnknownParent g1 (PossibleParents tag) with
    | Some t => (g1, Some (errUnknownPossibleParent t (Name tag)))
    | None =>
      let tag1 :=
        if bool_decide (DefaultParent tag = None) && negb (String.eqb (Name tag) "#root")
        then set_allowedInParentHood tag true else tag in
      let g2 := set_Tags g1 (<[self := tag1]> (Tags g1)) in
      let g3 :=
        if bool_decide (TagParentHood tag1 = DefaultRootParentHood) then
          set_currentDefaultRoot
            (set_Tags g2 (imap (rebaseChild (currentDefaultRootName g2) self (Name tag1))
                               (Tags g2)))
            (Some self)
        else g2 in
      let g4 :=
        match currentDefaultRootName g3, Tags g3 !! self with
        | Some r, Some t =>
            if bool_decide (DefaultParent t = None) && negb (String.eqb (Name t) "#root")
            then set_Tags g3 (<[self := set_DefaultParent t (Some r)]> (Tags g3))
            else g3
        | _, _ => g3
        end in
      (g4, None)
    end
  end.


(** ** Scanner (scanner.go) *)

Local Open Scope Z_scope.

Inductive Token : Type :=
  | TokenEOF
  | TokenText
  | TokenSection
  | TokenValue
  | TokenEnum
  | TokenStyle
  | TokenEntity
  | TokenCodeText
  | TokenMathText
  | TokenConfigText
  | TokenTableCell
  | TokenTableRow.

Global Instance Token_eq_dec : EqDecision Token.
Proof. solve_decision. Defined.

Inductive scannerMode : Type :=
  | modeNormal
  | modeSection
  | modeNewTag
  | modeStyle
  | modeEmbed
  | modeInjectSection
  | modeConfig.

Global Instance scannerMode_eq_dec : EqDecision scannerMode.
Proof. solve_decision. Defined.

Inductive textMode : Type :=
  | textNormal
  | textTable
  | textCode
  | textMath
  | textParagraph.

Global Instance textMode_eq_dec : EqDecision textMode.
Proof. solve_decision. Defined.

Record ScannerRange : Type := mkRange {
  FromLine : Z;
  FromLinePos : Z;
  From : Z;
  To : Z
}.

Record ScannerError : Type := mkScannerError {
  Pos : ScannerRange;
  ErrText : string
}.

Record Scanner : Type := mkScanner {
  src : string;
  mode : scannerMode;
  nextMode : scannerMode;
  layout : textMode;
  ch : Z;
  offset : Z;
  readOffset : Z;
  lineOffset : Z;
  lineCount : Z;
  indent : Z;
  Errors : list ScannerError
}.

Definition set_mode (s : Scanner) (m : scannerMode) : Scanner :=
  mkScanner (src s) m (nextMode s) (layout s) (ch s) (offset s) (readOffset s)
            (lineOffset s) (lineCount s) (indent s) (Errors s).

Definition set_nextMode (s : Scanner) (m : scannerMode) : Scanner :=
  mkScanner (src s) (mode s) m (layout s) (ch s) (offset s) (readOffset s)
            (lineOffset s) (lineCount s) (indent s) (Errors s).

Definition set_layout (s : Scanner) (t : textMode) : Scanner :=
  mkScanner (src s) (mode s) (nextMode s) t (ch s) (offset s) (readOffset s)
            (lineOffset s) (lineCount s) (indent s) (Errors s).

Definition set_indent (s : Scanner) (i : Z) : Scanner :=
  mkScanner (src s) (mode s) (nextMode s) (layout s) (ch s) (offset s) (readOffset s)
            (lineOffset s) (lineCount s) i (Errors s).

(** Runes of the characters the scanner tests for. *)
Definition chEOF : Z := -1.
Definition chTab : Z := 9.
Definition chNL : Z := 10.
Definition chCR : Z := 13.
Definition chSpace : Z := 32.
Definition chHash : Z := 35.
Definition chDollar : Z := 36.
Definition chPercent : Z := 37.
Definition chStar : Z := 42.
Definition chPlus : Z := 43.
Definition chMinus : Z := 45.
Definition chColon : Z := 58.
Definition chSemicolon : Z := 59.
Definition chGreater : Z := 62.
Definition chBackslash : Z := 92.
Definition chUnderscore : Z := 95.
Definition chBacktick : Z := 96.
Definition chLBrace : Z := 123.
Definition chPipe : Z := 124.
Definition chRBrace : Z := 125.
Definition chTilde : Z := 126.

(** [len(s)] and [s[i]] of a byte string.  Every index the scanner reads is
    inside the source; [byteAt] answers 0 outside. *)
Definition len (s : string) : Z := Z.of_nat (String.length s).

Definition byteAt (s : string) (i : Z) : Z :=
  if i <? 0 then 0
  else match String.get (Z.to_nat i) s with
       | Some c => Z.of_nat (nat_of_ascii c)
       | None => 0
       end.

(** [string(s[from:to])]. *)
Definition slice (s : string) (from to : Z) : string :=
  String.substring (Z.to_nat from) (Z.to_nat (to - from)) s.

Fixpoint bytesOf (s : string) : list Z :=
  match s with
  | EmptyString => []
  | String c rest => Z.of_nat (nat_of_ascii c) :: bytesOf rest
  end.

(** Modelled from the Go standard library: [utf8.DecodeRune] returns the
    rune at the head of a byte sequence and its width in bytes, and
    [(RuneError, 1)] for an encoding that is not valid UTF-8 (a stray
    continuation byte, an overlong form, a surrogate, a value above
    U+10FFFF or a truncated sequence). *)
Definition RuneError : Z := 65533.

Definition isCont (b : Z) : bool := (128 <=? b) && (b <=? 191).

Definition DecodeRune (p : list Z) : Z * Z :=
  match p with
  | [] => (RuneError, 0)
  | p0 :: rest =>
      if p0 <? 128 then (p0, 1)
      else if (p0 <? 194) || (244 <? p0) then (RuneError, 1)
      else if p0 <? 224 then
        match rest with
        | b1 :: _ =>
            if isCont b1
            then (Z.lor (Z.shiftl (Z.land p0 31) 6) (Z.land b1 63), 2)
            else (RuneError, 1)
        | _ => (RuneError, 1)
        end
      else if p0 <? 240 then
        let lo := if p0 =? 224 then 160 else 128 in
        let hi := if p0 =? 237 then 159 else 191 in
        match rest with
        | b1 :: b2 :: _ =>
            if (lo <=? b1) && (b1 <=? hi) && isCont b2
            then (Z.lor (Z.lor (Z.shiftl (Z.land p0 15) 12)
                               (Z.shiftl (Z.land b1 63) 6))
                        (Z.land b2 63), 3)
            else (RuneError, 1)
        | _ => (RuneError, 1)
        end
      else
        let lo := if p0 =? 240 then 144 else 128 in
        let hi := if p0 =? 244 then 143 else 191 in
        match rest with
        | b1 :: b2 :: b3 :: _ =>
            if (lo <=? b1) && (b1 <=? hi) && isCont b2 && isCont b3
            then (Z.lor (Z.lor (Z.lor (Z.shiftl (Z.land p0 7) 18)
                                      (Z.shiftl (Z.land b1 63) 12))
                               (Z.shiftl (Z.land b2 63) 6))
                        (Z.land b3 63), 4)
            else (RuneError, 1)
        | _ => (RuneError, 1)
        end
  end.

(** [scanner.error]. *)
Definition error (s : Scanner) (line linepos off : Z) (text : string) : Scanner :=
  mkScanner (src s) (mode s) (nextMode s) (layout s) (ch s) (offset s) (readOffset s)
            (lineOffset s) (lineCount s) (indent s)
            (Errors s ++ [mkScannerError (mkRange line linepos off off) text]).

(** The line bookkeeping shared by the two branches of [next]: the offset
    moves to [off], and a new line starts there when the current character
    is a newline. *)
Definition advance (s : Scanner) (off : Z) : Scanner :=
  if ch s =? chNL
  then mkScanner (src s) (mode s) (nextMode s) (layout s) (ch s) off (readOffset s)
                 off (lineCount s + 1) (indent s) (Errors s)
  else mkScanner (src s) (mode s) (nextMode s) (layout s) (ch s) off (readOffset s)
                 (lineOffset s) (lineCount s) (indent s) (Errors s).

Definition set_read (s : Scanner) (r w : Z) : Scanner :=
  mkScanner (src s) (mode s) (nextMode s) (layout s) r (offset s) (readOffset s + w)
            (lineOffset s) (lineCount s) (indent s) (Errors s).

(** [Scanner.next]: reads the next Unicode character into [ch]; [ch = -1]
    means end of file. *)
Definition next (s : Scanner) : Scanner :=
  if readOffset s <? len (src s) then
    let s1 := advance s (readOffset s) in
    let r := byteAt (src s1) (readOffset s1) in
    if r =? 0 then
      set_read (error s1 (lineCount s1) (offset s1 - lineOffset s1) (offset s1)
                      "illegal character NUL") r 1
    else if 128 <=? r then
      let '(r', w) := DecodeRune (bytesOf (slice (src s1) (readOffset s1) (len (src s1)))) in
      if (r' =? RuneError) && (w =? 1)
      then set_read (error s1 (lineCount s1) (offset s1 - lineOffset s1) (offset s1)
                           "illegal UTF-8 encoding") r' w
      else set_read s1 r' w
    else set_read s1 r 1
  else
    let s1 := advance s (len (src s)) in
    mkScanner (src s1) (mode s1) (nextMode s1) (layout s1) chEOF (offset s1)
              (readOffset s1) (lineOffset s1) (lineCount s1) (indent s1) (Errors s1).

(** Every loop of the scanner leaves when [ch = -1], and each of its turns
    calls [next], which consumes at least one byte or reaches the end of the
    source.  A loop started in state [s] therefore makes at most
    [fuel s] turns. *)
Definition fuel (s : Scanner) : nat :=
  S (S (Z.to_nat (len (src s) - readOffset s))).

Definition isBlank (c : Z) : bool :=
  (c =? chSpace) || (c =? chTab).

Definition isSpaceNL (c : Z) : bool :=
  (c =? chSpace) || (c =? chTab) || (c =? chCR) || (c =? chNL).

Fixpoint skipWhitespace_loop (n : nat) (newline : bool) (s : Scanner) : Scanner :=
  match n with
  | O => s
  | S n' =>
      if (ch s =? chSpace) || (ch s =? chTab) || (newline && (ch s =? chNL))
         || (ch s =? chCR)
      then skipWhitespace_loop n' newline (next s)
      else s
  end.

Definition skipWhitespace (newline : bool) (s : Scanner) : Scanner :=
  skipWhitespace_loop (fuel s) newline s.

(** [isStartOfLine]; the loop runs over [src[lineCount:offset]], as the
    source has it. *)
Fixpoint isStartOfLine_loop (n : nat) (s : Scanner) (i : Z) : bool :=
  match n with
  | O => true
  | S n' =>
      if i <? offset s then
        let c := byteAt (src s) i in
        if negb (c =? chSpace) && negb (c =? chTab) && negb (c =? chCR) then false
        else isStartOfLine_loop n' s (i + 1)
      else true
  end.

Definition isStartOfLine (s : Scanner) : bool :=
  if lineOffset s =? offset s then true
  else isStartOfLine_loop (Z.to_nat (offset s - lineCount s)) s (lineCount s).

Fixpoint skipUntilEmptyLine_loop (n : nat) (s : Scanner) : Scanner :=
  match n with
  | O => s
  | S n' =>
      if ch s =? chEOF then s
      else if ch s =? chNL then
        let s1 := skipWhitespace false (next s) in
        if ch s1 =? chNL then next s1
        else skipUntilEmptyLine_loop n' (next s1)
      else skipUntilEmptyLine_loop n' (next s)
  end.

Definition skipUntilEmptyLine (s : Scanner) : Scanner :=
  skipUntilEmptyLine_loop (fuel s) s.

(** The second loop of the code and math layouts: up to a line that starts
    at the indentation of the tag or to its left. *)
Fixpoint skipIndented_loop (n : nat) (s : Scanner) : Scanner :=
  match n with
  | O => s
  | S n' =>
      if negb (ch s =? chEOF)
         && ((indent s <? offset s - lineOffset s) || isSpaceNL (ch s))
      then skipIndented_loop n' (next s)
      else s
  end.

Definition skipIndented (s : Scanner) : Scanner :=
  skipIndented_loop (fuel s) s.

(** The comment loop: [for scanner.next(); ch != -1 && ch != '\n'; next()]. *)
Fixpoint skipLine_loop (n : nat) (s : Scanner) : Scanner :=
  match n with
  | O => s
  | S n' =>
      if negb (ch s =? chEOF) && negb (ch s =? chNL)
      then skipLine_loop n' (next s)
      else s
  end.

(** The tag-name loop: up to white space or [;]. *)
Fixpoint skipTagName_loop (n : nat) (s : Scanner) : Scanner :=
  match n with
  | O => s
  | S n' =>
      if negb (ch s =? chEOF) && negb (isSpaceNL (ch s)) && negb (ch s =? chSemicolon)
      then skipTagName_loop n' (next s)
      else s
  end.

(** [for scanner.next(); scanner.ch == '|'; scanner.next()]. *)
Fixpoint skipPipes_loop (n : nat) (s : Scanner) : Scanner :=
  match n with
  | O => s
  | S n' => if ch s =? chPipe then skipPipes_loop n' (next s) else s
  end.

(** The entity-name loop: up to [~], [;] or the end of the line. *)
Fixpoint skipEntityName_loop (n : nat) (s : Scanner) : Scanner :=
  match n with
  | O => s
  | S n' =>
      if negb (ch s =? chEOF) && negb (ch s =? chTilde) && negb (ch s =? chCR)
         && negb (ch s =? chNL) && negb (ch s =? chSemicolon)
      then skipEntityName_loop n' (next s)
      else s
  end.

(** The loop of inline code text.  [start] and [str] are the locals of the
    source; the loop's post statement [next()] runs after the body. *)
Fixpoint scanCode_loop (n : nat) (s : Scanner) (start : Z) (str : string)
  : Scanner * Z * string :=
  match n with
  | O => (s, start, str)
  | S n' =>
      if negb (ch s =? chBacktick) && negb (ch s =? chEOF) && negb (ch s =? chCR)
         && negb (ch s =? chNL)
      then
        if ch s =? chBackslash then
          let s1 := next s in
          if ch s1 =? chBacktick
          then scanCode_loop n' (next (next s1)) (offset s1)
                             (str ++ slice (src s1) start (offset s1 - 1))
          else scanCode_loop n' (next s1) start str
        else scanCode_loop n' (next s) start str
      else (s, start, str)
  end.

(** The loop of inline math text, ended only by [$]. *)
Fixpoint scanMath_loop (n : nat) (s : Scanner) (start : Z) (str : string)
  : Scanner * Z * string :=
  match n with
  | O => (s, start, str)
  | S n' =>
      if negb (ch s =? chDollar) && negb (ch s =? chEOF)
      then
        if ch s =? chBackslash then
          let s1 := next s in
          if ch s1 =? chDollar
          then scanMath_loop n' (next (next s1)) (offset s1)
                             (str ++ slice (src s1) start (offset s1 - 1))
          else scanMath_loop n' (next s1) start str
        else scanMath_loop n' (next s) start str
      else (s, start, str)
  end.

(** The loop of a [key:value] token in the style, embed and section modes. *)
Fixpoint scanValue_loop (n : nat) (s : Scanner) (start : Z) (result : string)
  : Scanner * Z * string :=
  match n with
  | O => (s, start, result)
  | S n' =>
      if negb (ch s =? chEOF) && negb (isSpaceNL (ch s))
         && (negb (bool_decide (mode s = modeEmbed)) || negb (ch s =? chTilde))
         && (negb (bool_decide (mode s = modeStyle)) || negb (ch s =? chRBrace))
         && negb (ch s =? chSemicolon)
      then
        if ch s =? chBackslash then
          let s1 := next s in
          scanValue_loop n' (next s1) (offset s1) (result ++ slice (src s) start (offset s))
        else scanValue_loop n' (next s) start result
      else (s, start, result)
  end.

Definition isTagStart (c : Z) : bool :=
  (c =? chHash) || (c =? chPlus) || (c =? chMinus) || (c =? chPercent) || (c =? chGreater).

Definition isMarkup (c : Z) : bool :=
  (c =? chLBrace) || (c =? chRBrace) || (c =? chTilde) || (c =? chBacktick)
  || (c =? chDollar) || (c =? chUnderscore) || (c =? chStar).

(** The loop of plain text.  The locals are [start], [result], [newline]
    and [colon]. *)
Fixpoint scanText_loop (n : nat) (s : Scanner) (start : Z) (result : string)
    (newline colon : bool) : Scanner * Z * string * bool * bool :=
  match n with
  | O => (s, start, result, newline, colon)
  | S n' =>
      if negb (ch s =? chEOF) && negb (isMarkup (ch s))
         && (negb newline || negb (isTagStart (ch s)))
         && (negb (bool_decide (layout s = textTable)) || negb (ch s =? chPipe))
         && (negb (bool_decide (layout s = textParagraph)) || negb (ch s =? chNL)
             || negb colon)
      then
        if newline && (ch s =? chNL) then
          (set_mode (next s) modeNewTag, start, result, newline, colon)
        else if (ch s =? chCR) || (ch s =? chNL) || (newline && isBlank (ch s)) then
          scanText_loop n' (next s) start result true colon
        else if ch s =? chColon then
          scanText_loop n' (next s) start result false true
        else if ch s =? chBackslash then
          let s1 := next s in
          scanText_loop n' (next s1) (offset s1)
                        (result ++ slice (src s) start (offset s)) false false
        else if negb (ch s =? chSpace) && negb (ch s =? chTab) && negb (ch s =? chCR) then
          scanText_loop n' (next s) start result false false
        else scanText_loop n' (next s) start result false colon
      else (s, start, result, newline, colon)
  end.

(** Modelled from the Go standard library: [strings.TrimRight(s, cutset)]
    for the cutset [" \r\t\n"]. *)
Fixpoint TrimRight_ws (s : string) : string :=
  match s with
  | EmptyString => EmptyString
  | String c rest =>
      match TrimRight_ws rest with
      | EmptyString =>
          if isSpaceNL (Z.of_nat (nat_of_ascii c)) then EmptyString
          else String c EmptyString
      | r => String c r
      end
  end.

(** The part of [scan] after the first [switch]: a value token, the
    synthetic paragraph, or text.  [again] is [goto scanAgain]. *)
Definition scanTail (again : Scanner -> (Token * string) * Scanner) (s : Scanner)
  : (Token * string) * Scanner :=
  let start := offset s in
  match mode s with
  | modeStyle | modeEmbed | modeSection =>
      let '(s1, start1, result) := scanValue_loop (fuel s) s start "" in
      let s2 := if ch s1 =? chSemicolon then s1 else set_mode s1 (nextMode s1) in
      let str := result ++ slice (src s2) start1 (offset s2) in
      let s3 := next s2 in
      if (String.length str =? 0)%nat then again s3
      else ((TokenValue, str), s3)
  | modeNewTag =>
      let s1 := set_mode s modeNormal in
      ((TokenSection, "#p"), set_indent s1 (offset s1 - lineOffset s1))
  | _ =>
      let newline := lineOffset s =? offset s in
      let text (s : Scanner) (newline : bool) :=
        let '(s1, start1, result, newline1, colon) :=
          scanText_loop (fuel s) s start "" newline false in
        let result1 := result ++ slice (src s1) start1 (offset s1) in
        if newline1 && isTagStart (ch s1) then
          ((TokenText, result1), set_mode s1 modeNewTag)
        else if colon && bool_decide (layout s1 = textParagraph) && (ch s1 =? chNL) then
          ((TokenText, TrimRight_ws result1),
           set_layout (set_mode (skipWhitespace true s1) modeNewTag) textNormal)
        else ((TokenText, result1), s1) in
      if ch s =? chNL then
        let s1 := skipWhitespace false (next s) in
        if ch s1 =? chNL then
          let s2 := skipWhitespace true s1 in
          if isTagStart (ch s2) then again (set_mode s2 modeNewTag)
          else ((TokenSection, "#p"), set_indent s2 (offset s2 - lineOffset s2))
        else text s1 true
      else text s newline
  end.

(** [scanAgain:] and the first [switch] of [scan].  A turn of the label
    that does not return has called [next]. *)
Fixpoint scanAgain (n : nat) (s : Scanner) : (Token * string) * Scanner :=
  match n with
  | O => ((TokenEOF, ""), s)
  | S n' =>
      let again := scanAgain n' in
      let c := ch s in
      let lineStart := (lineOffset s =? offset s) || bool_decide (mode s = modeNewTag) in
      if c =? chEOF then ((TokenEOF, ""), s)
      else if c =? 0 then again (next s)
      else if (c =? chPercent) && lineStart then
        let s1 := skipLine_loop (fuel s) (next s) in
        again (if ch s1 =? chNL then next s1 else s1)
      else if ((c =? chGreater) || (c =? chHash)) && lineStart then
        let s1 := set_layout (set_nextMode (set_mode
                    (set_indent s (offset s - lineOffset s)) modeSection) modeNormal)
                    textNormal in
        let start := offset s1 in
        let s2 := skipTagName_loop (fuel s1) (next s1) in
        let name := slice (src s2) start (offset s2) in
        if isSpaceNL (ch s2)
        then ((TokenSection, name), skipWhitespace false (set_mode s2 modeNormal))
        else ((TokenSection, name), next s2)
      else if ((c =? chMinus) || (c =? chPlus)) && lineStart then
        let ind := offset s - lineOffset s in
        let start := offset s in
        let s1 := next s in
        let str := slice (src s1) start (offset s1) in
        let s2 := if isSpaceNL (ch s1) then set_mode s1 modeNormal
                  else set_nextMode (set_mode s1 modeSection) modeNormal in
        ((TokenEnum, str), set_indent (set_layout s2 textNormal) ind)
      else if (c =? chUnderscore) && bool_decide (mode s = modeNormal) then
        ((TokenStyle, "_"), next s)
      else if (c =? chStar) && bool_decide (mode s = modeNormal) then
        ((TokenStyle, "*"), next s)
      else if (c =? chPipe) && bool_decide (mode s = modeNormal)
              && (bool_decide (layout s = textTable) || isStartOfLine s) then
        let s1 := set_layout s textTable in
        let start := offset s1 in
        let s2 := skipPipes_loop (fuel s1) (next s1) in
        let e := offset s2 in
        let s3 := skipWhitespace false s2 in
        if ch s3 =? chNL then
          let s4 := skipWhitespace false (next s3) in
          let s5 := if ch s4 =? chNL
                    then set_mode (skipWhitespace true (set_layout s4 textNormal)) modeNewTag
                    else s4 in
          ((TokenTableRow, slice (src s5) start e), s5)
        else ((TokenTableCell, slice (src s3) start e), s3)
      else if c =? chCR then again (next s)
      else if ((c =? chSpace) || (c =? chTab)) && bool_decide (mode s = modeSection) then
        let s1 := next s in
        again (skipWhitespace true (set_mode s1 (nextMode s1)))
      else if ((c =? chSpace) || (c =? chTab))
              && (bool_decide (mode s = modeEmbed) || bool_decide (mode s = modeStyle)) then
        again (set_mode (next s) modeNormal)
      else if ((c =? chSpace) || (c =? chTab)) && bool_decide (mode s = modeNewTag) then
        again (next s)
      else if (c =? chLBrace) && bool_decide (mode s = modeNormal) then
        ((TokenStyle, "{"), next (set_nextMode (set_mode s modeStyle) modeNormal))
      else if (c =? chRBrace)
              && (bool_decide (mode s = modeStyle) || bool_decide (mode s = modeNormal)) then
        ((TokenStyle, "}"), next (set_mode s modeNormal))
      else if (c =? chTilde) && bool_decide (mode s = modeEmbed) then
        again (next (set_mode s modeNormal))
      else if (c =? chTilde) && bool_decide (mode s = modeNormal) then
        let s1 := next s in
        let start := offset s1 in
        let s2 := skipEntityName_loop (fuel s1) s1 in
        let name := slice (src s2) start (offset s2) in
        if ch s2 =? chTilde then ((TokenEntity, name), next s2)
        else if ch s2 =? chSemicolon
        then ((TokenEntity, name), set_nextMode (set_mode (next s2) modeEmbed) modeNormal)
        else ((TokenEntity, name), s2)
      else if (c =? chBacktick) && bool_decide (mode s = modeNormal) then
        let s1 := next s in
        let '(s2, start, str) := scanCode_loop (fuel s1) s1 (offset s1) "" in
        let str1 := str ++ slice (src s2) start (offset s2) in
        ((TokenCodeText, str1), if ch s2 =? chBacktick then next s2 else s2)
      else if (c =? chDollar) && bool_decide (mode s = modeNormal) then
        let s1 := next s in
        let '(s2, start, str) := scanMath_loop (fuel s1) s1 (offset s1) "" in
        let str1 := str ++ slice (src s2) start (offset s2) in
        ((TokenMathText, str1), if ch s2 =? chDollar then next s2 else s2)
      else scanTail again s
  end.

(** [Scanner.scan]. *)
Definition scan (s : Scanner) : (Token * string) * Scanner :=
  if bool_decide (layout s = textCode)
     && (bool_decide (mode s = modeNormal) || bool_decide (mode s = modeNewTag)) then
    let start := offset s in
    let s1 := skipIndented (skipUntilEmptyLine s) in
    ((TokenCodeText, slice (src s1) start (offset s1)),
     set_mode (set_layout s1 textNormal) modeNewTag)
  else if bool_decide (layout s = textMath) && bool_decide (mode s = modeNormal) then
    let start := offset s in
    let s1 := skipIndented (skipUntilEmptyLine s) in
    ((TokenMathText, slice (src s1) start (offset s1)),
     set_mode (set_layout s1 textNormal) modeNewTag)
  else if bool_decide (mode s = modeConfig) then
    let start := offset s in
    let s1 := skipUntilEmptyLine s in
    ((TokenConfigText, slice (src s1) start (offset s1)), set_mode s1 (nextMode s1))
  else if bool_decide (mode s = modeInjectSection) then
    ((TokenSection, ""), set_mode s modeNormal)
  else
    let s1 := if offset s =? 0 then skipWhitespace true (next s) else s in
    scanAgain (fuel s1) s1.

(** [Scanner.Scan]. *)
Definition Scan (s : Scanner) : (ScannerRange * Token * string) * Scanner :=
  let '((t, str), s1) := scan s in
  ((mkRange (lineCount s) (offset s - lineOffset s) (offset s) (offset s1), t, str), s1).

Definition NewScanner (markdown : string) : Scanner :=
  mkScanner markdown modeNewTag modeNormal textNormal 0 0 0 0 0 0 [].

Local Close Scope Z_scope.

(** ** Document tree (document.go) and parser (parser.go) *)

(** Document nodes, style nodes and counter maps are Go heap objects
    reached through pointers; they live in three stores of the parser state
    ([docs], [styles], [maps]) and a pointer is an index into its store.
    Stores only grow, so an index names one object for the whole parse. *)

Local Open Scope Z_scope.

(** A [NodeWithText]: a document node or a style node. *)
Inductive NodeRef : Type :=
  | RDoc (id : nat)
  | RStyle (id : nat).

Record EntityNode : Type := mkEntityNode {
  EParent : NodeRef;
  EAttributes : gmap string string;
  ENodeName : string;
  EDef : nat;
  EValue : string;
  ECounters : nat
}.

(** The values of the [Node] interface held in a [Text] slice. *)
Inductive Leaf : Type :=
  | LText (text : string) (parent : NodeRef)
  | LMath (text : string) (parent : NodeRef)
  | LCode (text : string) (parent : NodeRef)
  | LStyle (id : nat)
  | LEntity (e : EntityNode).

Record DocumentNode : Type := mkDoc {
  Tag : string;
  TagDef : option nat;
  Counters : option nat;
  Parent : option nat;
  NextSibling : option nat;
  PrevSibling : option nat;
  Children : list nat;
  Text : list Leaf;
  Document : option nat;
  Attributes : gmap string string;
  Colspan : Z;
  Indent : Z
}.

Record StyleNode : Type := mkStyleNode {
  StName : string;
  StDef : option nat;
  StAttributes : gmap string string;
  StParent : NodeRef;
  StText : list Leaf;
  StValue : string
}.

Definition set_Counters (n : DocumentNode) (c : option nat) : DocumentNode :=
  mkDoc (Tag n) (TagDef n) c (Parent n) (NextSibling n) (PrevSibling n) (Children n)
        (Text n) (Document n) (Attributes n) (Colspan n) (Indent n).

Definition set_Parent (n : DocumentNode) (p : option nat) : DocumentNode :=
  mkDoc (Tag n) (TagDef n) (Counters n) p (NextSibling n) (PrevSibling n) (Children n)
        (Text n) (Document n) (Attributes n) (Colspan n) (Indent n).

Definition set_NextSibling (n : DocumentNode) (p : option nat) : DocumentNode :=
  mkDoc (Tag n) (TagDef n) (Counters n) (Parent n) p (PrevSibling n) (Children n)
        (Text n) (Document n) (Attributes n) (Colspan n) (Indent n).

Definition set_PrevSibling (n : DocumentNode) (p : option nat) : DocumentNode :=
  mkDoc (Tag n) (TagDef n) (Counters n) (Parent n) (NextSibling n) p (Children n)
        (Text n) (Document n) (Attributes n) (Colspan n) (Indent n).

Definition set_Children (n : DocumentNode) (c : list nat) : DocumentNode :=
  mkDoc (Tag n) (TagDef n) (Counters n) (Parent n) (NextSibling n) (PrevSibling n) c
        (Text n) (Document n) (Attributes n) (Colspan n) (Indent n).

Definition set_Text (n : DocumentNode) (t : list Leaf) : DocumentNode :=
  mkDoc (Tag n) (TagDef n) (Counters n) (Parent n) (NextSibling n) (PrevSibling n)
        (Children n) t (Document n) (Attributes n) (Colspan n) (Indent n).

Definition set_Attributes (n : DocumentNode) (a : gmap string string) : DocumentNode :=
  mkDoc (Tag n) (TagDef n) (Counters n) (Parent n) (NextSibling n) (PrevSibling n)
        (Children n) (Text n) (Document n) a (Colspan n) (Indent n).

Definition set_Colspan (n : DocumentNode) (c : Z) : DocumentNode :=
  mkDoc (Tag n) (TagDef n) (Counters n) (Parent n) (NextSibling n) (PrevSibling n)
        (Children n) (Text n) (Document n) (Attributes n) c (Indent n).

Definition set_Indent (n : DocumentNode) (i : Z) : DocumentNode :=
  mkDoc (Tag n) (TagDef n) (Counters n) (Parent n) (NextSibling n) (PrevSibling n)
        (Children n) (Text n) (Document n) (Attributes n) (Colspan n) i.

(** The store of document nodes: [h !! id] is the node behind pointer [id]. *)
Abbreviation Heap := (list DocumentNode) (only parsing).

(** Assignment through a pointer, [id.field = ...]; nothing happens when
    the pointer is not in the store (the callers only pass live pointers). *)
Definition update (h : Heap) (id : nat) (f : DocumentNode -> DocumentNode) : Heap :=
  match h !! id with
  | Some n => <[id := f n]> h
  | None => h
  end.

(** [appendChild] of parser.go, on the store. *)
Definition appendChild (h : Heap) (parent child : nat) : Heap :=
  let h1 := update h child (fun c => set_Parent c (Some parent)) in
  let h2 :=
    match h1 !! parent with
    | Some p =>
        match last (Children p) with
        | Some childPrev =>
            let h' := update h1 childPrev (fun c => set_NextSibling c (Some child)) in
            update h' child (fun c => set_PrevSibling c (Some childPrev))
        | None => h1
        end
    | None => h1
    end in
  update h2 parent (fun p => set_Children p (Children p ++ [child])%list).

(** The index of the first occurrence of [child], the [i] of
    [for i, c := range node.Children { if c == child ...]. *)
Fixpoint indexOf (child : nat) (l : list nat) : option nat :=
  match l with
  | [] => None
  | c :: rest => if Nat.eqb c child then Some O
                 else S <$> indexOf child rest
  end.

(** [DocumentNode.RemoveChild]. *)
Definition RemoveChild (h : Heap) (node child : nat) : Heap :=
  match h !! node with
  | Some n =>
      match indexOf child (Children n) with
      | Some i =>
          let h1 := update h node (fun n => set_Children n (delete i (Children n))) in
          update h1 child (fun c => set_Parent c None)
      | None => h
      end
  | None => h
  end.

Local Close Scope Z_scope.

(** ** Parser state *)

Local Open Scope Z_scope.

(** A line written with [log.Printf] or [log.Print], kept with the
    arguments of its format. *)
Inductive LogEntry : Type :=
  | LogUnknownTagType (tag : string)
  | LogUnknownTag (line : Z) (tagname : string)
  | LogStyleNotClosed (n : string)
  | LogNoOpeningStyle (styleName : string)
  | LogMismatchingStyle (styleName n : string)
  | LogNoDefaultAttribute (tagname : string)
  | LogExpectedStyle
  | LogUnknownEntity (line off : Z) (name : string).

(** The [Parser] struct, the heap it builds ([docs], [styles], [maps]; the
    field [counters] points into [maps]), the log, and the local variables
    of [parse] that its closures capture ([tagStack], [nodeStack],
    [styleStack], [secmode], [tableInbody]).  The fields [variables] and
    [resolver] are not used by the code modelled here. *)
Record Parser : Type := mkParser {
  grammar : Grammar;
  tokenPos : ScannerRange;
  token : Token;
  tokenStr : string;
  s : Scanner;
  counters : nat;
  rootNode : nat;
  docs : Heap;
  styles : list StyleNode;
  maps : list (gmap string Z);
  log : list LogEntry;
  tagStack : list nat;
  nodeStack : list nat;
  styleStack : list nat;
  secmode : SectionMode;
  tableInbody : bool
}.

Definition set_grammar (st : Parser) (v : Grammar) : Parser :=
  mkParser v (tokenPos st) (token st) (tokenStr st) (s st) (counters st) (rootNode st) (docs st) (styles st) (maps st) (log st) (tagStack st) (nodeStack st) (styleStack st) (secmode st) (tableInbody st).

Definition set_tokenPos (st : Parser) (v : ScannerRange) : Parser :=
  mkParser (grammar st) v (token st) (tokenStr st) (s st) (counters st) (rootNode st) (docs st) (styles st) (maps st) (log st) (tagStack st) (nodeStack st) (styleStack st) (secmode st) (tableInbody st).

Definition set_token (st : Parser) (v : Token) : Parser :=
  mkParser (grammar st) (tokenPos st) v (tokenStr st) (s st) (counters st) (rootNode st) (docs st) (styles st) (maps st) (log st) (tagStack st) (nodeStack st) (styleStack st) (secmode st) (tableInbody st).

Definition set_tokenStr (st : Parser) (v : string) : Parser :=
  mkParser (grammar st) (tokenPos st) (token st) v (s st) (counters st) (rootNode st) (docs st) (styles st) (maps st) (log st) (tagStack st) (nodeStack st) (styleStack st) (secmode st) (tableInbody st).

Definition set_scanner (st : Parser) (v : Scanner) : Parser :=
  mkParser (grammar st) (tokenPos st) (token st) (tokenStr st) v (counters st) (rootNode st) (docs st) (styles st) (maps st) (log st) (tagStack st) (nodeStack st) (styleStack st) (secmode st) (tableInbody st).

Definition set_counters (st : Parser) (v : nat) : Parser :=
  mkParser (grammar st) (tokenPos st) (token st) (tokenStr st) (s st) v (rootNode st) (docs st) (styles st) (maps st) (log st) (tagStack st) (nodeStack st) (styleStack st) (secmode st) (tableInbody st).

Definition set_rootNode (st : Parser) (v : nat) : Parser :=
  mkParser (grammar st) (tokenPos st) (token st) (tokenStr st) (s st) (counters st) v (docs st) (styles st) (maps st) (log st) (tagStack st) (nodeStack st) (styleStack st) (secmode st) (tableInbody st).

Definition set_docs (st : Parser) (v : Heap) : Parser :=
  mkParser (grammar st) (tokenPos st) (token st) (tokenStr st) (s st) (counters st) (rootNode st) v (styles st) (maps st) (log st) (tagStack st) (nodeStack st) (styleStack st) (secmode st) (tableInbody st).

Definition set_styles (st : Parser) (v : list StyleNode) : Parser :=
  mkParser (grammar st) (tokenPos st) (token st) (tokenStr st) (s st) (counters st) (rootNode st) (docs st) v (maps st) (log st) (tagStack st) (nodeStack st) (styleStack st) (secmode st) (tableInbody st).

Definition set_maps (st : Parser) (v : list (gmap string Z)) : Parser :=
  mkParser (grammar st) (tokenPos st) (token st) (tokenStr st) (s st) (counters st) (rootNode st) (docs st) (styles st) v (log st) (tagStack st) (nodeStack st) (styleStack st) (secmode st) (tableInbody st).

Definition set_log (st : Parser) (v : list LogEntry) : Parser :=
  mkParser (grammar st) (tokenPos st) (token st) (tokenStr st) (s st) (counters st) (rootNode st) (docs st) (styles st) (maps st) v (tagStack st) (nodeStack st) (styleStack st) (secmode st) (tableInbody st).

Definition set_tagStack (st : Parser) (v : list nat) : Parser :=
  mkParser (grammar st) (tokenPos st) (token st) (tokenStr st) (s st) (counters st) (rootNode st) (docs st) (styles st) (maps st) (log st) v (nodeStack st) (styleStack st) (secmode st) (tableInbody st).

Definition set_nodeStack (st : Parser) (v : list nat) : Parser :=
  mkParser (grammar st) (tokenPos st) (token st) (tokenStr st) (s st) (counters st) (rootNode st) (docs st) (styles st) (maps st) (log st) (tagStack st) v (styleStack st) (secmode st) (tableInbody st).

Definition set_styleStack (st : Parser) (v : list nat) : Parser :=
  mkParser (grammar st) (tokenPos st) (token st) (tokenStr st) (s st) (counters st) (rootNode st) (docs st) (styles st) (maps st) (log st) (tagStack st) (nodeStack st) v (secmode st) (tableInbody st).

Definition set_secmode (st : Parser) (v : SectionMode) : Parser :=
  mkParser (grammar st) (tokenPos st) (token st) (tokenStr st) (s st) (counters st) (rootNode st) (docs st) (styles st) (maps st) (log st) (tagStack st) (nodeStack st) (styleStack st) v (tableInbody st).

Definition set_tableInbody (st : Parser) (v : bool) : Parser :=
  mkParser (grammar st) (tokenPos st) (token st) (tokenStr st) (s st) (counters st) (rootNode st) (docs st) (styles st) (maps st) (log st) (tagStack st) (nodeStack st) (styleStack st) (secmode st) v.

(** [len(x)] for a slice. *)
Definition len_list {A : Type} (l : list A) : Z := Z.of_nat (length l).

(** The errors [parse] returns with [return nil, err]. *)
Inductive ParseError : Type :=
  | ErrYaml
  | ErrAttribute
  | ErrResources
  | ErrDefine
  | ErrGrammar (e : GrammarError).

(** The outcome of running a piece of the parser on a state: it finishes
    with a value, [parse] returns an error, the Go runtime panics (a nil
    dereference or an index out of range), or the fuel given to the loops
    did not suffice. *)
Inductive Res (A : Type) : Type :=
  | Ok (a : A) (st : Parser)
  | Return (e : ParseError) (st : Parser)
  | Panic
  | OutOfFuel.

Arguments Ok {A} a st.
Arguments Return {A} e st.
Arguments Panic {A}.
Arguments OutOfFuel {A}.

Definition M (A : Type) : Type := Parser -> Res A.

Definition ret {A : Type} (a : A) : M A := fun st => Ok a st.

Definition bind {A B : Type} (m : M A) (k : A -> M B) : M B :=
  fun st =>
    match m st with
    | Ok a st1 => k a st1
    | Return e st1 => Return e st1
    | Panic => Panic
    | OutOfFuel => OutOfFuel
    end.

Notation "x <- m ;; k" := (bind m (fun x => k))
  (at level 20, m at level 99, k at level 200, right associativity).
Notation "m ;; k" := (bind m (fun _ => k))
  (at level 100, k at level 200, right associativity).

Definition get : M Parser := fun st => Ok st st.
Definition modify (f : Parser -> Parser) : M unit := fun st => Ok tt (f st).
Definition panic {A : Type} : M A := fun _ => Panic.
Definition outOfFuel {A : Type} : M A := fun _ => OutOfFuel.
Definition fail {A : Type} (e : ParseError) : M A := fun st => Return e st.

(** [x] where Go dereferences a pointer or indexes a slice: a panic when
    there is nothing there. *)
Definition some {A : Type} (x : option A) : M A :=
  match x with
  | Some a => ret a
  | None => panic
  end.

Definition when (b : bool) (m : M unit) : M unit := if b then m else ret tt.

Definition logf (e : LogEntry) : M unit :=
  modify (fun st => set_log st (log st ++ [e])%list).

(** [*id] for a document node, a style node and a tag definition. *)
Definition doc (id : nat) : M DocumentNode :=
  st <- get ;; some (docs st !! id).

Definition style (id : nat) : M StyleNode :=
  st <- get ;; some (styles st !! id).

Definition tagAt (t : nat) : M TagDefinition :=
  st <- get ;; some (Tags (grammar st) !! t).

(** [tag.field] for a [*TagDefinition] that may be nil. *)
Definition tagOf (tag : option nat) : M TagDefinition :=
  t <- some tag ;; tagAt t.

Definition setDoc (id : nat) (f : DocumentNode -> DocumentNode) : M unit :=
  modify (fun st => set_docs st (update (docs st) id f)).

Definition getTag (tagname : string) : M (option nat) :=
  st <- get ;; ret (GetTag (grammar st) tagname).

(** The state after [parser.next()]. *)
Definition scanned (st : Parser) : Parser :=
  let '((pos, t, str), s1) := Scan (s st) in
  set_scanner (set_tokenStr (set_token (set_tokenPos st pos) t) str) s1.

(** [parser.next()]. *)
Definition pnext : M unit := modify scanned.

Local Close Scope Z_scope.

(** ** The closures of [Parser.parse] *)

Local Open Scope Z_scope.

(** Go's [int] addition (64 bits, wrapping). *)
Definition int_add (a b : Z) : Z := (a + b + 2 ^ 63) mod 2 ^ 64 - 2 ^ 63.

(** [newDocumentNode]. *)
Definition newDocumentNode (tag : string) (indent : Z) : M nat :=
  t <- getTag tag ;;
  tagdef <- match t with
            | Some _ => ret t
            | None => logf (LogUnknownTagType tag) ;; getTag "#p"
            end ;;
  st <- get ;;
  modify (fun st =>
    set_docs st (docs st ++ [mkDoc tag tagdef None None None None [] []
                                   (Some (rootNode st)) ∅ 0 indent])%list) ;;
  ret (length (docs st)).

(** [copyCounter]: the node gets a new map with the entries of
    [parser.counters]. *)
Definition copyCounter (c : nat) : M unit :=
  st <- get ;;
  m <- some (maps st !! counters st) ;;
  modify (fun st => set_maps st (maps st ++ [m])%list) ;;
  setDoc c (fun n => set_Counters n (Some (length (maps st)))).

(** The running map [parser.counters] after [incCounter]. *)
Definition inc (counter : string) (m : gmap string Z) : gmap string Z :=
  if String.eqb counter "" then m
  else match m !! counter with
       | None => <[counter := 1]> m
       | Some c => <[counter := int_add c 1]> m
       end.

Definition incCounter (counter : string) : M unit :=
  modify (fun st =>
    match maps st !! counters st with
    | Some m => set_maps st (<[counters st := inc counter m]> (maps st))
    | None => st
    end).

(** The running map after [resetCounter]. *)
Fixpoint reset (resetCounter : list string) (m : gmap string Z) : gmap string Z :=
  match resetCounter with
  | [] => m
  | c :: rest => reset rest (match m !! c with
                             | Some _ => delete c m
                             | None => m
                             end)
  end.

Definition resetCounter (l : list string) : M unit :=
  modify (fun st =>
    match maps st !! counters st with
    | Some m => set_maps st (<[counters st := reset l m]> (maps st))
    | None => st
    end).

Definition styleLabel (sn : StyleNode) : string :=
  if String.eqb (StName sn) "" then "{" else StName sn.

(** [closeStyles]: the loop runs from the top of the stack down. *)
Fixpoint closeStyles_loop (l : list nat) : M unit :=
  match l with
  | [] => ret tt
  | id :: rest =>
      sn <- style id ;;
      logf (LogStyleNotClosed (styleLabel sn)) ;;
      closeStyles_loop rest
  end.

Definition closeStyles : M unit :=
  st <- get ;;
  closeStyles_loop (rev (styleStack st)) ;;
  modify (fun st => set_styleStack st []).

(** [closeStyle]: each case of the [switch] compares [styleName] with the
    constant of the case it is in. *)
Definition closeStyle (styleName : string) : M unit :=
  st <- get ;;
  match last (styleStack st) with
  | None => logf (LogNoOpeningStyle styleName)
  | Some id =>
      sn <- style id ;;
      let mismatch :=
        if String.eqb styleName "*" then negb (String.eqb styleName "*")
        else if String.eqb styleName "_" then negb (String.eqb styleName "_")
        else negb (String.eqb styleName "}") in
      if mismatch then logf (LogMismatchingStyle styleName (styleLabel sn))
      else modify (fun st => set_styleStack st (removelast (styleStack st)))
  end.

(** [tagLevel]: a nil [tag] equals no entry of the stack. *)
Fixpoint tagLevel_loop (ts : list nat) (tag tag2 : option nat) (i : nat) : Z :=
  match i with
  | O => -1
  | S j =>
      match ts !! j with
      | Some t =>
          if bool_decide (Some t = tag) || bool_decide (Some t = tag2)
          then Z.of_nat j
          else tagLevel_loop ts tag tag2 j
      | None => tagLevel_loop ts tag tag2 j
      end
  end.

Definition tagLevel (tag tag2 : option nat) : M Z :=
  st <- get ;; ret (tagLevel_loop (tagStack st) tag tag2 (length (tagStack st))).

(** [x = x[:len(x)-1]]: a panic on the empty slice. *)
Definition popTag : M unit :=
  st <- get ;;
  match tagStack st with
  | [] => panic
  | _ => modify (fun st => set_tagStack st (removelast (tagStack st)))
  end.

Definition popNode : M unit :=
  st <- get ;;
  match nodeStack st with
  | [] => panic
  | _ => modify (fun st => set_nodeStack st (removelast (nodeStack st)))
  end.

Fixpoint closeTags_loop (n : nat) (level : Z) : M unit :=
  st <- get ;;
  if len_list (tagStack st) >? level then
    match n with
    | O => outOfFuel
    | S n' => popTag ;; popNode ;; closeTags_loop n' level
    end
  else ret tt.

(** [closeTags]. *)
Definition closeTags (level : Z) : M unit :=
  closeStyles ;;
  st <- get ;;
  closeTags_loop (S (length (tagStack st))) level ;;
  st <- get ;;
  match last (tagStack st) with
  | None => modify (fun st => set_secmode st sectionNormal)
  | Some t =>
      td <- tagAt t ;;
      modify (fun st => set_secmode st (TagSectionMode td))
  end.

(** [nodeStack[i]] and [tagStack[i]] for an [int] index. *)
Definition nodeAt (i : Z) : M nat :=
  st <- get ;;
  if i <? 0 then panic else some (nodeStack st !! Z.to_nat i).

Definition stackTag (i : Z) : M nat :=
  st <- get ;;
  if i <? 0 then panic else some (tagStack st !! Z.to_nat i).

Definition topNode : M nat :=
  st <- get ;; some (last (nodeStack st)).

(** [closeTableCell]. *)
Definition closeTableCell (colspan : Z) : M unit :=
  tag <- getTag "#tbody-cell" ;;
  tag2 <- getTag "#thead-cell" ;;
  level <- tagLevel tag tag2 ;;
  if level =? -1 then ret tt
  else
    n <- nodeAt (level + 1) ;;
    setDoc n (fun d => set_Colspan d colspan) ;;
    closeTags level.

(** [closeTableRow]. *)
Definition closeTableRow (colspan : Z) : M unit :=
  closeTableCell colspan ;;
  tag <- getTag "#tbody-row" ;;
  tag2 <- getTag "#thead-row" ;;
  level <- tagLevel tag tag2 ;;
  (if level =? -1 then ret tt else closeTags level) ;;
  modify (fun st => set_tableInbody st true).

(** [pushNodeOnStack]; [n] bounds the depth of the recursion. *)
Fixpoint pushNodeOnStack (n : nat) (node : nat) : M unit :=
  parent <- topNode ;;
  nd <- doc node ;;
  td <- tagOf (TagDef nd) ;;
  par <- doc parent ;;
  split <- (if FirstChild td
               && (0 <? len_list (Text par) + len_list (Children par))
            then ptd <- tagOf (TagDef par) ;;
                 ret (negb (String.eqb (Name ptd) "#root"))
            else ret false) ;;
  parent <- (if split : bool then
               match n with
               | O => outOfFuel
               | S n' =>
                   st <- get ;;
                   closeTags (len_list (tagStack st) - 1) ;;
                   ptd <- tagOf (TagDef par) ;;
                   parent2 <- newDocumentNode (Name ptd) (Indent par) ;;
                   pushNodeOnStack n' parent2 ;;
                   ret parent2
               end
             else ret parent) ;;
  modify (fun st => set_docs st (appendChild (docs st) parent node)) ;;
  resetCounter (ResetCounter td) ;;
  incCounter (Counter td) ;;
  copyCounter node ;;
  t <- some (TagDef nd) ;;
  modify (fun st => set_tagStack st (tagStack st ++ [t])%list) ;;
  modify (fun st => set_nodeStack st (nodeStack st ++ [node])%list).

Local Close Scope Z_scope.

(** ** Attributes, opening tags *)

Local Open Scope Z_scope.

(** Modelled from the Go standard library: [strings.Index(s, sep)], -1
    when [sep] does not occur. *)
Definition Index (str sep : string) : Z :=
  match String.index 0 sep str with
  | Some i => Z.of_nat i
  | None => -1
  end.

(** [str[:pos]] and [str[pos+1:]] for [0 <= pos < len(str)]. *)
Definition before (str : string) (pos : Z) : string :=
  slice str 0 pos.

Definition after (str : string) (pos : Z) : string :=
  slice str (pos + 1) (len str).

(** Modelled from the Go standard library: [unicode.IsSpace]. *)
Definition IsSpace (r : Z) : bool :=
  ((9 <=? r) && (r <=? 13)) || (r =? 32) || (r =? 133) || (r =? 160)
  || (r =? 5760) || ((8192 <=? r) && (r <=? 8202)) || (r =? 8232) || (r =? 8233)
  || (r =? 8239) || (r =? 8287) || (r =? 12288).

Fixpoint onlySpace_loop (n : nat) (p : list Z) : bool :=
  match p, n with
  | [], _ => true
  | _, O => true
  | _, S n' =>
      let '(r, w) := DecodeRune p in
      IsSpace r && onlySpace_loop n' (drop (Z.to_nat w) p)
  end.

(** [len(strings.TrimSpace(str)) == 0]: every rune of [str] is white
    space. *)
Definition onlySpace (str : string) : bool :=
  onlySpace_loop (String.length str) (bytesOf str).

(** One turn of the loop of [parseAttributes] on the value [str]. *)
Definition attribute (td : option TagDefinition) (str : string)
    (attributes : gmap string string) : gmap string string :=
  let pos := Index str ":" in
  if (pos =? 0) || (len str =? 0) || (pos =? len str - 1) then attributes
  else if negb (pos =? -1) then <[before str pos := after str pos]> attributes
  else
    let name := match td with
                | Some d => match ClassShortcuts d !! str with
                            | Some n => n
                            | None => str
                            end
                | None => str
                end in
    <[name := ""]> attributes.

Fixpoint parseAttributes_loop (n : nat) (tag : option nat)
    (attributes : gmap string string) : M (gmap string string) :=
  st <- get ;;
  if bool_decide (token st = TokenValue) then
    match n with
    | O => outOfFuel
    | S n' =>
        td <- match tag with
              | Some t => d <- tagAt t ;; ret (Some d)
              | None => ret None
              end ;;
        pnext ;;
        parseAttributes_loop n' tag (attribute td (tokenStr st) attributes)
    end
  else ret attributes.

(** [parseAttributes]. *)
Definition parseAttributes (n : nat) (tag : option nat) : M (gmap string string) :=
  pnext ;; parseAttributes_loop n tag ∅.

(** The slice [defaults] of [openTag2]: the tag and its chain of default
    parents, up to the one below [#root]. *)
Fixpoint defaultParents (n : nat) (p : option nat) (defaults : list (option nat))
  : M (list (option nat)) :=
  td <- tagOf p ;;
  match DefaultParent td with
  | None => ret defaults
  | Some dp =>
      if String.eqb dp "#root" then ret defaults
      else match n with
           | O => outOfFuel
           | S n' =>
               p1 <- getTag dp ;;
               p2 <- match p1 with
                     | Some _ => ret p1
                     | None => getTag "#p"
                     end ;;
               defaultParents n' p2 (defaults ++ [p2])%list
           end
  end.

(** Whether a tag [def] may stand below the open tag [t] with node indent
    [nIndent], for a new node of indent [indent]: the two tests of the
    inner loop of [openTag2]. *)
Definition fitsBelow (def t : TagDefinition) (nIndent indent : Z) : bool :=
  (allowedInParentHood def
   && (bool_decide (TagParentHood t = DefaultRootParentHood)
       || bool_decide (TagParentHood t = RootParentHood)
       || (bool_decide (TagParentHood t = IndentParentHood) && (nIndent <? indent))))
  || existsb (fun p => String.eqb p (Name t)) (PossibleParents def).

(** The index [j] of the first of [defaults] that fits below [t]. *)
Fixpoint firstFit (defaults : list TagDefinition) (t : TagDefinition)
    (nIndent indent : Z) (j : nat) : option nat :=
  match defaults with
  | [] => None
  | def :: rest =>
      if fitsBelow def t nIndent indent then Some j
      else firstFit rest t nIndent indent (S j)
  end.

Fixpoint tagsOf (l : list (option nat)) : M (list TagDefinition) :=
  match l with
  | [] => ret []
  | p :: rest =>
      td <- tagOf p ;;
      tds <- tagsOf rest ;;
      ret (td :: tds)
  end.

(** The loop of [openTag2] that closes the open tags below which neither
    the new tag nor one of its default parents fits; the result is
    [insertDefaultsDepth]. *)
Fixpoint fixParents_loop (i : nat) (defaults : list (option nat)) (indent : Z)
    (depth : nat) : M nat :=
  match i with
  | O => ret depth
  | S j =>
      t <- stackTag (Z.of_nat j) ;;
      td <- tagAt t ;;
      n <- nodeAt (Z.of_nat j + 1) ;;
      nd <- doc n ;;
      defs <- tagsOf defaults ;;
      match firstFit defs td (Indent nd) indent O with
      | Some d => ret d
      | None => closeTags (Z.of_nat j) ;; fixParents_loop j defaults indent depth
      end
  end.

(** The loop of [openTag2] that opens the default parents
    [defaults[i]], [i] from [insertDefaultsDepth] down to 1. *)
Fixpoint openDefaults (n : nat) (i : nat) (defaults : list (option nat)) (indent : Z)
  : M unit :=
  match i with
  | O => ret tt
  | S j =>
      p <- some (defaults !! i) ;;
      def <- tagOf p ;;
      defNode <- newDocumentNode (Name def) indent ;;
      pushNodeOnStack n defNode ;;
      openDefaults n j defaults indent
  end.

(** [openTag2]. *)
Definition openTag2 (n : nat) (tag : option nat) (node : nat) (fixParents : bool)
  : M unit :=
  closeStyles ;;
  (if fixParents then
     defaults <- defaultParents n tag [tag] ;;
     nd <- doc node ;;
     st <- get ;;
     depth <- fixParents_loop (length (tagStack st)) defaults (Indent nd)
                (length defaults - 1) ;;
     openDefaults n depth defaults (Indent nd)
   else ret tt) ;;
  pushNodeOnStack n node ;;
  td <- tagOf tag ;;
  modify (fun st => set_secmode st (TagSectionMode td)).

(** [openTag]. *)
Definition openTag (n : nat) (tag : option nat) : M nat :=
  td <- tagOf tag ;;
  st <- get ;;
  node <- newDocumentNode (Name td) (indent (s st)) ;;
  attributes <- parseAttributes n tag ;;
  setDoc node (fun d => set_Attributes d attributes) ;;
  openTag2 n tag node true ;;
  ret node.

(** [openTableCell]. *)
Definition openTableCell (n : nat) : M unit :=
  b <- getTag "#tbody-cell" ;;
  h <- getTag "#thead-cell" ;;
  level <- tagLevel b h ;;
  if negb (level =? -1) then ret tt
  else
    st <- get ;;
    let tag := if tableInbody st then b else h in
    td <- tagOf tag ;;
    node <- newDocumentNode (Name td) (indent (s st)) ;;
    openTag2 n tag node true.

(** [isPossibleParent]: the depth in the chain of default parents of
    [child] at which a tag fits below [parent], or -1. *)
Fixpoint isPossibleParent (n : nat) (parent : DocumentNode) (child : option nat)
    (childIndent : Z) (depth : Z) : M Z :=
  match child with
  | None => ret (-1)
  | Some c =>
      cd <- tagAt c ;;
      fits <- (if allowedInParentHood cd then
                 ptd <- tagOf (TagDef parent) ;;
                 ret ((bool_decide (TagParentHood ptd = IndentParentHood)
                       && (Indent parent <? childIndent))
                      || ((bool_decide (TagParentHood ptd = DefaultRootParentHood)
                           || bool_decide (TagParentHood ptd = RootParentHood))
                          && (Indent parent <=? childIndent)))
               else ret false) ;;
      named <- (match PossibleParents cd with
                | [] => ret false
                | ps => ptd <- tagOf (TagDef parent) ;;
                        ret (existsb (fun p => String.eqb p (Name ptd)) ps)
                end) ;;
      if fits || named then ret depth
      else match DefaultParent cd with
           | None => ret (-1)
           | Some dp =>
               if String.eqb dp "#root" then ret (-1)
               else match n with
                    | O => outOfFuel
                    | S n' =>
                        c1 <- getTag dp ;;
                        isPossibleParent n' parent c1 childIndent (int_add depth 1)
                    end
           end
  end.

(** [parent()]: the innermost open style, or the innermost open node. *)
Definition parent : M NodeRef :=
  st <- get ;;
  match last (styleStack st) with
  | Some id => ret (RStyle id)
  | None => id <- some (last (nodeStack st)) ;; ret (RDoc id)
  end.

(** [p.AppendText(text)]. *)
Definition AppendText (p : NodeRef) (text : Leaf) : M unit :=
  match p with
  | RDoc id => doc id ;; setDoc id (fun d => set_Text d (Text d ++ [text])%list)
  | RStyle id =>
      sn <- style id ;;
      modify (fun st =>
        set_styles st (<[id := mkStyleNode (StName sn) (StDef sn) (StAttributes sn)
                                          (StParent sn) (StText sn ++ [text])%list
                                          (StValue sn)]> (styles st)))
  end.

Local Close Scope Z_scope.

(** ** The loop of [Parser.parse] *)

Local Open Scope Z_scope.

(** The fields a [#define:#] section sets from its YAML text. *)
Record TagConfig : Type := mkTagConfig {
  cfgParents : list string;
  cfgCounter : string;
  cfgResetCounters : list string;
  cfgDefattr : string;
  cfgShortcss : gmap string string;
  cfgSecmode : SectionMode;
  cfgFirstChild : bool;
  cfgParentHood : ParentHood
}.

(** The values of the variables before the loop over the YAML keys. *)
Definition noTagConfig : TagConfig :=
  mkTagConfig [] "" [] "" ∅ sectionNormal false NoParentHood.

(** What [parse] takes from outside this repository: the YAML library
    ([yaml.Parse] with [yamlToMap]; [None] is an error, [Some None] no
    document), the loops over the keys of the YAML map with [url.Parse]
    and the resolver callback ([None] is [return nil, err]), and
    [ParseHTMLResources] ([false] is an error). *)
Record Externals : Type := mkExternals {
  Config : Type;
  yamlParse : string -> option (option Config);
  tagFields : Config -> option TagConfig;
  entityFields : Config -> option (string * gmap string string);
  styleFields : Config -> option (gmap string string);
  ParseHTMLResources : string -> bool
}.

Section Parse.

Variable ext : Externals.

(** [parseConfig]. *)
Definition parseConfig : M (option (Config ext)) :=
  st <- get ;;
  if bool_decide (token st = TokenConfigText) then
    pnext ;;
    match yamlParse ext (tokenStr st) with
    | None => fail ErrYaml
    | Some c => ret c
    end
  else ret None.

(** [for ; parser.token == TokenCodeText; parser.next() { text += ... }]. *)
Fixpoint codeText (n : nat) (text : string) : M string :=
  st <- get ;;
  if bool_decide (token st = TokenCodeText) then
    match n with
    | O => outOfFuel
    | S n' => pnext ;; codeText n' (text ++ tokenStr st)%string
    end
  else ret text.

(** The common start of the three [#define:] branches. *)
Definition defineConfig : M (option (Config ext)) :=
  modify (fun st =>
    set_scanner st (skipWhitespace false
                      (set_layout (set_mode (s st) modeConfig) textCode))) ;;
  pnext ;;
  parseConfig.

(** The common end of the three branches: the template text. *)
Definition defineTemplate (n : nat) : M unit :=
  text <- codeText n "" ;;
  if ParseHTMLResources ext text then ret tt else fail ErrResources.

(** The branch [#define:#]. *)
Definition defineTag (n : nat) : M unit :=
  st <- get ;;
  let section := slice (tokenStr st) 8 (len (tokenStr st)) in
  config <- defineConfig ;;
  cfg <- match config with
         | None => ret noTagConfig
         | Some c => match tagFields ext c with
                     | Some f => ret f
                     | None => fail ErrAttribute
                     end
         end ;;
  defineTemplate n ;;
  let tagDef := mkTag section (head (cfgParents cfg)) (cfgSecmode cfg)
                      (cfgParents cfg) (cfgCounter cfg) (cfgResetCounters cfg)
                      (cfgDefattr cfg) (cfgShortcss cfg) (cfgParentHood cfg)
                      (cfgFirstChild cfg) false in
  st <- get ;;
  let '(g, err) := addCustomTag (grammar st) tagDef in
  modify (fun st => set_grammar st g) ;;
  match err with
  | Some e => fail (ErrGrammar e)
  | None => ret tt
  end.

(** The branch [#define:~]. *)
Definition defineEntity (n : nat) : M unit :=
  st <- get ;;
  let entity := slice (tokenStr st) 9 (len (tokenStr st)) in
  config <- defineConfig ;;
  cfg <- match config with
         | None => ret ("", ∅)
         | Some c => match entityFields ext c with
                     | Some f => ret f
                     | None => fail ErrAttribute
                     end
         end ;;
  defineTemplate n ;;
  modify (fun st =>
    set_grammar st (addCustomEntity (grammar st) (mkEntity entity (fst cfg) (snd cfg)))).

(** The branch [#define:{]. *)
Definition defineStyle (n : nat) : M unit :=
  st <- get ;;
  let style := slice (tokenStr st) 9 (len (tokenStr st)) in
  config <- defineConfig ;;
  shortcss <- match config with
              | None => ret ∅
              | Some c => match styleFields ext c with
                          | Some f => ret f
                          | None => fail ErrAttribute
                          end
              end ;;
  defineTemplate n ;;
  modify (fun st =>
    set_grammar st (addCustomStyle (grammar st) (mkStyle style shortcss))).

Definition set_scannerLayout (t : textMode) : M unit :=
  modify (fun st => set_scanner st (set_layout (s st) t)).

(** The last branch of [case TokenSection]: a section of the document. *)
Definition section (n : nat) : M unit :=
  st <- get ;;
  let pos := Index (tokenStr st) ":" in
  let v := if pos =? -1 then "" else after (tokenStr st) pos in
  let tagname := if pos =? -1 then tokenStr st else before (tokenStr st) pos in
  t <- getTag tagname ;;
  tag <- match t with
         | Some _ => ret t
         | None => logf (LogUnknownTag (FromLine (tokenPos st)) tagname) ;; getTag "#p"
         end ;;
  td <- tagOf tag ;;
  match TagSectionMode td with
  | sectionTable => set_scannerLayout textTable
  | sectionCode => set_scannerLayout textCode
  | sectionMath => set_scannerLayout textMath
  | sectionParagraph => set_scannerLayout textParagraph
  | _ => ret tt
  end ;;
  node <- openTag n tag ;;
  (if pos =? -1 then ret tt
   else
     td <- tagOf tag ;;
     if String.eqb (DefaultAttribute td) "" then logf (LogNoDefaultAttribute tagname)
     else setDoc node (fun d =>
            set_Attributes d (<[DefaultAttribute td := v]> (Attributes d)))) ;;
  td <- tagOf tag ;;
  when (bool_decide (TagSectionMode td = sectionTable))
       (modify (fun st => set_tableInbody st false)).

(** [case TokenSection]. *)
Definition caseSection (n : nat) : M unit :=
  st <- get ;;
  if String.prefix "#define:#" (tokenStr st) then defineTag n
  else if String.prefix "#define:~" (tokenStr st) then defineEntity n
  else if String.prefix "#define:{" (tokenStr st) then defineStyle n
  else if String.prefix "#define:" (tokenStr st) then fail ErrDefine
  else section n.

(** The loop of [case TokenEnum] over the open tags, from the top of the
    stack: the result is [(parentEnum, siblingEnum)]. *)
Fixpoint enumLevels (n : nat) (i : nat) (enumTag : option nat) (indent : Z)
    (siblingEnum : Z) : M (Z * Z) :=
  match i with
  | O => ret (-1, siblingEnum)
  | S j =>
      t <- stackTag (Z.of_nat j) ;;
      td <- tagAt t ;;
      node <- nodeAt (Z.of_nat j + 1) ;;
      nd <- doc node ;;
      depth <- isPossibleParent n nd enumTag indent 0 ;;
      if negb (depth =? -1) then ret (Z.of_nat j, siblingEnum)
      else
        enumLevels n j enumTag indent
          (if (indent <=? Indent nd)
              && (String.eqb (Name td) "#ul" || String.eqb (Name td) "#ol")
           then Z.of_nat j else siblingEnum)
  end.

(** [openTag2(enumTag, parser.newDocumentNode(enumTag.Name, indent), true)]. *)
Definition openEnum (n : nat) (enumTag : option nat) (indent : Z) : M unit :=
  etd <- tagOf enumTag ;;
  node <- newDocumentNode (Name etd) indent ;;
  openTag2 n enumTag node true.

(** [case TokenEnum]. *)
Definition caseEnum (n : nat) : M unit :=
  st <- get ;;
  let indent := indent (s st) in
  tag <- getTag "#li" ;;
  enumTag <- getTag (if String.eqb (tokenStr st) "-" then "#ul" else "#ol") ;;
  levels <- enumLevels n (length (tagStack st)) enumTag indent (-1) ;;
  let parentEnum := fst levels in
  let siblingEnum := snd levels in
  (if negb (siblingEnum =? -1) then
     t <- stackTag siblingEnum ;;
     if bool_decide (Some t = enumTag) then
       closeTags (siblingEnum + 1) ;;
       node <- nodeAt (siblingEnum + 1) ;;
       setDoc node (fun d => set_Indent d indent)
     else
       closeTags siblingEnum ;;
       openEnum n enumTag indent
   else if negb (parentEnum =? -1) then
     closeTags (parentEnum + 1) ;;
     openEnum n enumTag indent
   else
     closeTags 0 ;;
     openEnum n enumTag indent) ;;
  td <- tagOf tag ;;
  node <- newDocumentNode (Name td) indent ;;
  attributes <- parseAttributes n tag ;;
  setDoc node (fun d => set_Attributes d attributes) ;;
  openTag2 n tag node false.

(** [if secmode == sectionTable { openTableCell() }]. *)
Definition tableCell (n : nat) : M unit :=
  st <- get ;;
  when (bool_decide (secmode st = sectionTable)) (openTableCell n).

(** The rewrite of a paragraph that ends in a colon into [#dt] and
    [#dd]. *)
Definition term (n : nat) (parag : nat) : M unit :=
  st <- get ;;
  closeTags (len_list (tagStack st) - 1) ;;
  pd <- doc parag ;;
  par <- some (Parent pd) ;;
  doc par ;;
  modify (fun st => set_docs st (RemoveChild (docs st) par parag)) ;;
  pd <- doc parag ;;
  dlNode <- newDocumentNode "#dt" (Indent pd) ;;
  setDoc dlNode (fun d => set_Text d (Text pd)) ;;
  dl <- doc dlNode ;;
  openTag2 n (TagDef dl) dlNode true ;;
  st <- get ;;
  closeTags (len_list (tagStack st) - 1) ;;
  pd <- doc parag ;;
  ddNode <- newDocumentNode "#dd" (Indent pd) ;;
  setDoc ddNode (fun d => set_Text d (Text pd)) ;;
  dd <- doc ddNode ;;
  openTag2 n (TagDef dd) ddNode true.

(** The last byte of [str] is a colon. *)
Definition endsInColon (str : string) : bool :=
  (0 <? len str) && (byteAt str (len str - 1) =? chColon).

(** [case TokenText]. *)
Definition caseText (n : nat) : M unit :=
  tableCell n ;;
  st <- get ;;
  if bool_decide (secmode st = sectionMedia) then pnext
  else
    p <- parent ;;
    p1 <- match p with
          | RDoc node =>
              nd <- doc node ;;
              td <- tagOf (TagDef nd) ;;
              if bool_decide (TagParentHood td = TextParentHood) then ret (Some p)
              else if onlySpace (tokenStr st) then ret None
              else
                parag <- newDocumentNode "#p" (int_add (Indent nd) 1) ;;
                pd <- doc parag ;;
                openTag2 n (TagDef pd) parag true ;;
                ret (Some (RDoc parag))
          | RStyle _ => ret (Some p)
          end ;;
    match p1 with
    | None => pnext
    | Some p =>
        AppendText p (LText (tokenStr st) p) ;;
        match p with
        | RDoc parag =>
            pd <- doc parag ;;
            td <- tagOf (TagDef pd) ;;
            if String.eqb (Name td) "#p" then
              st1 <- get ;;
              top <- some (last (tagStack st1)) ;;
              ttd <- tagAt top ;;
              when (bool_decide (TagSectionMode ttd = sectionParagraph)
                    && endsInColon (tokenStr st))
                   (term n parag)
            else ret tt
        | RStyle _ => ret tt
        end ;;
        pnext
    end.

(** [case TokenMathText] and [case TokenCodeText]. *)
Definition caseLeaf (n : nat) (leaf : string -> NodeRef -> Leaf) : M unit :=
  tableCell n ;;
  st <- get ;;
  (if bool_decide (secmode st = sectionMedia) then ret tt
   else p <- parent ;; AppendText p (leaf (tokenStr st) p)) ;;
  pnext.

Definition newStyle (sn : StyleNode) : M nat :=
  st <- get ;;
  modify (fun st => set_styles st (styles st ++ [sn])%list) ;;
  ret (length (styles st)).

Definition pushStyle (id : nat) : M unit :=
  modify (fun st => set_styleStack st (styleStack st ++ [id])%list).

(** The branches of [case TokenStyle] for the markers [*] and [_]. *)
Definition emphasis (mark : string) (p : NodeRef) : M unit :=
  pnext ;;
  st <- get ;;
  open <- match last (styleStack st) with
          | Some id => sn <- style id ;; ret (String.eqb (StName sn) mark)
          | None => ret false
          end ;;
  if open : bool then closeStyle mark
  else
    node <- newStyle (mkStyleNode mark None ∅ p [] "") ;;
    AppendText p (LStyle node) ;;
    pushStyle node.

(** The loop over the values after the name of a style. *)
Fixpoint styleAttributes (n : nat) (node : nat) : M unit :=
  st <- get ;;
  if bool_decide (token st = TokenValue) then
    match n with
    | O => outOfFuel
    | S n' =>
        sn <- style node ;;
        let str := tokenStr st in
        let pos := Index str ":" in
        let attributes :=
          if negb (pos =? -1) then <[before str pos := after str pos]> (StAttributes sn)
          else <[str := ""]> (StAttributes sn) in
        modify (fun st =>
          set_styles st (<[node := mkStyleNode (StName sn) (StDef sn) attributes
                                               (StParent sn) (StText sn) (StValue sn)]>
                           (styles st))) ;;
        pnext ;;
        styleAttributes n' node
    end
  else ret tt.

(** The last branch of [case TokenStyle], after [parser.next()]: a style
    with a name, opened below [p]. *)
Definition namedStyle (n : nat) (p : NodeRef) : M unit :=
  st <- get ;;
  if negb (bool_decide (token st = TokenValue)) then logf LogExpectedStyle
  else
    let pos := Index (tokenStr st) ":" in
    let value := if pos =? -1 then "" else after (tokenStr st) pos in
    let name := if pos =? -1 then tokenStr st else before (tokenStr st) pos in
    node <- newStyle
              (match GetStyle (grammar st) name with
               | None => mkStyleNode "-css-" None (<[name := value]> ∅) p [] ""
               | Some styledef => mkStyleNode name (Some styledef) ∅ p [] value
               end) ;;
    AppendText p (LStyle node) ;;
    pnext ;;
    styleAttributes n node ;;
    pushStyle node.

(** [case TokenStyle]. *)
Definition caseStyle (n : nat) : M unit :=
  tableCell n ;;
  st <- get ;;
  if String.eqb (tokenStr st) "}" then closeStyle "}" ;; pnext
  else
    p <- parent ;;
    if String.eqb (tokenStr st) "*" then emphasis "*" p
    else if String.eqb (tokenStr st) "_" then emphasis "_" p
    else pnext ;; namedStyle n p.

(** [case TokenEntity]. *)
Definition caseEntity (n : nat) : M unit :=
  tableCell n ;;
  st <- get ;;
  let pos := Index (tokenStr st) ":" in
  let value := if pos =? -1 then "" else after (tokenStr st) pos in
  let name := if pos =? -1 then tokenStr st else before (tokenStr st) pos in
  attribs <- parseAttributes n None ;;
  st <- get ;;
  match GetEntity (grammar st) name with
  | None => logf (LogUnknownEntity (lineCount (s st)) (lineOffset (s st)) name)
  | Some edef =>
      p <- parent ;;
      ed <- some (Entities (grammar st) !! edef) ;;
      incCounter (ECounter ed) ;;
      st <- get ;;
      m <- some (maps st !! counters st) ;;
      modify (fun st => set_maps st (maps st ++ [m])%list) ;;
      AppendText p (LEntity (mkEntityNode p attribs name edef value (length (maps st))))
  end.

(** One turn of [for parser.token != TokenEOF { switch parser.token ...]. *)
Definition parseToken (n : nat) : M unit :=
  st <- get ;;
  match token st with
  | TokenSection => caseSection n
  | TokenEnum => caseEnum n
  | TokenText => caseText n
  | TokenMathText => caseLeaf n LMath
  | TokenCodeText => caseLeaf n LCode
  | TokenStyle => caseStyle n
  | TokenEntity => caseEntity n
  | TokenConfigText => pnext
  | TokenTableCell =>
      closeTableCell (len (tokenStr st)) ;; openTableCell n ;; pnext
  | TokenTableRow => closeTableRow (len (tokenStr st)) ;; pnext
  | TokenValue | TokenEOF => ret tt
  end.

Fixpoint parse_loop (fuel n : nat) : M unit :=
  st <- get ;;
  if bool_decide (token st = TokenEOF) then ret tt
  else match fuel with
       | O => outOfFuel
       | S fuel' => parseToken n ;; parse_loop fuel' n
       end.

(** The state with the local variables of [parse] as it declares them. *)
Definition started (st : Parser) : Parser :=
  set_tableInbody
    (set_secmode
       (set_styleStack (set_nodeStack (set_tagStack st []) [rootNode st]) [])
       sectionNormal)
    false.

(** [Parser.parse]; [n] bounds the turns of every loop. *)
Definition parse (n : nat) : M nat :=
  pnext ;;
  modify started ;;
  parse_loop n n ;;
  closeTags 0 ;;
  st <- get ;;
  ret (rootNode st).

(** What [ParseMarkdown] returns as its [error]. *)
Inductive Failure : Type :=
  | ScanFailure (e : ScannerError)
  | ParseFailure (e : ParseError).

(** [Parser.ParseMarkdown]: the pair [(doc, err)] it returns. *)
Definition ParseMarkdown (n : nat) : M (option nat * option Failure) :=
  fun st =>
    let finish (r : option nat * option ParseError) (st1 : Parser) :=
      match Errors (s st1) with
      | e :: _ => Ok (None, Some (ScanFailure e)) st1
      | [] =>
          match snd r with
          | Some err => Ok (None, Some (ParseFailure err)) st1
          | None => Ok (fst r, None) st1
          end
      end in
    match parse n st with
    | Ok d st1 => finish (Some d, None) st1
    | Return e st1 => finish (None, Some e) st1
    | Panic => Panic
    | OutOfFuel => OutOfFuel
    end.

End Parse.

(** [NewDocument]. *)
Definition NewDocument (grammar : Grammar) : DocumentNode :=
  mkDoc "Root" (GetTag grammar "#root") None None None None [] [] None ∅ 0 0.

(** [NewParser]. *)
Definition NewParser (grammar : Grammar) (markdown : string) : Parser :=
  mkParser grammar (mkRange 0 0 0 0) TokenEOF "" (NewScanner markdown) O O
           [NewDocument grammar] [] [∅] [] [] [] [] sectionNormal false.

(** [removeBOM]. *)
Definition removeBOM (data : string) : string :=
  if (3 <=? len data) && (byteAt data 0 =? 239) && (byteAt data 1 =? 187)
     && (byteAt data 2 =? 191)
  then slice data 3 (len data) else data.

Local Close Scope Z_scope.

(** ** Predicates used by the statements *)

(** [i] is the last slot of [l] whose name (read by [nm]) is [n]: the most
    recently registered definition of that name. *)
Definition lastNamed {A : Type} (nm : A -> string) (l : list A) (n : string) (i : nat)
  : Prop :=
  (exists e, l !! i = Some e /\ nm e = n) /\
  (forall k e, i < k -> l !! k = Some e -> nm e <> n).

(** [i] is the first slot of the list whose name (read by [nm]) is [n]. *)
Definition firstNamed {A : Type} (nm : A -> string) (l : list A) (n : string) (i : nat)
  : Prop :=
  (exists e, l !! i = Some e /\ nm e = n) /\
  (forall k e, k < i -> l !! k = Some e -> nm e <> n).

(** The grammar right after [grammar.Tags = append(grammar.Tags, tag)]. *)
Definition appendTag (g : Grammar) (tag : TagDefinition) : Grammar :=
  set_Tags g (Tags g ++ [tag]).

(** The parent names a tag declares: its default parent, then its possible
    parents. *)
Definition parentNames (tag : TagDefinition) : list string :=
  match DefaultParent tag with
  | Some p => p :: PossibleParents tag
  | None => PossibleParents tag
  end.

(** The current default root, when there is one, is a tag of the grammar. *)
Definition Grammar_wf (g : Grammar) : Prop :=
  match currentDefaultRoot g with
  | Some r => r < length (Tags g)
  | None => True
  end.

(** Condition under which [addCustomTag] of a default-root tag rewrites an
    already registered tag [child]; [root] is the name of the previous default
    root, if any. *)
Definition rebased (root : option string) (child : TagDefinition) : bool :=
  match DefaultParent child with
  | None => true
  | Some dp => match root with
               | Some r => String.eqb dp r
               | None => false
               end
  end
  && negb (bool_decide (TagParentHood child = DefaultRootParentHood))
  && negb (String.eqb (Name child) "#root").

(** [registered g us g']: the tags [us] are registered one after the other
    with [addCustomTag], starting from [g], every call returning no error. *)
Inductive registered : Grammar -> list TagDefinition -> Grammar -> Prop :=
  | registered_nil g : registered g [] g
  | registered_cons g u g1 us g2 :
      addCustomTag g u = (g1, None) ->
      registered g1 us g2 ->
      registered g (u :: us) g2.

(** The current default root, when there is one, is a registered tag whose
    attachment mode is default-root. *)
Definition Grammar_inv (g : Grammar) : Prop :=
  match currentDefaultRoot g with
  | Some r => exists t, Tags g !! r = Some t /\ TagParentHood t = DefaultRootParentHood
  | None => True
  end.

(** The default parent under which [addCustomTag] stores an accepted tag:
    the declared one; for a tag that declares none and is not [#root], its own
    name when it is a default root, else the name of the current default
    root. *)
Definition storedDefaultParent (g : Grammar) (tag : TagDefinition) : option string :=
  match DefaultParent tag with
  | Some p => Some p
  | None =>
      if String.eqb (Name tag) "#root" then None
      else if bool_decide (TagParentHood tag = DefaultRootParentHood)
           then Some (Name tag)
           else currentDefaultRootName g
  end.

(** A field of a tag definition that registration never writes: every field
    but the default parent, the possible parents and the block-scope flag. *)
Definition keptField {A : Type} (f : TagDefinition -> A) : Prop :=
  (forall t b, f (set_allowedInParentHood t b) = f t) /\
  (forall t p, f (set_DefaultParent t p) = f t) /\
  (forall t ps, f (set_PossibleParents t ps) = f t).


(** [reads s s']: the scanner state [s'] comes after [s] on the same
    source: nothing that was recorded is lost and the read position has not
    moved back. *)
Definition reads (s s' : Scanner) : Prop :=
  src s' = src s /\
  (exists l, Errors s' = (Errors s ++ l)%list) /\
  (readOffset s <= readOffset s')%Z.

(** The offsets of a scanner lie in its source, in order, and the
    end-of-file character is current only when the whole source was read. *)
Definition Scanner_ok (s : Scanner) : Prop :=
  (0 <= lineOffset s /\ lineOffset s <= offset s /\ offset s <= readOffset s
   /\ readOffset s <= len (src s) /\ 0 <= lineCount s /\ -1 <= ch s
   /\ (ch s = chEOF -> len (src s) <= readOffset s))%Z.

(** The number of turns a scanner loop can still make: the bytes not yet
    read, and one more while the current character is not the end of file. *)
Definition remaining (s : Scanner) : nat :=
  (Z.to_nat (len (src s) - readOffset s) + (if (ch s =? chEOF)%Z then 0 else 1))%nat.

(** Every NUL byte that was read has its error in the list. *)
Definition nulsRecorded (s : Scanner) : Prop :=
  forall k, (0 <= k < readOffset s)%Z -> byteAt (src s) k = 0%Z ->
    exists e, In e (Errors s) /\ From (Pos e) = k /\ To (Pos e) = k /\
              ErrText e = "illegal character NUL".

(** [steps s s']: [s'] is reached from [s] by calls of [next] and
    assignments to the mode, the next mode, the layout and the indent, the
    only ways in which the scanner changes its state. *)
Inductive steps : Scanner -> Scanner -> Prop :=
  | steps_refl s : steps s s
  | steps_trans s1 s2 s3 : steps s1 s2 -> steps s2 s3 -> steps s1 s3
  | steps_next s : steps s (next s)
  | steps_set_mode s m : steps s (set_mode s m)
  | steps_set_nextMode s m : steps s (set_nextMode s m)
  | steps_set_layout s t : steps s (set_layout s t)
  | steps_set_indent s i : steps s (set_indent s i).

(** [advanced s x]: [x] is reached from [s] by steps of which one at least
    is a call of [next]. *)
Definition advanced (s x : Scanner) : Prop :=
  exists y, steps s y /\ steps (next y) x.

(** ** Parser: inputs and predicates of the statements *)

(** Externals under which every YAML text is an empty document and no
    template has a resource that fails. *)
Definition plainExternals : Externals :=
  mkExternals unit (fun _ => Some None) (fun _ => None) (fun _ => None)
              (fun _ => None) (fun _ => true).

Definition newline : string := String (ascii_of_nat 10) "".

(** A headline, an empty line and a paragraph that ends in a colon. *)
Definition termInput : string :=
  ("# A" ++ newline ++ newline ++ "term:" ++ newline)%string.

(** A node as [newDocumentNode] makes it, before it is attached. *)
Definition freshNode (tag : string) : DocumentNode :=
  mkDoc tag None None None None None [] [] (Some O) ∅ 0 0.

(** A root with the three children 1, 2 and 3, built by [appendChild]. *)
Definition threeChildren : Heap :=
  appendChild
    (appendChild
       (appendChild [freshNode "Root"; freshNode "a"; freshNode "b"; freshNode "c"]
                    0 1)
       0 2)
    0 3.

(** The links of a node: parent, previous and next sibling, children. *)
Definition links (h : Heap) (id : nat)
  : option (option nat * option nat * option nat * list nat) :=
  (fun d => (Parent d, PrevSibling d, NextSibling d, Children d)) <$> h !! id.

(** [follows E R m]: whenever [m] finishes or makes [parse] return, the
    state it leaves is related by [R] to the state it started in; and [m]
    makes [parse] return only if [E] holds. *)
Definition follows {A : Type} (E : Prop) (R : Parser -> Parser -> Prop) (m : M A)
  : Prop :=
  forall st,
    match m st with
    | Ok _ st' => R st st'
    | Return _ st' => R st st' /\ E
    | Panic => True
    | OutOfFuel => True
    end.

(** A change of a document node that leaves its tag, its links and its
    text alone. *)
Definition decorates (f : DocumentNode -> DocumentNode) : Prop :=
  forall d, Tag (f d) = Tag d /\ TagDef (f d) = TagDef d /\ Parent (f d) = Parent d /\
            NextSibling (f d) = NextSibling d /\ PrevSibling (f d) = PrevSibling d /\
            Children (f d) = Children d /\ Text (f d) = Text d /\
            Document (f d) = Document d.

(** The state after [tagStack = tagStack[:len-1]] and the same for
    [nodeStack], and after the two [append]s of [pushNodeOnStack]. *)
Definition popped (st : Parser) : Parser :=
  set_nodeStack (set_tagStack st (removelast (tagStack st)))
                (removelast (nodeStack st)).

Definition pushed (st : Parser) (t node : nat) : Parser :=
  set_nodeStack (set_tagStack st (tagStack st ++ [t])%list) (nodeStack st ++ [node])%list.

(** [AtomicClose R]: [R] is a preorder that respects every single
    assignment made by [closeTags].  Such a relation holds between the states
    before and after [closeTags]. *)
Record AtomicClose (R : Parser -> Parser -> Prop) : Prop := mkAtomicClose {
  a_refl : forall st, R st st;
  a_trans : forall st1 st2 st3, R st1 st2 -> R st2 st3 -> R st1 st3;
  a_log : forall st e, R st (set_log st (log st ++ [e])%list);
  a_styleStack : forall st v, R st (set_styleStack st v);
  a_secmode : forall st v, R st (set_secmode st v);
  a_popped : forall st, tagStack st <> [] -> nodeStack st <> [] -> R st (popped st)
}.

(** [AtomicOpen R]: [R] moreover respects every single assignment made
    by the functions that open tags without reading a token.  Such a
    relation holds between the states before and after each of them. *)
Record AtomicOpen (R : Parser -> Parser -> Prop) : Prop := mkAtomicOpen {
  a_close : AtomicClose R;
  a_alloc : forall st tag tagdef indent,
      R st (set_docs st (docs st ++ [mkDoc tag tagdef None None None None [] []
                                           (Some (rootNode st)) ∅ 0%Z indent])%list);
  a_decorate : forall st id f, decorates f -> R st (set_docs st (update (docs st) id f));
  a_appendChild : forall st parent child,
      R st (set_docs st (appendChild (docs st) parent child));
  a_maps : forall st v, R st (set_maps st v);
  a_tableInbody : forall st v, R st (set_tableInbody st v);
  a_pushed : forall st t node, R st (pushed st t node)
}.

(** [Atomic R]: [R] moreover respects the reading of a token and the
    assignments to the scanner.  Such a relation holds between the states
    before and after every function that opens tags. *)
Record Atomic (R : Parser -> Parser -> Prop) : Prop := mkAtomic {
  a_open : AtomicOpen R;
  a_scanned : forall st, R st (scanned st);
  a_scanner : forall st s1, steps (s st) s1 -> R st (set_scanner st s1)
}.

(** [AtomicAll R]: [R] says nothing about the document nodes, the style
    nodes and the grammar, and holds when [parse] sets up its local
    variables.  An atomic relation of this kind holds between the states
    before and after [parse]. *)
Record AtomicAll (R : Parser -> Parser -> Prop) : Prop := mkAtomicAll {
  a_docs : forall st v, R st (set_docs st v);
  a_styles : forall st v, R st (set_styles st v);
  a_grammar : forall st g, R st (set_grammar st g);
  a_started : forall st, R st (started st)
}.

(** The stacks of open tags and open nodes go together: one node for
    every open tag, above the root node. *)
Definition stackInv (st : Parser) : Prop :=
  length (nodeStack st) = S (length (tagStack st)) /\
  head (nodeStack st) = Some (rootNode st).

Definition keepsStacks (st st' : Parser) : Prop :=
  rootNode st' = rootNode st /\ (stackInv st -> stackInv st').

(** The scanner only moves on. *)
Definition scans (st st' : Parser) : Prop := steps (s st) (s st').

Definition listInput : string :=
  ("- a" ++ newline ++ "  - b" ++ newline)%string.

(** The scanner of the parser moves on by steps of its own, and the
    token [TokenEOF] is current only when the scanner is at the end of its
    source. *)
Definition atEOF (st : Parser) : Prop :=
  token st = TokenEOF -> ch (s st) = chEOF.

Definition keepsScanner (st st' : Parser) : Prop :=
  steps (s st) (s st') /\ (Scanner_ok (s st) -> atEOF st -> atEOF st').

(** The token and the scanner stay as they are. *)
Definition sameToken (st st' : Parser) : Prop :=
  token st' = token st /\ tokenStr st' = tokenStr st /\ s st' = s st.

(** A paragraph with a NUL byte in it. *)
Definition nulText : string :=
  ("ab" ++ String (ascii_of_nat 0) "cd" ++ newline)%string.

(** The counters after the push of a node, in the words of the
    specification: every counter of the reset list of the tag is deleted,
    then the tag's own counter, if it declares one, is incremented, or
    created with the value 1 when it is absent. *)
Definition pushedCounters (td : TagDefinition) (m : gmap string Z) : gmap string Z :=
  let m1 := foldr delete m (ResetCounter td) in
  if String.eqb (Counter td) "" then m1
  else <[Counter td := match m1 !! Counter td with
                       | Some c => int_add c 1
                       | None => 1%Z
                       end]> m1.

(** The store of document nodes does not shrink. *)
Definition docsGrow (st st' : Parser) : Prop :=
  (length (docs st) <= length (docs st'))%nat.

(** A tag with a counter and a reset list, and a state in which a node
    of that tag is about to be pushed below the root while the counters
    [fig] and [sec] stand at 4 and 7. *)
Definition figureTag : TagDefinition :=
  mkTag "#figure" None sectionNormal [] "fig" ["sec"; "eq"] "" ∅ TextParentHood false true.

Definition figureState : Parser :=
  let g := set_Tags NewGrammar (Tags NewGrammar ++ [figureTag])%list in
  mkParser g (mkRange 0 0 0 0) TokenEOF "" (NewScanner "") O O
           [NewDocument g;
            mkDoc "#figure" (GetTag g "#figure") None None None None [] [] (Some O) ∅ 0 0]
           [] [{["fig" := 4%Z; "sec" := 7%Z]}] [] [] [O] [] sectionNormal false.

(** [keepsNodes st st']: the grammar and the style nodes are the same, the
    log has only grown, and every document node of [st] is a node of [st']
    with the same tag, the same definition and the same text; the nodes
    that are new in [st'] have no text. *)
Definition keepsNodes (st st' : Parser) : Prop :=
  grammar st' = grammar st /\ styles st' = styles st /\
  (exists l, log st' = (log st ++ l)%list) /\
  (length (docs st) <= length (docs st'))%nat /\
  forall id d', docs st' !! id = Some d' ->
    match docs st !! id with
    | Some d => Tag d' = Tag d /\ TagDef d' = TagDef d /\ Text d' = Text d
    | None => Text d' = []
    end.

(** The name and the value of a token [name:value]. *)
Definition nameOf (str : string) : string :=
  if (Index str ":" =? -1)%Z then str else before str (Index str ":").

Definition valueOf (str : string) : string :=
  if (Index str ":" =? -1)%Z then "" else after str (Index str ":").

(** The state after [k] turns of the loop of [parse]. *)
Fixpoint turns (k : nat) (st : Parser) : Parser :=
  match k with
  | O => st
  | S k' => match parseToken plainExternals 10 st with
            | Ok _ st' => turns k' st'
            | _ => st
            end
  end.

(** A section with a tag that is not registered, an entity that is not
    registered and a style that is not registered. *)
Definition unknownInput : string :=
  ("#foo" ++ newline ++ "hello {bar:1 x} ~e~ y" ++ newline)%string.

Definition unknownStart : Parser :=
  started (scanned (NewParser NewGrammar unknownInput)).

(** The relation that holds between any two states. *)
Definition anyState (st st' : Parser) : Prop := True.

(** The leaf [text] was appended to the text of the node [p]. *)
Definition appended (p : NodeRef) (text : Leaf) (st st' : Parser) : Prop :=
  match p with
  | RDoc d =>
      Text <$> (docs st' !! d) = (fun dn => Text dn ++ [text])%list <$> (docs st !! d)
  | RStyle q =>
      (q < length (styles st))%nat ->
      StText <$> (styles st' !! q)
      = (fun sn => StText sn ++ [text])%list <$> (styles st !! q)
  end.

(** [onlyStacks st st']: the two states differ at most in the stacks, the
    section mode and the log. *)
Definition onlyStacks (st st' : Parser) : Prop :=
  grammar st' = grammar st /\ docs st' = docs st /\ maps st' = maps st /\
  counters st' = counters st /\ styles st' = styles st /\ s st' = s st /\
  tokenStr st' = tokenStr st /\ rootNode st' = rootNode st.

(** A tag that opens a list: it has no default parent and no possible
    parents, stands in any block, keeps blocks of greater indent, and is
    not a first-child tag.  A grammar with the list tags [u] and [o] and the
    item tag [i], as the builtin tags define them. *)
Definition isList (td : TagDefinition) : Prop :=
  DefaultParent td = None /\ PossibleParents td = [] /\
  TagParentHood td = IndentParentHood /\ FirstChild td = false /\
  allowedInParentHood td = true.

Definition listGrammar (g : Grammar) (u o i : nat) : Prop :=
  GetTag g "#ul" = Some u /\ GetTag g "#ol" = Some o /\ GetTag g "#li" = Some i /\
  (exists ud, Tags g !! u = Some ud /\ Name ud = "#ul" /\ isList ud) /\
  (exists od, Tags g !! o = Some od /\ Name od = "#ol" /\ isList od) /\
  (exists ld, Tags g !! i = Some ld /\ Name ld = "#li" /\
              TagParentHood ld = TextParentHood /\ FirstChild ld = false).

(** The list tag that a marker opens. *)
Definition enumOf (str : string) (u o : nat) : nat :=
  if String.eqb str "-" then u else o.

(** [openList st u o i ts ns tU nU nL dU dL]: the innermost open tags of
    [st] are a list [tU] with the node [nU] and an item with the node [nL],
    above the open tags [ts] with the nodes [ns]: the state in the line
    after a list marker. *)
Definition openList (st : Parser) (u o i : nat) (ts ns : list nat) (tU nU nL : nat)
    (dU dL : DocumentNode) : Prop :=
  listGrammar (grammar st) u o i /\
  tagStack st = (ts ++ [tU; i])%list /\ nodeStack st = (ns ++ [nU; nL])%list /\
  length ns = S (length ts) /\ (tU = u \/ tU = o) /\
  docs st !! nU = Some dU /\ docs st !! nL = Some dL /\
  TagDef dU = Some tU /\ TagDef dL = Some i /\ nU <> nL.

(** No list of indent [indent] or more is open among the tags [ts]. *)
Definition noOuterList (st : Parser) (ts ns : list nat) (indent : Z) : Prop :=
  forall j t td n nd,
    ts !! j = Some t -> Tags (grammar st) !! t = Some td ->
    ns !! S j = Some n -> docs st !! n = Some nd ->
    (Indent nd < indent)%Z \/ (Name td <> "#ul" /\ Name td <> "#ol").

Definition mixedInput : string :=
  ("- a" ++ newline ++ "+ b" ++ newline)%string.

Definition sameInput : string :=
  ("- a" ++ newline ++ "- b" ++ newline)%string.

(** The tag, the parent and the children of a node. *)
Definition shape (d : DocumentNode) : string * option nat * list nat :=
  (Tag d, Parent d, Children d).

(** The shape of the node [j] after [appendChild h p c]. *)
Definition adopted (p c j : nat) (x : string * option nat * list nat)
  : string * option nat * list nat :=
  (x.1.1, (if Nat.eqb j c then Some p else x.1.2),
   (if Nat.eqb j p then x.2 ++ [c] else x.2)%list).
(** *** Lookup lemmas *)

Lemma GetTag_loop_Some (tags : list TagDefinition) (n : string) (i j : nat) :
  GetTag_loop tags n i = Some j ->
  j < i /\ (exists t, tags !! j = Some t /\ Name t = n) /\
  (forall k t, j < k -> k < i -> tags !! k = Some t -> Name t <> n).
Proof.
  induction i as [|i IH]; simpl; [discriminate|].
  destruct (tags !! i) as [tag|] eqn:Hi.
  - destruct (String.eqb (Name tag) n) eqn:He.
    + intros [= <-]. apply String.eqb_eq in He.
      split; [lia|]. split; [eauto|]. intros; lia.
    + intros H. destruct (IH H) as (Hlt & Hex & Hall).
      split; [lia|]. split; [exact Hex|].
      intros k t Hjk Hk Hkt. destruct (decide (k = i)) as [-> | Hne].
      * rewrite Hi in Hkt. injection Hkt as <-. now apply String.eqb_neq.
      * apply (Hall k t); [lia|lia|exact Hkt].
  - intros H. destruct (IH H) as (Hlt & Hex & Hall).
    split; [lia|]. split; [exact Hex|].
    intros k t Hjk Hk Hkt. destruct (decide (k = i)) as [-> | Hne].
    + congruence.
    + apply (Hall k t); [lia|lia|exact Hkt].
Qed.

Lemma GetTag_loop_None (tags : list TagDefinition) (n : string) (i : nat) :
  GetTag_loop tags n i = None ->
  forall k t, k < i -> tags !! k = Some t -> Name t <> n.
Proof.
  induction i as [|i IH]; simpl; [intros; lia|].
  destruct (tags !! i) as [tag|] eqn:Hi.
  - destruct (String.eqb (Name tag) n) eqn:He; [discriminate|].
    intros H k t Hk Hkt. destruct (decide (k = i)) as [-> | Hne].
    + rewrite Hi in Hkt. injection Hkt as <-. now apply String.eqb_neq.
    + apply (IH H k t); [lia|exact Hkt].
  - intros H k t Hk Hkt. destruct (decide (k = i)) as [-> | Hne]; [congruence|].
    apply (IH H k t); [lia|exact Hkt].
Qed.

Lemma GetTag_last (g : Grammar) (n : string) (i : nat) :
  GetTag g n = Some i <-> lastNamed Name (Tags g) n i.
Proof.
  unfold GetTag, lastNamed. split.
  - intros H. apply GetTag_loop_Some in H. destruct H as (Hlt & Hex & Hall).
    split; [exact Hex|]. intros k t Hik Hkt.
    apply (Hall k t Hik); [|exact Hkt]. now apply lookup_lt_Some in Hkt.
  - intros [(t & Hit & Hn) Hall].
    destruct (GetTag_loop (Tags g) n (length (Tags g))) as [j|] eqn:Hj.
    + apply GetTag_loop_Some in Hj. destruct Hj as (Hlt & (t' & Hjt & Hn') & Hall').
      destruct (lt_eq_lt_dec i j) as [[Hlt' | ->] | Hgt]; [| reflexivity |].
      * exfalso. exact (Hall j t' Hlt' Hjt Hn').
      * exfalso. apply (Hall' i t Hgt); [|exact Hit|exact Hn].
        now apply lookup_lt_Some in Hit.
    + exfalso. apply (GetTag_loop_None _ _ _ Hj i t); [|exact Hit|exact Hn].
      now apply lookup_lt_Some in Hit.
Qed.

Lemma GetTag_None (g : Grammar) (n : string) :
  GetTag g n = None <-> (forall k t, Tags g !! k = Some t -> Name t <> n).
Proof.
  split.
  - intros H k t Hkt. apply (GetTag_loop_None _ _ _ H k t); [|exact Hkt].
    now apply lookup_lt_Some in Hkt.
  - intros Hall. destruct (GetTag g n) as [j|] eqn:Hj; [|reflexivity].
    apply GetTag_last in Hj. destruct Hj as [(t & Hjt & Hn) _].
    exfalso. exact (Hall j t Hjt Hn).
Qed.

Lemma GetEntity_loop_first (es : list EntityDefinition) (n : string) (b i : nat) :
  GetEntity_loop es n b = Some i <->
  b <= i /\ firstNamed EName es n (i - b).
Proof.
  revert b. induction es as [|e es IH]; intros b; simpl.
  - split; [discriminate|]. intros [_ [(e & He & _) _]]. discriminate.
  - destruct (String.eqb (EName e) n) eqn:Heq.
    + apply String.eqb_eq in Heq. split.
      * intros [= <-]. split; [lia|]. replace (b - b) with 0 by lia.
        split; [exists e; split; [reflexivity|exact Heq]|]. intros; lia.
      * intros [Hle [(e' & He' & Hn') Hall]].
        destruct (i - b) as [|d] eqn:Hd; [f_equal; lia|].
        exfalso. apply (Hall 0 e); [lia|reflexivity|exact Heq].
    + apply String.eqb_neq in Heq. rewrite IH. split.
      * intros [Hle [(e' & He' & Hn') Hall]]. split; [lia|].
        replace (i - b) with (S (i - S b)) by lia. split.
        -- exists e'. split; [exact He'|exact Hn'].
        -- intros k e0 Hk Hke. destruct k as [|k]; simpl in Hke.
           ++ injection Hke as <-. exact Heq.
           ++ apply (Hall k e0); [lia|exact Hke].
      * intros [Hle [(e' & He' & Hn') Hall]].
        destruct (i - b) as [|d] eqn:Hd.
        -- simpl in He'. injection He' as <-. contradiction.
        -- split; [lia|]. replace (i - S b) with d by lia. split.
           ++ exists e'. split; [exact He'|exact Hn'].
           ++ intros k e0 Hk Hke. apply (Hall (S k) e0); [lia|exact Hke].
Qed.

Lemma GetEntity_first (g : Grammar) (n : string) (i : nat) :
  GetEntity g n = Some i <-> firstNamed EName (Entities g) n i.
Proof.
  unfold GetEntity. rewrite GetEntity_loop_first.
  replace (i - 0) with i by lia. split; [intros [_ H]; exact H|].
  intros H; split; [lia|exact H].
Qed.

Lemma GetStyle_loop_first (ss : list StyleDefinition) (n : string) (b i : nat) :
  GetStyle_loop ss n b = Some i <->
  b <= i /\ firstNamed SName ss n (i - b).
Proof.
  revert b. induction ss as [|e ss IH]; intros b; simpl.
  - split; [discriminate|]. intros [_ [(e & He & _) _]]. discriminate.
  - destruct (String.eqb (SName e) n) eqn:Heq.
    + apply String.eqb_eq in Heq. split.
      * intros [= <-]. split; [lia|]. replace (b - b) with 0 by lia.
        split; [exists e; split; [reflexivity|exact Heq]|]. intros; lia.
      * intros [Hle [(e' & He' & Hn') Hall]].
        destruct (i - b) as [|d] eqn:Hd; [f_equal; lia|].
        exfalso. apply (Hall 0 e); [lia|reflexivity|exact Heq].
    + apply String.eqb_neq in Heq. rewrite IH. split.
      * intros [Hle [(e' & He' & Hn') Hall]]. split; [lia|].
        replace (i - b) with (S (i - S b)) by lia. split.
        -- exists e'. split; [exact He'|exact Hn'].
        -- intros k e0 Hk Hke. destruct k as [|k]; simpl in Hke.
           ++ injection Hke as <-. exact Heq.
           ++ apply (Hall k e0); [lia|exact Hke].
      * intros [Hle [(e' & He' & Hn') Hall]].
        destruct (i - b) as [|d] eqn:Hd.
        -- simpl in He'. injection He' as <-. contradiction.
        -- split; [lia|]. replace (i - S b) with d by lia. split.
           ++ exists e'. split; [exact He'|exact Hn'].
           ++ intros k e0 Hk Hke. apply (Hall (S k) e0); [lia|exact Hke].
Qed.

Lemma GetStyle_first (g : Grammar) (n : string) (i : nat) :
  GetStyle g n = Some i <-> firstNamed SName (Styles g) n i.
Proof.
  unfold GetStyle. rewrite GetStyle_loop_first.
  replace (i - 0) with i by lia. split; [intros [_ H]; exact H|].
  intros H; split; [lia|exact H].
Qed.

(** *** Registration and lookup *)

Lemma GetTag_appendTag_self (g : Grammar) (tag : TagDefinition) :
  GetTag (appendTag g tag) (Name tag) = Some (length (Tags g)).
Proof.
  unfold GetTag, appendTag. simpl. rewrite length_app. simpl.
  replace (length (Tags g) + 1) with (S (length (Tags g))) by lia. simpl.
  rewrite lookup_app_r by lia. replace (length (Tags g) - length (Tags g)) with 0 by lia.
  simpl. now rewrite String.eqb_refl.
Qed.

Lemma GetTag_appendTag_other (g : Grammar) (tag : TagDefinition) (n : string) :
  Name tag <> n -> GetTag (appendTag g tag) n = GetTag g n.
Proof.
  intros Hne. unfold GetTag, appendTag. simpl. rewrite length_app. simpl.
  replace (length (Tags g) + 1) with (S (length (Tags g))) by lia. simpl.
  rewrite lookup_app_r by lia. replace (length (Tags g) - length (Tags g)) with 0 by lia.
  simpl. apply String.eqb_neq in Hne. rewrite Hne.
  generalize (le_n (length (Tags g))).
  generalize (length (Tags g)) at 1 3 4 as i.
  induction i as [|i IH]; intros Hi; simpl; [reflexivity|].
  rewrite lookup_app_l by lia.
  destruct (Tags g !! i) as [t|]; [|apply IH; lia].
  destruct (String.eqb (Name t) n); [reflexivity|apply IH; lia].
Qed.

Lemma GetTag_appendTag_known (g : Grammar) (tag : TagDefinition) (p : string) :
  GetTag (appendTag g tag) p <> None <-> GetTag g p <> None \/ p = Name tag.
Proof.
  destruct (string_dec (Name tag) p) as [<-|Hne].
  - rewrite GetTag_appendTag_self. split; [right; reflexivity|discriminate].
  - rewrite (GetTag_appendTag_other g tag p Hne). split; [left; assumption|].
    intros [H|H]; [assumption|congruence].
Qed.

Lemma firstUnknownParent_None (g : Grammar) (ps : list string) :
  firstUnknownParent g ps = None <-> (forall p, p ∈ ps -> GetTag g p <> None).
Proof.
  induction ps as [|q ps IH]; simpl.
  - split; [|reflexivity]. intros _ p Hp. inversion Hp.
  - destruct (GetTag g q) eqn:Hq.
    + rewrite IH. split.
      * intros H p Hp. apply elem_of_cons in Hp. destruct Hp as [->|Hp]; [congruence|auto].
      * intros H p Hp. apply H. apply elem_of_cons. now right.
    + split; [discriminate|]. intros H. exfalso. apply (H q); [|exact Hq].
      apply elem_of_cons. now left.
Qed.

Lemma firstUnknownParent_Some (g : Grammar) (ps : list string) (t : string) :
  firstUnknownParent g ps = Some t -> t ∈ ps /\ GetTag g t = None.
Proof.
  induction ps as [|q ps IH]; simpl; [discriminate|].
  destruct (GetTag g q) eqn:Hq.
  - intros H. destruct (IH H) as [Hin Hn]. split; [|exact Hn].
    apply elem_of_cons. now right.
  - intros [= <-]. split; [|exact Hq]. apply elem_of_cons. now left.
Qed.

(** C6 as the specification words it, for entities: the definition a lookup
    returns is the most recently registered one of that name. *)
Definition noteA : EntityDefinition := mkEntity "note" "a" ∅.
Definition noteB : EntityDefinition := mkEntity "note" "b" ∅.
Definition linkA : StyleDefinition := mkStyle "a" ∅.
Definition linkB : StyleDefinition := mkStyle "a" {[ "x" := "y" ]}.

(** C6, counterexample: two entities (two styles) of one name are registered
    one after the other; the lookup returns the one registered first, index
    0, so what it returns is not the most recently registered definition. *)
Lemma lookup_latest_counterexample :
  let g := addCustomStyle (addCustomStyle
             (addCustomEntity (addCustomEntity NewGrammar noteA) noteB) linkA) linkB in
  (Entities g !! 1%nat = Some noteB /\ GetEntity g "note" = Some 0%nat /\
   ~ lastNamed EName (Entities g) "note" 0) /\
  (Styles g !! 1%nat = Some linkB /\ GetStyle g "a" = Some 0%nat /\
   ~ lastNamed SName (Styles g) "a" 0).
Proof.
  cbv zeta. split; (split; [vm_compute; reflexivity|]; split; [vm_compute; reflexivity|]).
  - intros [_ H]. apply (H 1%nat noteB); [lia|vm_compute; reflexivity|reflexivity].
  - intros [_ H]. apply (H 1%nat linkB); [lia|vm_compute; reflexivity|reflexivity].
Qed.

(** C6 (amended): a tag lookup returns the tag of that name registered last
    (later registrations shadow earlier ones); an entity lookup and a style
    lookup return the definition of that name registered first (a later
    registration of the same name is never returned). *)
Theorem lookup_order (g : Grammar) (n : string) (i : nat) :
  (GetTag g n = Some i <-> lastNamed Name (Tags g) n i) /\
  (GetEntity g n = Some i <-> firstNamed EName (Entities g) n i) /\
  (GetStyle g n = Some i <-> firstNamed SName (Styles g) n i).
Proof.
  split; [apply GetTag_last|]. split; [apply GetEntity_first|apply GetStyle_first].
Qed.

(** The default-parent check of [addCustomTag] on the grammar that already
    holds the tag. *)
Lemma addCustomTag_error (g : Grammar) (tag : TagDefinition) :
  snd (addCustomTag g tag) =
  match DefaultParent tag with
  | Some dp =>
      match GetTag (appendTag g tag) dp with
      | None => Some (errUnknownDefaultParent dp (Name tag))
      | Some _ =>
          match firstUnknownParent (appendTag g tag) (PossibleParents tag) with
          | Some t => Some (errUnknownPossibleParent t (Name tag))
          | None => None
          end
      end
  | None =>
      match firstUnknownParent (appendTag g tag) (PossibleParents tag) with
      | Some t => Some (errUnknownPossibleParent t (Name tag))
      | None => None
      end
  end.
Proof.
  unfold addCustomTag. fold (appendTag g tag).
  destruct (DefaultParent tag) as [dp|].
  - destruct (GetTag (appendTag g tag) dp); [|reflexivity].
    destruct (firstUnknownParent (appendTag g tag) (PossibleParents tag)); reflexivity.
  - destruct (firstUnknownParent (appendTag g tag) (PossibleParents tag)); reflexivity.
Qed.

Lemma addCustomTag_error_grammar (g : Grammar) (tag : TagDefinition) (e : GrammarError) :
  snd (addCustomTag g tag) = Some e -> fst (addCustomTag g tag) = appendTag g tag.
Proof.
  unfold addCustomTag. fold (appendTag g tag).
  destruct (DefaultParent tag) as [dp|].
  - destruct (GetTag (appendTag g tag) dp); [|reflexivity].
    destruct (firstUnknownParent (appendTag g tag) (PossibleParents tag));
      [reflexivity|discriminate].
  - destruct (firstUnknownParent (appendTag g tag) (PossibleParents tag));
      [reflexivity|discriminate].
Qed.

(** C7: [addCustomTag] returns no error exactly when the default parent (if
    declared) and every possible parent resolve to a tag registered at the
    time of the check, that is to a tag of the grammar before the call or to
    the new tag itself; otherwise the error it returns is the GrammarError
    whose text names a declared parent that does not resolve (the default
    parent first, then the first unknown possible parent). *)
Theorem addCustomTag_validation (g : Grammar) (tag : TagDefinition) :
  (snd (addCustomTag g tag) = None <->
   forall p, p ∈ parentNames tag -> GetTag (appendTag g tag) p <> None) /\
  (forall e, snd (addCustomTag g tag) = Some e ->
     exists p, p ∈ parentNames tag /\ GetTag (appendTag g tag) p = None /\
       (GText e = "Unknown tag named " ++ p
                  ++ " is used as default parent for tag " ++ Name tag \/
        GText e = "Unknown tag named " ++ p
                  ++ " is used as possible parent for tag " ++ Name tag)) /\
  (forall p, GetTag (appendTag g tag) p <> None <-> GetTag g p <> None \/ p = Name tag).
Proof.
  rewrite addCustomTag_error. unfold parentNames.
  split; [|split; [|apply GetTag_appendTag_known]].
  - destruct (DefaultParent tag) as [dp|].
    + destruct (GetTag (appendTag g tag) dp) eqn:Hdp.
      * destruct (firstUnknownParent (appendTag g tag) (PossibleParents tag)) as [t|] eqn:Hf.
        -- split; [discriminate|]. intros H. exfalso.
           apply firstUnknownParent_Some in Hf. destruct Hf as [Hin Hn].
           apply (H t); [|exact Hn]. apply elem_of_cons. now right.
        -- split; [|reflexivity]. intros _ p Hp.
           apply elem_of_cons in Hp. destruct Hp as [->|Hp]; [congruence|].
           now apply (proj1 (firstUnknownParent_None _ _) Hf).
      * split; [discriminate|]. intros H. exfalso. apply (H dp); [|exact Hdp].
        apply elem_of_cons. now left.
    + destruct (firstUnknownParent (appendTag g tag) (PossibleParents tag)) as [t|] eqn:Hf.
      * split; [discriminate|]. intros H. exfalso.
        apply firstUnknownParent_Some in Hf. destruct Hf as [Hin Hn]. now apply (H t).
      * split; [|reflexivity]. intros _. now apply firstUnknownParent_None.
  - intros e. destruct (DefaultParent tag) as [dp|].
    + destruct (GetTag (appendTag g tag) dp) eqn:Hdp.
      * destruct (firstUnknownParent (appendTag g tag) (PossibleParents tag)) as [t|] eqn:Hf;
          [|discriminate].
        intros [= <-]. apply firstUnknownParent_Some in Hf. destruct Hf as [Hin Hn].
        exists t. split; [apply elem_of_cons; now right|]. split; [exact Hn|].
        right. reflexivity.
      * intros [= <-]. exists dp. split; [apply elem_of_cons; now left|].
        split; [exact Hdp|]. left. reflexivity.
    + destruct (firstUnknownParent (appendTag g tag) (PossibleParents tag)) as [t|] eqn:Hf;
        [|discriminate].
      intros [= <-]. apply firstUnknownParent_Some in Hf. destruct Hf as [Hin Hn].
      exists t. split; [exact Hin|]. split; [exact Hn|]. right. reflexivity.
Qed.

(** C10: [addCustomTag] is not atomic.  When it returns an error the grammar
    it leaves behind is the old one with the rejected tag appended, and a
    lookup of the tag's name returns the rejected tag; and a tag whose
    default parent is its own name passes the default-parent check even
    when no tag of that name was registered before, because the check runs
    on the grammar that already holds it. *)
Theorem addCustomTag_not_atomic (g : Grammar) (tag : TagDefinition) :
  (forall e, snd (addCustomTag g tag) = Some e ->
     Tags (fst (addCustomTag g tag)) = (Tags g ++ [tag])%list /\
     GetTag (fst (addCustomTag g tag)) (Name tag) = Some (length (Tags g)) /\
     Tags (fst (addCustomTag g tag)) !! length (Tags g) = Some tag) /\
  (DefaultParent tag = Some (Name tag) ->
     GetTag (appendTag g tag) (Name tag) = Some (length (Tags g)) /\
     snd (addCustomTag g tag) =
       match firstUnknownParent (appendTag g tag) (PossibleParents tag) with
       | Some t => Some (errUnknownPossibleParent t (Name tag))
       | None => None
       end /\
     ((forall p, p ∈ PossibleParents tag -> GetTag (appendTag g tag) p <> None) ->
      snd (addCustomTag g tag) = None)).
Proof.
  split.
  - intros e He. rewrite (addCustomTag_error_grammar g tag e He).
    split; [reflexivity|]. split; [apply GetTag_appendTag_self|].
    unfold appendTag. simpl. rewrite lookup_app_r by lia.
    now replace (length (Tags g) - length (Tags g)) with 0 by lia.
  - intros Hdp. split; [apply GetTag_appendTag_self|].
    rewrite addCustomTag_error, Hdp, GetTag_appendTag_self. split; [reflexivity|].
    intros H. apply firstUnknownParent_None in H. now rewrite H.
Qed.

(** A tag [#box] whose only parent is the unregistered [#nowhere] is
    rejected and stays in the grammar; a tag [#self] that names itself as
    parent is accepted although no [#self] existed before. *)
Definition boxTag : TagDefinition :=
  mkTag "#box" (Some "#nowhere") sectionNormal ["#nowhere"] "" [] "" ∅
        NoParentHood false false.

Definition selfTag : TagDefinition :=
  mkTag "#self" (Some "#self") sectionNormal ["#self"] "" [] "" ∅
        NoParentHood false false.

Lemma addCustomTag_rejected_stays :
  snd (addCustomTag NewGrammar boxTag)
    = Some (mkGrammarError
              "Unknown tag named #nowhere is used as default parent for tag #box") /\
  GetTag NewGrammar "#box" = None /\
  GetTag (fst (addCustomTag NewGrammar boxTag)) "#box" = Some 26%nat /\
  Tags (fst (addCustomTag NewGrammar boxTag)) !! 26%nat = Some boxTag.
Proof. repeat split; reflexivity. Qed.

Lemma addCustomTag_self_parent_accepted :
  GetTag NewGrammar "#self" = None /\
  snd (addCustomTag NewGrammar selfTag) = None.
Proof. split; reflexivity. Qed.

(** *** Default-root registration *)

Local Open Scope list_scope.

Lemma insert_snoc {A : Type} (l : list A) (x y : A) :
  <[length l := y]> (l ++ [x]) = l ++ [y].
Proof.
  rewrite insert_app_r_alt by lia.
  now replace (length l - length l) with 0 by lia.
Qed.

Lemma lookup_snoc_last {A : Type} (l : list A) (x : A) :
  (l ++ [x]) !! length l = Some x.
Proof.
  rewrite lookup_app_r by lia. now replace (length l - length l) with 0 by lia.
Qed.

Lemma currentDefaultRootName_app (g : Grammar) (ts : list TagDefinition) :
  Grammar_wf g ->
  currentDefaultRootName (set_Tags g (Tags g ++ ts)) = currentDefaultRootName g.
Proof.
  unfold Grammar_wf, currentDefaultRootName. simpl.
  destruct (currentDefaultRoot g) as [r|]; [|reflexivity].
  intros Hr. now rewrite lookup_app_l by lia.
Qed.

Lemma skipChild_rebased (root : option string) (self i : nat) (child : TagDefinition) :
  i <> self -> skipChild root self i child = negb (rebased root child).
Proof.
  intros Hne. unfold skipChild, rebased.
  apply Nat.eqb_neq in Hne. rewrite Hne.
  destruct (DefaultParent child) as [dp|]; [destruct root as [r|]|]; simpl;
    try destruct (String.eqb dp r); simpl;
    destruct (bool_decide (TagParentHood child = DefaultRootParentHood)); simpl;
    destruct (String.eqb (Name child) "#root"); reflexivity.
Qed.

(** The tag as [addCustomTag] stores it when it is accepted and is not a
    default root: block scope is allowed when it has no default parent, and
    the current default root, if any, becomes its default parent. *)
Lemma addCustomTag_plain (g : Grammar) (u : TagDefinition) (g1 : Grammar) :
  Grammar_wf g ->
  TagParentHood u <> DefaultRootParentHood ->
  addCustomTag g u = (g1, None) ->
  exists u', Tags g1 = (Tags g ++ [u'])%list /\ Name u' = Name u /\
    currentDefaultRoot g1 = currentDefaultRoot g /\
    (DefaultParent u = None -> Name u <> "#root" ->
     DefaultParent u' = currentDefaultRootName g) /\
    (DefaultParent u <> None -> DefaultParent u' = DefaultParent u).
Proof.
  intros Hwf Hph. unfold addCustomTag.
  destruct (match DefaultParent u with
            | Some dp => _ | None => None end) as [e|]; [discriminate|].
  destruct (firstUnknownParent _ _) as [t|]; [discriminate|].
  set (tag1 := if bool_decide (DefaultParent u = None) && negb (Name u =? "#root")
               then set_allowedInParentHood u true else u).
  assert (Hn1 : Name tag1 = Name u) by (unfold tag1; destruct (_ && _); reflexivity).
  assert (Hd1 : DefaultParent tag1 = DefaultParent u)
    by (unfold tag1; destruct (_ && _); reflexivity).
  assert (Hp1 : TagParentHood tag1 = TagParentHood u)
    by (unfold tag1; destruct (_ && _); reflexivity).
  simpl Tags. rewrite insert_snoc.
  rewrite bool_decide_eq_false_2 by (rewrite Hp1; exact Hph).
  change (set_Tags (set_Tags g (Tags g ++ [u])) (Tags g ++ [tag1]))
    with (set_Tags g (Tags g ++ [tag1])).
  rewrite currentDefaultRootName_app by exact Hwf.
  simpl Tags. rewrite lookup_snoc_last.
  destruct (currentDefaultRootName g) as [r|] eqn:Hr.
  - destruct (bool_decide (DefaultParent tag1 = None) && negb (Name tag1 =? "#root")) eqn:Hc.
    + intros [= <-]. exists (set_DefaultParent tag1 (Some r)). simpl.
      rewrite insert_snoc. repeat split; auto.
      intros Hnn. apply andb_prop in Hc. destruct Hc as [Hc _].
      apply bool_decide_eq_true in Hc. rewrite Hd1 in Hc. contradiction.
    + intros [= <-]. exists tag1. simpl. repeat split; auto.
      intros Hdn Hnr. exfalso. rewrite Hd1, Hn1 in Hc.
      rewrite bool_decide_eq_true_2 in Hc by exact Hdn.
      apply String.eqb_neq in Hnr. rewrite Hnr in Hc. discriminate.
  - intros [= <-]. exists tag1. simpl. repeat split; auto. congruence.
Qed.

Lemma addCustomTag_plain_wf (g : Grammar) (u : TagDefinition) (g1 : Grammar) :
  Grammar_wf g ->
  TagParentHood u <> DefaultRootParentHood ->
  addCustomTag g u = (g1, None) ->
  Grammar_wf g1 /\ currentDefaultRootName g1 = currentDefaultRootName g /\
  length (Tags g1) = S (length (Tags g)) /\
  (forall i t, Tags g !! i = Some t -> Tags g1 !! i = Some t).
Proof.
  intros Hwf Hph Hadd.
  destruct (addCustomTag_plain g u g1 Hwf Hph Hadd) as (u' & Ht & _ & Hr & _).
  assert (Hlen : length (Tags g1) = S (length (Tags g)))
    by (rewrite Ht, length_app; simpl; lia).
  split; [|split; [|split; [exact Hlen|]]].
  - unfold Grammar_wf in *. rewrite Hr. destruct (currentDefaultRoot g); [lia|exact I].
  - unfold currentDefaultRootName. rewrite Hr, Ht.
    unfold Grammar_wf in Hwf. destruct (currentDefaultRoot g); [|reflexivity].
    now rewrite lookup_app_l by lia.
  - intros i t Hi. rewrite Ht. rewrite lookup_app_l; [exact Hi|].
    now apply lookup_lt_Some in Hi.
Qed.

(** Later registrations of tags that are not default roots leave the
    registered tags as they are. *)
Lemma registered_keep (g : Grammar) (us : list TagDefinition) (g' : Grammar) :
  registered g us g' ->
  Grammar_wf g ->
  Forall (fun u => TagParentHood u <> DefaultRootParentHood) us ->
  forall i t, Tags g !! i = Some t -> Tags g' !! i = Some t.
Proof.
  intros Hreg.
  induction Hreg as [g|g u0 g1 us g2 Hadd Hreg IH]; intros Hwf Hall i t Hi; [exact Hi|].
  apply Forall_cons in Hall. destruct Hall as [Hu0 Hall].
  destruct (addCustomTag_plain_wf g u0 g1 Hwf Hu0 Hadd) as (Hwf1 & _ & _ & Hkeep).
  apply IH; auto.
Qed.

(** Later registrations of tags that are not default roots keep the
    current default root, and give it to every tag that declares none. *)
Lemma registered_inherit (g : Grammar) (us : list TagDefinition) (g' : Grammar)
    (r : string) :
  registered g us g' ->
  Grammar_wf g ->
  currentDefaultRootName g = Some r ->
  Forall (fun u => TagParentHood u <> DefaultRootParentHood) us ->
  forall k u, us !! k = Some u -> DefaultParent u = None -> Name u <> "#root" ->
    exists u', Tags g' !! (length (Tags g) + k) = Some u' /\
               Name u' = Name u /\ DefaultParent u' = Some r.
Proof.
  intros Hreg. revert r.
  induction Hreg as [g|g u0 g1 us g2 Hadd Hreg IH]; intros r Hwf Hr Hall k u Hk Hd Hn.
  - discriminate.
  - apply Forall_cons in Hall. destruct Hall as [Hu0 Hall].
    destruct (addCustomTag_plain_wf g u0 g1 Hwf Hu0 Hadd) as (Hwf1 & Hr1 & Hlen & Hkeep).
    destruct k as [|k]; simpl in Hk.
    + injection Hk as ->.
      destruct (addCustomTag_plain g u g1 Hwf Hu0 Hadd) as (u' & Ht & Hnu & _ & Hdp & _).
      exists u'. split; [|split; [exact Hnu|rewrite (Hdp Hd Hn); exact Hr]].
      replace (length (Tags g) + 0) with (length (Tags g)) by lia.
      apply (registered_keep g1 us g2 Hreg Hwf1 Hall).
      rewrite Ht. apply lookup_snoc_last.
    + rewrite Hr in Hr1.
      destruct (IH r Hwf1 Hr1 Hall k u Hk Hd Hn) as (u' & Hu' & Hnu & Hdu).
      exists u'. split; [|split; assumption].
      rewrite Hlen in Hu'.
      now replace (length (Tags g) + S k) with (S (length (Tags g)) + k) by lia.
Qed.

(** The definition a rebased tag is rewritten to: the new default root is
    its default parent and the head of its possible parents, every other
    field is as it was. *)
Definition rebasedTo (newname : string) (child : TagDefinition) : TagDefinition :=
  mkTag (Name child) (Some newname) (TagSectionMode child)
        (newname :: PossibleParents child) (Counter child) (ResetCounter child)
        (DefaultAttribute child) (ClassShortcuts child) (TagParentHood child)
        (FirstChild child) (allowedInParentHood child).


(** A default-root tag [#page] under the root, then a plain tag [#note]. *)
Definition pageTag : TagDefinition :=
  mkTag "#page" (Some "#root") sectionNormal ["#root"] "" [] "" ∅
        DefaultRootParentHood false false.

Definition noteTag : TagDefinition :=
  mkTag "#note" None sectionNormal [] "" [] "" ∅ TextParentHood false false.

Lemma NewGrammar_wf : Grammar_wf NewGrammar.
Proof. exact I. Qed.

(** A default root [#sheet] that declares no parent. *)
Definition sheetTag : TagDefinition :=
  mkTag "#sheet" None sectionNormal [] "" [] "" ∅ DefaultRootParentHood false false.



(** *** Further properties of the grammar registry *)

Lemma GetTag_loop_names (ts1 ts2 : list TagDefinition) (n : string) (i : nat) :
  Name <$> ts1 = Name <$> ts2 ->
  GetTag_loop ts1 n i = GetTag_loop ts2 n i.
Proof.
  intros Hn. induction i as [|i IH]; simpl; [reflexivity|].
  assert (H : Name <$> ts1 !! i = Name <$> ts2 !! i)
    by (rewrite <- !list_lookup_fmap; now rewrite Hn).
  destruct (ts1 !! i) as [t1|], (ts2 !! i) as [t2|]; simpl in H; try discriminate.
  - injection H as ->. now rewrite IH.
  - exact IH.
Qed.

Lemma GetTag_names (g1 g2 : Grammar) (n : string) :
  Name <$> Tags g1 = Name <$> Tags g2 -> GetTag g1 n = GetTag g2 n.
Proof.
  intros Hn. unfold GetTag.
  assert (Hl : length (Tags g1) = length (Tags g2))
    by (rewrite <- (length_fmap Name (Tags g1)), Hn; apply length_fmap).
  rewrite Hl. now apply GetTag_loop_names.
Qed.

Lemma keptField_Name : keptField Name.
Proof. repeat split. Qed.

Lemma keptField_ParentHood : keptField TagParentHood.
Proof. repeat split. Qed.

Lemma rebaseChild_kept {A : Type} (f : TagDefinition -> A) (root : option string)
    (self : nat) (newname : string) (i : nat) (child : TagDefinition) :
  keptField f -> f (rebaseChild root self newname i child) = f child.
Proof.
  intros (_ & Hd & Hp). unfold rebaseChild.
  destruct (skipChild root self i child); [reflexivity|]. now rewrite Hp, Hd.
Qed.

Lemma fmap_imap_kept {A : Type} (f : TagDefinition -> A)
    (h : nat -> TagDefinition -> TagDefinition) (l : list TagDefinition) :
  (forall i t, f (h i t) = f t) -> f <$> imap h l = f <$> l.
Proof.
  intros Hf. apply list_eq. intros i.
  rewrite !list_lookup_fmap, list_lookup_imap.
  destruct (l !! i) as [t|]; simpl; [f_equal; apply Hf|reflexivity].
Qed.

Lemma fmap_insert_kept {A : Type} (f : TagDefinition -> A) (l : list TagDefinition)
    (i : nat) (t x : TagDefinition) :
  l !! i = Some t -> f x = f t -> f <$> <[i := x]> l = f <$> l.
Proof.
  intros Hi Hx. rewrite list_fmap_insert. apply list_insert_id.
  rewrite list_lookup_fmap, Hi. simpl. now rewrite Hx.
Qed.

(** Whatever [addCustomTag] does to the definitions, a kept field reads,
    slot by slot, as before the call, and as declared for the new tag. *)
Lemma addCustomTag_kept {A : Type} (f : TagDefinition -> A) (g : Grammar)
    (tag : TagDefinition) :
  keptField f ->
  f <$> Tags (fst (addCustomTag g tag)) = (f <$> Tags g) ++ [f tag].
Proof.
  intros Hk. pose proof Hk as (Ha & Hd & Hp). unfold addCustomTag.
  destruct (match DefaultParent tag with
            | Some dp => _ | None => None end) as [e|];
    [simpl; now rewrite fmap_app|].
  destruct (firstUnknownParent _ _) as [t|]; [simpl; now rewrite fmap_app|].
  set (tag1 := if bool_decide (DefaultParent tag = None) && negb (Name tag =? "#root")
               then set_allowedInParentHood tag true else tag).
  assert (Hn1 : f tag1 = f tag)
    by (unfold tag1; destruct (_ && _); [apply Ha|reflexivity]).
  simpl Tags. rewrite insert_snoc.
  match goal with
  | |- context [if ?b then ?x else ?y] =>
      set (g3 := if b then x else y)
  end.
  assert (H3 : f <$> Tags g3 = (f <$> Tags g) ++ [f tag]).
  { unfold g3. destruct (bool_decide (TagParentHood tag1 = DefaultRootParentHood));
      cbn [Tags set_Tags set_currentDefaultRoot].
    - rewrite fmap_imap_kept by (intros; now apply rebaseChild_kept).
      rewrite fmap_app. cbn [fmap list_fmap]. now rewrite Hn1.
    - rewrite fmap_app. cbn [fmap list_fmap]. now rewrite Hn1. }
  simpl fst.
  destruct (currentDefaultRootName g3) as [r|]; [|exact H3].
  destruct (Tags g3 !! length (Tags g)) as [t|] eqn:Ht; [|exact H3].
  destruct (bool_decide (DefaultParent t = None) && negb (Name t =? "#root"));
    [|exact H3].
  cbn [Tags set_Tags]. rewrite (fmap_insert_kept f _ _ t); [exact H3|exact Ht|apply Hd].
Qed.

Lemma addCustomTag_names (g : Grammar) (tag : TagDefinition) :
  Name <$> Tags (fst (addCustomTag g tag)) = (Name <$> Tags g) ++ [Name tag].
Proof. apply addCustomTag_kept, keptField_Name. Qed.

(** X1.  A custom registration always shadows: after [addCustomTag], accepted
    or rejected, the name of the new tag resolves to the new tag, the last
    slot of the list, and every other name resolves as before. *)
Theorem addCustomTag_lookup (g : Grammar) (tag : TagDefinition) (n : string) :
  length (Tags (fst (addCustomTag g tag))) = S (length (Tags g)) /\
  GetTag (fst (addCustomTag g tag)) n =
    if String.eqb (Name tag) n then Some (length (Tags g)) else GetTag g n.
Proof.
  pose proof (addCustomTag_names g tag) as Hn.
  split.
  - rewrite <- (length_fmap Name), Hn, length_app, length_fmap. simpl. lia.
  - assert (H : GetTag (fst (addCustomTag g tag)) n = GetTag (appendTag g tag) n).
    { apply GetTag_names. rewrite Hn. unfold appendTag. simpl. now rewrite fmap_app. }
    rewrite H. destruct (String.eqb (Name tag) n) eqn:He.
    + apply String.eqb_eq in He. subst n. apply GetTag_appendTag_self.
    + apply String.eqb_neq in He. now apply GetTag_appendTag_other.
Qed.

(** X2.  A builtin registration never shadows: a name that resolved before
    resolves to the same tag afterwards, the name of the new tag resolves
    afterwards, and registering the same builtin twice is registering it
    once. *)
Theorem addBuiltinTag_lookup (g : Grammar) (tag : TagDefinition) (n : string) :
  GetTag (addBuiltinTag g tag) n =
    match GetTag g n with
    | Some i => Some i
    | None => if String.eqb (Name tag) n then Some (length (Tags g)) else None
    end /\
  addBuiltinTag (addBuiltinTag g tag) tag = addBuiltinTag g tag.
Proof.
  assert (H1 : forall m, GetTag (addBuiltinTag g tag) m =
    match GetTag g m with
    | Some i => Some i
    | None => if String.eqb (Name tag) m then Some (length (Tags g)) else None
    end).
  { intros m. unfold addBuiltinTag. destruct (GetTag g (Name tag)) as [j|] eqn:Hj.
    - destruct (GetTag g m) as [i|] eqn:Hm; [reflexivity|].
      destruct (String.eqb (Name tag) m) eqn:He; [|reflexivity].
      apply String.eqb_eq in He. congruence.
    - fold (appendTag g tag). destruct (String.eqb (Name tag) m) eqn:He.
      + apply String.eqb_eq in He. subst m. rewrite Hj. apply GetTag_appendTag_self.
      + apply String.eqb_neq in He. rewrite (GetTag_appendTag_other g tag m He).
        now destruct (GetTag g m). }
  split; [apply H1|].
  unfold addBuiltinTag at 1. rewrite (H1 (Name tag)).
  destruct (GetTag g (Name tag)); [reflexivity|]. now rewrite String.eqb_refl.
Qed.

Lemma addCustomTag_root (g : Grammar) (tag : TagDefinition) :
  currentDefaultRoot (fst (addCustomTag g tag)) =
    match snd (addCustomTag g tag) with
    | Some _ => currentDefaultRoot g
    | None => if bool_decide (TagParentHood tag = DefaultRootParentHood)
              then Some (length (Tags g)) else currentDefaultRoot g
    end.
Proof.
  unfold addCustomTag.
  destruct (match DefaultParent tag with
            | Some dp => _ | None => None end) as [e|]; [reflexivity|].
  destruct (firstUnknownParent _ _) as [t|]; [reflexivity|].
  set (tag1 := if bool_decide (DefaultParent tag = None) && negb (Name tag =? "#root")
               then set_allowedInParentHood tag true else tag).
  assert (Hp1 : TagParentHood tag1 = TagParentHood tag)
    by (unfold tag1; destruct (_ && _); reflexivity).
  rewrite Hp1. cbn [fst snd].
  match goal with
  | |- context [match currentDefaultRootName ?G with _ => _ end] => set (g3 := G)
  end.
  assert (H3 : currentDefaultRoot g3 =
               if bool_decide (TagParentHood tag = DefaultRootParentHood)
               then Some (length (Tags g)) else currentDefaultRoot g)
    by (unfold g3; destruct (bool_decide (TagParentHood tag = DefaultRootParentHood));
        reflexivity).
  destruct (currentDefaultRootName g3) as [r|]; [|exact H3].
  destruct (Tags g3 !! _) as [t|]; [|exact H3].
  destruct (bool_decide (DefaultParent t = None) && negb (Name t =? "#root")); exact H3.
Qed.

(** X3.  The current default root of a grammar is always a registered tag
    whose attachment mode is default-root: the builtin grammar has none, and
    [addCustomTag] keeps the property whether it accepts the tag or not. *)
Theorem addCustomTag_inv (g : Grammar) (tag : TagDefinition) :
  Grammar_inv g -> Grammar_inv (fst (addCustomTag g tag)).
Proof.
  intros Hinv. unfold Grammar_inv. rewrite addCustomTag_root.
  pose proof (addCustomTag_kept TagParentHood g tag keptField_ParentHood) as Hk.
  assert (Hold : forall r, (exists t, Tags g !! r = Some t /\
                              TagParentHood t = DefaultRootParentHood) ->
                 exists t, Tags (fst (addCustomTag g tag)) !! r = Some t /\
                           TagParentHood t = DefaultRootParentHood).
  { intros r (t & Ht & Hp).
    assert (H : TagParentHood <$> Tags (fst (addCustomTag g tag)) !! r
                = Some DefaultRootParentHood).
    { rewrite <- list_lookup_fmap, Hk, lookup_app_l
        by (rewrite length_fmap; now apply lookup_lt_Some in Ht).
      now rewrite list_lookup_fmap, Ht; simpl; rewrite Hp. }
    destruct (Tags (fst (addCustomTag g tag)) !! r) as [t'|]; [|discriminate].
    exists t'. split; [reflexivity|]. now injection H. }
  assert (Hnew : TagParentHood tag = DefaultRootParentHood ->
                 exists t, Tags (fst (addCustomTag g tag)) !! length (Tags g) = Some t /\
                           TagParentHood t = DefaultRootParentHood).
  { intros Hp.
    assert (H : TagParentHood <$> Tags (fst (addCustomTag g tag)) !! length (Tags g)
                = Some DefaultRootParentHood).
    { rewrite <- list_lookup_fmap, Hk, lookup_app_r by (rewrite length_fmap; lia).
      rewrite length_fmap. replace (length (Tags g) - length (Tags g)) with 0 by lia.
      simpl. now rewrite Hp. }
    destruct (Tags (fst (addCustomTag g tag)) !! length (Tags g)) as [t'|]; [|discriminate].
    exists t'. split; [reflexivity|]. now injection H. }
  unfold Grammar_inv in Hinv.
  destruct (snd (addCustomTag g tag)).
  - destruct (currentDefaultRoot g) as [r|]; [now apply Hold|exact I].
  - destruct (bool_decide (TagParentHood tag = DefaultRootParentHood)) eqn:Hb.
    + apply bool_decide_eq_true in Hb. now apply Hnew.
    + destruct (currentDefaultRoot g) as [r|]; [now apply Hold|exact I].
Qed.

Lemma NewGrammar_inv : Grammar_inv NewGrammar.
Proof. exact I. Qed.

Lemma addCustomTag_inv_witness :
  Grammar_inv (fst (addCustomTag (fst (addCustomTag NewGrammar pageTag)) boxTag)).
Proof.
  apply addCustomTag_inv. apply addCustomTag_inv. exact NewGrammar_inv.
Defined.

Lemma Grammar_inv_wf (g : Grammar) : Grammar_inv g -> Grammar_wf g.
Proof.
  unfold Grammar_inv, Grammar_wf. destruct (currentDefaultRoot g) as [r|]; [|auto].
  intros (t & Ht & _). now apply lookup_lt_Some in Ht.
Qed.

(** X4.  The definition under which an accepted tag is stored: its name,
    attachment mode and possible parents are the declared ones; it is usable
    in block scope when it was declared so or declares no default parent and
    is not [#root]; its default parent is the declared one, and for a tag that
    declares none (and is not [#root]) its own name when it is a default
    root, else the name of the current default root, if there is one. *)
Theorem addCustomTag_stored (g : Grammar) (tag : TagDefinition) (g' : Grammar) :
  Grammar_wf g ->
  addCustomTag g tag = (g', None) ->
  exists t, Tags g' !! length (Tags g) = Some t /\
    Name t = Name tag /\
    TagParentHood t = TagParentHood tag /\
    PossibleParents t = PossibleParents tag /\
    allowedInParentHood t =
      (allowedInParentHood tag
       || (bool_decide (DefaultParent tag = None) && negb (String.eqb (Name tag) "#root"))) /\
    DefaultParent t = storedDefaultParent g tag.
Proof.
  intros Hwf. unfold addCustomTag.
  destruct (match DefaultParent tag with
            | Some dp => _ | None => None end) as [e|]; [discriminate|].
  destruct (firstUnknownParent _ _) as [t|]; [discriminate|].
  set (c := bool_decide (DefaultParent tag = None) && negb (Name tag =? "#root")).
  set (tag1 := if c then set_allowedInParentHood tag true else tag).
  assert (Hn1 : Name tag1 = Name tag) by (unfold tag1; destruct c; reflexivity).
  assert (Hd1 : DefaultParent tag1 = DefaultParent tag)
    by (unfold tag1; destruct c; reflexivity).
  assert (Hp1 : TagParentHood tag1 = TagParentHood tag)
    by (unfold tag1; destruct c; reflexivity).
  assert (Hpp1 : PossibleParents tag1 = PossibleParents tag)
    by (unfold tag1; destruct c; reflexivity).
  assert (Ha1 : allowedInParentHood tag1 = allowedInParentHood tag || c)
    by (unfold tag1; destruct c; simpl;
        [now rewrite orb_true_r|now rewrite orb_false_r]).
  simpl Tags. rewrite insert_snoc.
  change (set_Tags (set_Tags g (Tags g ++ [tag])) (Tags g ++ [tag1]))
    with (set_Tags g (Tags g ++ [tag1])).
  rewrite currentDefaultRootName_app by exact Hwf.
  rewrite Hp1, Hn1.
  unfold storedDefaultParent.
  destruct (bool_decide (TagParentHood tag = DefaultRootParentHood)) eqn:Hb.
  - set (ts3 := imap (rebaseChild (currentDefaultRootName g) (length (Tags g)) (Name tag))
                     (Tags g ++ [tag1])).
    assert (Hself : ts3 !! length (Tags g) = Some tag1).
    { unfold ts3. rewrite list_lookup_imap, lookup_snoc_last. simpl.
      unfold rebaseChild, skipChild. rewrite Nat.eqb_refl.
      now rewrite orb_true_r. }
    match goal with
    | |- context [currentDefaultRootName ?G] =>
        assert (Hc3 : currentDefaultRootName G = Some (Name tag))
          by (unfold currentDefaultRootName; simpl; fold ts3; rewrite Hself;
              simpl; now rewrite Hn1);
        rewrite Hc3
    end.
    cbn [Tags set_Tags set_currentDefaultRoot]. fold ts3. rewrite Hself, Hd1, Hn1. fold c.
    destruct c eqn:Hc.
    + intros [= <-]. cbn [Tags set_Tags].
      exists (set_DefaultParent tag1 (Some (Name tag))).
      split; [apply list_lookup_insert_eq; unfold ts3;
              rewrite length_imap, length_app; simpl; lia|].
      cbn. repeat split; try assumption.
      apply andb_prop in Hc. destruct Hc as [Hc1 Hc2].
      apply bool_decide_eq_true in Hc1. rewrite Hc1.
      apply negb_true_iff in Hc2. now rewrite Hc2.
    + intros [= <-]. cbn [Tags set_Tags set_currentDefaultRoot]. fold ts3.
      exists tag1. split; [exact Hself|]. repeat split; try assumption.
      rewrite Hd1. destruct (DefaultParent tag) as [p|]; [reflexivity|].
      unfold c in Hc. rewrite bool_decide_eq_true_2 in Hc by reflexivity.
      simpl in Hc. apply negb_false_iff in Hc. now rewrite Hc.
  - rewrite currentDefaultRootName_app by exact Hwf.
    cbn [Tags set_Tags]. rewrite lookup_snoc_last, Hd1, Hn1. fold c.
    destruct (currentDefaultRootName g) as [r|] eqn:Hr.
    + destruct c eqn:Hc.
      * intros [= <-]. cbn [Tags set_Tags]. rewrite insert_snoc.
        exists (set_DefaultParent tag1 (Some r)).
        split; [apply lookup_snoc_last|]. cbn. repeat split; try assumption.
        apply andb_prop in Hc. destruct Hc as [Hc1 Hc2].
        apply bool_decide_eq_true in Hc1. rewrite Hc1.
        apply negb_true_iff in Hc2. now rewrite Hc2.
      * intros [= <-]. cbn [Tags set_Tags]. exists tag1.
        split; [apply lookup_snoc_last|]. repeat split; try assumption.
        rewrite Hd1. destruct (DefaultParent tag) as [p|]; [reflexivity|].
        unfold c in Hc. rewrite bool_decide_eq_true_2 in Hc by reflexivity.
        simpl in Hc. apply negb_false_iff in Hc. now rewrite Hc.
    + intros [= <-]. cbn [Tags set_Tags]. exists tag1.
      split; [apply lookup_snoc_last|]. repeat split; try assumption.
      rewrite Hd1. destruct (DefaultParent tag) as [p|]; [reflexivity|].
      now destruct (Name tag =? "#root").
Qed.

(** The default root [#sheet], which declares no parent, is stored with
    itself as default parent. *)
Lemma addCustomTag_stored_witness :
  exists t, Tags (fst (addCustomTag NewGrammar sheetTag)) !! length (Tags NewGrammar)
            = Some t /\
    Name t = "#sheet" /\
    TagParentHood t = DefaultRootParentHood /\
    PossibleParents t = [] /\
    allowedInParentHood t = true /\
    DefaultParent t = Some "#sheet".
Proof.
  exact (addCustomTag_stored NewGrammar sheetTag (fst (addCustomTag NewGrammar sheetTag))
           NewGrammar_wf eq_refl).
Defined.

(** *** Scanner: reading characters *)

Local Open Scope Z_scope.

Lemma DecodeRune_width (p : list Z) (r w : Z) :
  DecodeRune p = (r, w) -> 0 <= w <= Z.of_nat (length p) /\ (p <> [] -> 1 <= w).
Proof.
  unfold DecodeRune. destruct p as [|p0 rest]; [intros [= <- <-]; simpl; split; [lia|congruence]|].
  destruct (p0 <? 128); [intros [= <- <-]; simpl; split; lia|].
  destruct ((p0 <? 194) || (244 <? p0)); [intros [= <- <-]; simpl; split; lia|].
  destruct (p0 <? 224).
  { destruct rest as [|b1 rest]; [intros [= <- <-]; simpl; split; lia|].
    destruct (isCont b1); intros [= <- <-]; simpl; split; lia. }
  destruct (p0 <? 240).
  { destruct rest as [|b1 [|b2 rest]]; try (intros [= <- <-]; simpl; split; lia).
    destruct (_ && _); intros [= <- <-]; simpl; split; lia. }
  destruct rest as [|b1 [|b2 [|b3 rest]]]; try (intros [= <- <-]; simpl; split; lia).
  destruct (_ && _); intros [= <- <-]; simpl; split; lia.
Qed.

Lemma bytesOf_length (s : string) : length (bytesOf s) = String.length s.
Proof. induction s as [|c s IH]; simpl; [reflexivity|now rewrite IH]. Qed.

Lemma substring_length (s : string) (a n : nat) :
  (a + n <= String.length s)%nat -> String.length (String.substring a n s) = n.
Proof.
  revert a n. induction s as [|c s IH]; intros a n H; simpl in *.
  - destruct a, n; simpl; try reflexivity; lia.
  - destruct a as [|a].
    + destruct n as [|n]; simpl; [reflexivity|]. rewrite IH; [reflexivity|lia].
    + apply IH. lia.
Qed.

Lemma slice_rest_length (s : string) (a : Z) :
  0 <= a <= len s -> Z.of_nat (length (bytesOf (slice s a (len s)))) = len s - a.
Proof.
  intros H. rewrite bytesOf_length. unfold slice, len in *.
  rewrite substring_length; lia.
Qed.

Lemma byteAt_range (s : string) (i : Z) : 0 <= byteAt s i < 256.
Proof.
  unfold byteAt. destruct (i <? 0); [lia|].
  destruct (String.get (Z.to_nat i) s) as [c|]; [|lia].
  pose proof (nat_ascii_bounded c). lia.
Qed.

Lemma DecodeRune_rune (p : list Z) (r w : Z) :
  (forall b, In b p -> 0 <= b) -> DecodeRune p = (r, w) -> 0 <= r.
Proof.
  intros Hp. unfold DecodeRune, RuneError.
  destruct p as [|p0 rest]; [intros [= <- <-]; lia|].
  assert (H0 : 0 <= p0) by (apply Hp; now left).
  destruct (p0 <? 128); [intros [= <- <-]; lia|].
  destruct ((p0 <? 194) || (244 <? p0)); [intros [= <- <-]; lia|].
  destruct (p0 <? 224).
  { destruct rest as [|b1 rest]; [intros [= <- <-]; lia|].
    destruct (isCont b1); intros [= <- <-]; [|lia].
    apply Z.lor_nonneg. split; [apply Z.shiftl_nonneg|]; apply Z.land_nonneg; lia. }
  destruct (p0 <? 240).
  { destruct rest as [|b1 [|b2 rest]]; try (intros [= <- <-]; lia).
    destruct (_ && _); intros [= <- <-]; [|lia].
    repeat (apply Z.lor_nonneg; split); try apply Z.shiftl_nonneg;
      apply Z.land_nonneg; lia. }
  destruct rest as [|b1 [|b2 [|b3 rest]]]; try (intros [= <- <-]; lia).
  destruct (_ && _); intros [= <- <-]; [|lia].
  repeat (apply Z.lor_nonneg; split); try apply Z.shiftl_nonneg;
    apply Z.land_nonneg; lia.
Qed.

Lemma bytesOf_nonneg (s : string) (b : Z) : In b (bytesOf s) -> 0 <= b.
Proof.
  induction s as [|c s IH]; simpl; [tauto|]. intros [<-|H]; [lia|auto].
Qed.

(** What [next] does to each field, by cases on the byte it reads. *)
Lemma next_eof (s : Scanner) :
  len (src s) <= readOffset s ->
  ch (next s) = chEOF /\ offset (next s) = len (src s) /\
  readOffset (next s) = readOffset s /\ Errors (next s) = Errors s /\
  src (next s) = src s.
Proof.
  intros H. unfold next. rewrite (proj2 (Z.ltb_ge _ _) H).
  unfold advance. destruct (ch s =? chNL); simpl; auto.
Qed.

Lemma advance_fields (s : Scanner) (off : Z) :
  src (advance s off) = src s /\ readOffset (advance s off) = readOffset s /\
  Errors (advance s off) = Errors s /\ offset (advance s off) = off /\
  ch (advance s off) = ch s /\
  lineCount (advance s off) = (if ch s =? chNL then lineCount s + 1 else lineCount s) /\
  lineOffset (advance s off) = (if ch s =? chNL then off else lineOffset s) /\
  mode (advance s off) = mode s /\ layout (advance s off) = layout s /\
  nextMode (advance s off) = nextMode s /\ indent (advance s off) = indent s.
Proof. unfold advance. destruct (ch s =? chNL); simpl; repeat split. Qed.

(** X5.  [next] on a byte of the source: the character read starts at the
    old read offset; a NUL byte, and a byte sequence that is not valid
    UTF-8, append exactly one error carrying the line, the column and the
    byte offset of that character (after a newline the line is the next one
    and the column is 0, else the line is the current one and the column is
    the distance from the start of the line), and the scanner reads on (the
    character becomes NUL, respectively U+FFFD, and the read offset moves one
    byte); any other character records nothing. *)
Theorem next_errors (s : Scanner) :
  readOffset s < len (src s) ->
  let b := byteAt (src s) (readOffset s) in
  let rest := bytesOf (slice (src s) (readOffset s) (len (src s))) in
  let line := if ch s =? chNL then lineCount s + 1 else lineCount s in
  let col := if ch s =? chNL then 0 else readOffset s - lineOffset s in
  let here := mkRange line col (readOffset s) (readOffset s) in
  offset (next s) = readOffset s /\
  (b = 0 ->
     Errors (next s) = (Errors s ++ [mkScannerError here "illegal character NUL"])%list /\
     ch (next s) = 0 /\ readOffset (next s) = readOffset s + 1) /\
  (128 <= b -> DecodeRune rest = (RuneError, 1) ->
     Errors (next s) = (Errors s ++ [mkScannerError here "illegal UTF-8 encoding"])%list /\
     ch (next s) = RuneError /\ readOffset (next s) = readOffset s + 1) /\
  (b <> 0 -> (b < 128 \/ DecodeRune rest <> (RuneError, 1)) ->
     Errors (next s) = Errors s).
Proof.
  intros Hlt. cbv zeta. unfold next. rewrite (proj2 (Z.ltb_lt _ _) Hlt).
  destruct (advance_fields s (readOffset s))
    as (Hsrc & Hro & Herr & Hoff & Hch & Hlc & Hlo & _).
  set (s1 := advance s (readOffset s)) in *.
  assert (Hhere : mkRange (lineCount s1) (offset s1 - lineOffset s1) (offset s1) (offset s1)
                  = mkRange (if ch s =? chNL then lineCount s + 1 else lineCount s)
                            (if ch s =? chNL then 0 else readOffset s - lineOffset s)
                            (readOffset s) (readOffset s)).
  { rewrite Hlc, Hlo, Hoff. destruct (ch s =? chNL); [now rewrite Z.sub_diag|reflexivity]. }
  rewrite Hsrc, Hro.
  set (b := byteAt (src s) (readOffset s)).
  set (rest := bytesOf (slice (src s) (readOffset s) (len (src s)))).
  destruct (b =? 0) eqn:Hb0.
  { apply Z.eqb_eq in Hb0. unfold error, set_read. cbn [Errors ch readOffset offset].
    rewrite Hhere, Herr, Hoff, Hro.
    split; [reflexivity|]. split; [intros _; now rewrite Hb0|].
    split; [intros H; lia|]. intros H; contradiction. }
  apply Z.eqb_neq in Hb0.
  destruct (128 <=? b) eqn:Hb128.
  - apply Z.leb_le in Hb128. destruct (DecodeRune rest) as [r' w] eqn:Hd.
    destruct ((r' =? RuneError) && (w =? 1)) eqn:Hbad.
    + apply andb_prop in Hbad. destruct Hbad as [Hr Hw].
      apply Z.eqb_eq in Hr. apply Z.eqb_eq in Hw. subst r' w.
      unfold error, set_read. cbn [Errors ch readOffset offset].
      rewrite Hhere, Herr, Hoff, Hro.
      split; [reflexivity|]. split; [intros H; contradiction|].
      split; [intros _ _; auto|]. intros _ [H|H]; [lia|congruence].
    + simpl. rewrite Herr, Hoff.
      split; [reflexivity|]. split; [intros H; contradiction|].
      split; [|reflexivity]. intros _ [= -> ->]. discriminate.
  - apply Z.leb_gt in Hb128. simpl. rewrite Herr, Hoff.
    split; [reflexivity|]. split; [intros H; contradiction|].
    split; [intros H; lia|reflexivity].
Qed.

(** A source whose first byte is NUL, one whose first byte is 0xFF, one with
    a NUL at the start of its second line and one with the byte 0xFF in the
    third column of its first line. *)
Definition nulInput : string := String (ascii_of_nat 0) "x".
Definition badInput : string := String (ascii_of_nat 255) "x".
Definition nulLine2 : string :=
  String (ascii_of_nat 10) (String (ascii_of_nat 0) "x").
Definition badCol2 : string :=
  String "a" (String "b" (String (ascii_of_nat 255) "x")).

Lemma next_errors_witness :
  (Errors (next (NewScanner nulInput))
     = [mkScannerError (mkRange 0 0 0 0) "illegal character NUL"] /\
   ch (next (NewScanner nulInput)) = 0 /\
   readOffset (next (NewScanner nulInput)) = 1) /\
  (Errors (next (NewScanner badInput))
     = [mkScannerError (mkRange 0 0 0 0) "illegal UTF-8 encoding"] /\
   ch (next (NewScanner badInput)) = RuneError /\
   readOffset (next (NewScanner badInput)) = 1) /\
  (Errors (next (next (NewScanner nulLine2)))
     = [mkScannerError (mkRange 1 0 1 1) "illegal character NUL"] /\
   ch (next (next (NewScanner nulLine2))) = 0 /\
   readOffset (next (next (NewScanner nulLine2))) = 2) /\
  (Errors (next (next (next (NewScanner badCol2))))
     = [mkScannerError (mkRange 0 2 2 2) "illegal UTF-8 encoding"] /\
   ch (next (next (next (NewScanner badCol2)))) = RuneError /\
   readOffset (next (next (next (NewScanner badCol2)))) = 3).
Proof.
  split; [|split; [|split]].
  - exact (proj1 (proj2 (next_errors (NewScanner nulInput) eq_refl)) eq_refl).
  - exact (proj1 (proj2 (proj2 (next_errors (NewScanner badInput) eq_refl)))
             ltac:(vm_compute; discriminate) eq_refl).
  - exact (proj1 (proj2 (next_errors (next (NewScanner nulLine2)) eq_refl)) eq_refl).
  - exact (proj1 (proj2 (proj2 (next_errors (next (next (NewScanner badCol2))) eq_refl)))
             ltac:(vm_compute; discriminate) eq_refl).
Defined.

(** *** Scanner: what a state keeps *)

Lemma steps_reads (s s' : Scanner) : steps s s' -> reads s s'.
Proof.
  induction 1 as [s|s1 s2 s3 _ IH1 _ IH2|s|s m|s m|s t|s i].
  - split; [reflexivity|]. split; [exists []; now rewrite app_nil_r|lia].
  - destruct IH1 as (Hs1 & (l1 & He1) & Hr1), IH2 as (Hs2 & (l2 & He2) & Hr2).
    split; [congruence|]. split; [|lia].
    exists (l1 ++ l2)%list. rewrite He2, He1. now rewrite app_assoc.
  - unfold next. destruct (advance_fields s (readOffset s))
      as (Hsrc & Hro & Herr & _).
    destruct (advance_fields s (len (src s))) as (Hsrc' & Hro' & Herr' & _).
    destruct (readOffset s <? len (src s)).
    + set (s1 := advance s (readOffset s)) in *.
      destruct (byteAt (src s1) (readOffset s1) =? 0).
      { split; [exact Hsrc|]. split; [|simpl; lia].
        eexists. simpl. now rewrite Herr. }
      destruct (128 <=? byteAt (src s1) (readOffset s1)).
      * destruct (DecodeRune _) as [r' w] eqn:Hd.
        apply DecodeRune_width in Hd. destruct Hd as [Hw _].
        destruct ((r' =? RuneError) && (w =? 1)).
        -- split; [exact Hsrc|]. split; [|simpl; lia].
           eexists. simpl. now rewrite Herr.
        -- split; [exact Hsrc|]. split; [|simpl; lia].
           exists []. simpl. now rewrite Herr, app_nil_r.
      * split; [exact Hsrc|]. split; [|simpl; lia].
        exists []. simpl. now rewrite Herr, app_nil_r.
    + split; [exact Hsrc'|]. split; [|simpl; lia].
      exists []. simpl. now rewrite Herr', app_nil_r.
  - split; [reflexivity|]. split; [exists []; simpl; now rewrite app_nil_r|simpl; lia].
  - split; [reflexivity|]. split; [exists []; simpl; now rewrite app_nil_r|simpl; lia].
  - split; [reflexivity|]. split; [exists []; simpl; now rewrite app_nil_r|simpl; lia].
  - split; [reflexivity|]. split; [exists []; simpl; now rewrite app_nil_r|simpl; lia].
Qed.

Lemma steps_skipWhitespace_loop (n : nat) (nl : bool) (s : Scanner) :
  steps s (skipWhitespace_loop n nl s).
Proof.
  revert s. induction n as [|n IH]; intros s; simpl; [apply steps_refl|].
  destruct (_ || _); [|apply steps_refl].
  eapply steps_trans; [apply steps_next|apply IH].
Qed.

Lemma steps_skipWhitespace (nl : bool) (s : Scanner) : steps s (skipWhitespace nl s).
Proof. apply steps_skipWhitespace_loop. Qed.


Lemma steps_skipUntilEmptyLine_loop (n : nat) (s : Scanner) :
  steps s (skipUntilEmptyLine_loop n s).
Proof.
  revert s. induction n as [|n IH]; intros s; simpl; [apply steps_refl|].
  destruct (ch s =? chEOF); [apply steps_refl|].
  destruct (ch s =? chNL).
  - destruct (ch (skipWhitespace false (next s)) =? chNL).
    + eapply steps_trans; [apply steps_next|].
      eapply steps_trans; [apply steps_skipWhitespace|apply steps_next].
    + eapply steps_trans; [apply steps_next|].
      eapply steps_trans; [apply steps_skipWhitespace|].
      eapply steps_trans; [apply steps_next|apply IH].
  - eapply steps_trans; [apply steps_next|apply IH].
Qed.

Lemma steps_skipUntilEmptyLine (s : Scanner) : steps s (skipUntilEmptyLine s).
Proof. apply steps_skipUntilEmptyLine_loop. Qed.

Lemma steps_skipIndented (s : Scanner) : steps s (skipIndented s).
Proof.
  unfold skipIndented. generalize (fuel s) as n. intros n.
  revert s. induction n as [|n IH]; intros s; simpl; [apply steps_refl|].
  destruct (_ && _); [|apply steps_refl].
  eapply steps_trans; [apply steps_next|apply IH].
Qed.

Lemma steps_skipLine_loop (n : nat) (s : Scanner) : steps s (skipLine_loop n s).
Proof.
  revert s. induction n as [|n IH]; intros s; simpl; [apply steps_refl|].
  destruct (_ && _); [|apply steps_refl].
  eapply steps_trans; [apply steps_next|apply IH].
Qed.

Lemma steps_skipTagName_loop (n : nat) (s : Scanner) : steps s (skipTagName_loop n s).
Proof.
  revert s. induction n as [|n IH]; intros s; simpl; [apply steps_refl|].
  destruct (_ && _); [|apply steps_refl].
  eapply steps_trans; [apply steps_next|apply IH].
Qed.

Lemma steps_skipPipes_loop (n : nat) (s : Scanner) : steps s (skipPipes_loop n s).
Proof.
  revert s. induction n as [|n IH]; intros s; simpl; [apply steps_refl|].
  destruct (ch s =? chPipe); [|apply steps_refl].
  eapply steps_trans; [apply steps_next|apply IH].
Qed.

Lemma steps_skipEntityName_loop (n : nat) (s : Scanner) :
  steps s (skipEntityName_loop n s).
Proof.
  revert s. induction n as [|n IH]; intros s; simpl; [apply steps_refl|].
  destruct (_ && _); [|apply steps_refl].
  eapply steps_trans; [apply steps_next|apply IH].
Qed.

Lemma steps_scanCode_loop (n : nat) (s : Scanner) (start : Z) (str : string) :
  steps s (fst (fst (scanCode_loop n s start str))).
Proof.
  revert s start str. induction n as [|n IH]; intros s start str; simpl;
    [apply steps_refl|].
  destruct (_ && _); [|apply steps_refl].
  destruct (ch s =? chBackslash).
  - destruct (ch (next s) =? chBacktick).
    + eapply steps_trans; [apply steps_next|].
      eapply steps_trans; [apply steps_next|].
      eapply steps_trans; [apply steps_next|apply IH].
    + eapply steps_trans; [apply steps_next|].
      eapply steps_trans; [apply steps_next|apply IH].
  - eapply steps_trans; [apply steps_next|apply IH].
Qed.

Lemma steps_scanMath_loop (n : nat) (s : Scanner) (start : Z) (str : string) :
  steps s (fst (fst (scanMath_loop n s start str))).
Proof.
  revert s start str. induction n as [|n IH]; intros s start str; simpl;
    [apply steps_refl|].
  destruct (_ && _); [|apply steps_refl].
  destruct (ch s =? chBackslash).
  - destruct (ch (next s) =? chDollar).
    + eapply steps_trans; [apply steps_next|].
      eapply steps_trans; [apply steps_next|].
      eapply steps_trans; [apply steps_next|apply IH].
    + eapply steps_trans; [apply steps_next|].
      eapply steps_trans; [apply steps_next|apply IH].
  - eapply steps_trans; [apply steps_next|apply IH].
Qed.

Lemma steps_scanValue_loop (n : nat) (s : Scanner) (start : Z) (result : string) :
  steps s (fst (fst (scanValue_loop n s start result))).
Proof.
  revert s start result. induction n as [|n IH]; intros s start result; simpl;
    [apply steps_refl|].
  destruct (_ && _); [|apply steps_refl].
  destruct (ch s =? chBackslash).
  - eapply steps_trans; [apply steps_next|].
    eapply steps_trans; [apply steps_next|apply IH].
  - eapply steps_trans; [apply steps_next|apply IH].
Qed.

Lemma steps_scanText_loop (n : nat) (s : Scanner) (start : Z) (result : string)
    (newline colon : bool) :
  steps s (fst (fst (fst (fst (scanText_loop n s start result newline colon))))).
Proof.
  revert s start result newline colon.
  induction n as [|n IH]; intros s start result newline colon; simpl;
    [apply steps_refl|].
  destruct (_ && _ && _ && _ && _); [|apply steps_refl].
  destruct (newline && (ch s =? chNL)).
  { simpl. eapply steps_trans; [apply steps_next|apply steps_set_mode]. }
  destruct ((ch s =? chCR) || (ch s =? chNL) || newline && isBlank (ch s)).
  { eapply steps_trans; [apply steps_next|apply IH]. }
  destruct (ch s =? chColon).
  { eapply steps_trans; [apply steps_next|apply IH]. }
  destruct (ch s =? chBackslash).
  { eapply steps_trans; [apply steps_next|].
    eapply steps_trans; [apply steps_next|apply IH]. }
  destruct (_ && _ && _); eapply steps_trans; try apply steps_next; apply IH.
Qed.

Lemma steps_scanTail (again : Scanner -> (Token * string) * Scanner) (s : Scanner) :
  (forall s0, steps s0 (snd (again s0))) -> steps s (snd (scanTail again s)).
Proof.
  intros Hag. unfold scanTail.
  assert (Hval : steps s (snd (
      let '(s1, start1, result) := scanValue_loop (fuel s) s (offset s) "" in
      let s2 := if ch s1 =? chSemicolon then s1 else set_mode s1 (nextMode s1) in
      let str := (result ++ slice (src s2) start1 (offset s2))%string in
      let s3 := next s2 in
      if (String.length str =? 0)%nat then again s3 else ((TokenValue, str), s3)))).
  { pose proof (steps_scanValue_loop (fuel s) s (offset s) "") as H.
    destruct (scanValue_loop (fuel s) s (offset s) "") as [[s1 start1] result].
    simpl in H. cbv zeta.
    assert (H2 : steps s (next (if ch s1 =? chSemicolon then s1
                                else set_mode s1 (nextMode s1)))).
    { eapply steps_trans; [exact H|]. destruct (ch s1 =? chSemicolon).
      - apply steps_next.
      - eapply steps_trans; [apply steps_set_mode|apply steps_next]. }
    destruct (String.length _ =? 0)%nat; [|exact H2].
    eapply steps_trans; [exact H2|apply Hag]. }
  assert (Htext : forall s0 nl, steps s s0 -> steps s (snd (
      let '(s1, start1, result, newline1, colon) :=
        scanText_loop (fuel s0) s0 (offset s) "" nl false in
      let result1 := (result ++ slice (src s1) start1 (offset s1))%string in
      if newline1 && isTagStart (ch s1) then
        ((TokenText, result1), set_mode s1 modeNewTag)
      else if colon && bool_decide (layout s1 = textParagraph) && (ch s1 =? chNL) then
        ((TokenText, TrimRight_ws result1),
         set_layout (set_mode (skipWhitespace true s1) modeNewTag) textNormal)
      else ((TokenText, result1), s1)))).
  { intros s0 nl H0.
    pose proof (steps_scanText_loop (fuel s0) s0 (offset s) "" nl false) as H.
    destruct (scanText_loop (fuel s0) s0 (offset s) "" nl false)
      as [[[[s1 start1] result] newline1] colon].
    simpl in H. cbv zeta.
    assert (H1 : steps s s1) by (eapply steps_trans; eassumption).
    destruct (newline1 && isTagStart (ch s1)).
    { simpl. eapply steps_trans; [exact H1|apply steps_set_mode]. }
    destruct (colon && bool_decide (layout s1 = textParagraph) && (ch s1 =? chNL));
      [|exact H1].
    simpl. eapply steps_trans; [exact H1|].
    eapply steps_trans; [apply steps_skipWhitespace|].
    eapply steps_trans; [apply steps_set_mode|apply steps_set_layout]. }
  destruct (mode s); try exact Hval.
  - (* modeNormal *)
    destruct (ch s =? chNL).
    + destruct (ch (skipWhitespace false (next s)) =? chNL).
      * assert (H2 : steps s (skipWhitespace true (skipWhitespace false (next s)))).
        { eapply steps_trans; [apply steps_next|].
          eapply steps_trans; apply steps_skipWhitespace. }
        destruct (isTagStart _).
        -- eapply steps_trans; [exact H2|].
           eapply steps_trans; [apply steps_set_mode|apply Hag].
        -- simpl. eapply steps_trans; [exact H2|apply steps_set_indent].
      * apply Htext. eapply steps_trans; [apply steps_next|apply steps_skipWhitespace].
    + apply Htext. apply steps_refl.
  - (* modeNewTag *)
    simpl. eapply steps_trans; [apply steps_set_mode|apply steps_set_indent].
  - (* modeInjectSection *)
    destruct (ch s =? chNL).
    + destruct (ch (skipWhitespace false (next s)) =? chNL).
      * assert (H2 : steps s (skipWhitespace true (skipWhitespace false (next s)))).
        { eapply steps_trans; [apply steps_next|].
          eapply steps_trans; apply steps_skipWhitespace. }
        destruct (isTagStart _).
        -- eapply steps_trans; [exact H2|].
           eapply steps_trans; [apply steps_set_mode|apply Hag].
        -- simpl. eapply steps_trans; [exact H2|apply steps_set_indent].
      * apply Htext. eapply steps_trans; [apply steps_next|apply steps_skipWhitespace].
    + apply Htext. apply steps_refl.
  - (* modeConfig *)
    destruct (ch s =? chNL).
    + destruct (ch (skipWhitespace false (next s)) =? chNL).
      * assert (H2 : steps s (skipWhitespace true (skipWhitespace false (next s)))).
        { eapply steps_trans; [apply steps_next|].
          eapply steps_trans; apply steps_skipWhitespace. }
        destruct (isTagStart _).
        -- eapply steps_trans; [exact H2|].
           eapply steps_trans; [apply steps_set_mode|apply Hag].
        -- simpl. eapply steps_trans; [exact H2|apply steps_set_indent].
      * apply Htext. eapply steps_trans; [apply steps_next|apply steps_skipWhitespace].
    + apply Htext. apply steps_refl.
Qed.

(** [rdchain]: peels a scanner state built by nested calls down to the
    state it started from. *)
Ltac rdchain :=
  repeat first
    [ apply steps_refl
    | match goal with
      | |- steps ?s (if ?b then _ else _) => destruct b
      | |- steps ?s (next ?x) => apply (steps_trans s x); [|apply steps_next]
      | |- steps ?s (set_mode ?x _) => apply (steps_trans s x); [|apply steps_set_mode]
      | |- steps ?s (set_nextMode ?x _) =>
          apply (steps_trans s x); [|apply steps_set_nextMode]
      | |- steps ?s (set_layout ?x _) => apply (steps_trans s x); [|apply steps_set_layout]
      | |- steps ?s (set_indent ?x _) => apply (steps_trans s x); [|apply steps_set_indent]
      | |- steps ?s (skipWhitespace _ ?x) =>
          apply (steps_trans s x); [|apply steps_skipWhitespace]
      | |- steps ?s (skipLine_loop _ ?x) =>
          apply (steps_trans s x); [|apply steps_skipLine_loop]
      | |- steps ?s (skipTagName_loop _ ?x) =>
          apply (steps_trans s x); [|apply steps_skipTagName_loop]
      | |- steps ?s (skipPipes_loop _ ?x) =>
          apply (steps_trans s x); [|apply steps_skipPipes_loop]
      | |- steps ?s (skipEntityName_loop _ ?x) =>
          apply (steps_trans s x); [|apply steps_skipEntityName_loop]
      | |- steps ?s (skipIndented ?x) =>
          apply (steps_trans s x); [|apply steps_skipIndented]
      | |- steps ?s (skipUntilEmptyLine ?x) =>
          apply (steps_trans s x); [|apply steps_skipUntilEmptyLine]
      end ].

Lemma steps_scanAgain (n : nat) (s : Scanner) : steps s (snd (scanAgain n s)).
Proof.
  revert s. induction n as [|n IH]; intros s; [apply steps_refl|].
  cbn [scanAgain]. cbv zeta.
  repeat match goal with
  | |- steps _ (snd (if ?b then _ else _)) => destruct b
  end;
  try (cbn [snd]; rdchain; fail);
  try (match goal with
       | |- steps ?s (snd (scanAgain n ?x)) =>
           apply (steps_trans s x); [rdchain|apply IH]
       end; fail).
  - (* inline code *)
    pose proof (steps_scanCode_loop (fuel (next s)) (next s) (offset (next s)) "") as H.
    destruct (scanCode_loop _ _ _ _) as [[s2 start] str]. cbn [fst snd] in *.
    apply (steps_trans s s2); [|rdchain].
    eapply steps_trans; [apply steps_next|exact H].
  - (* inline math *)
    pose proof (steps_scanMath_loop (fuel (next s)) (next s) (offset (next s)) "") as H.
    destruct (scanMath_loop _ _ _ _) as [[s2 start] str]. cbn [fst snd] in *.
    apply (steps_trans s s2); [|rdchain].
    eapply steps_trans; [apply steps_next|exact H].
  - apply steps_scanTail. exact IH.
Qed.

Lemma steps_scan (s : Scanner) : steps s (snd (scan s)).
Proof.
  unfold scan.
  repeat match goal with
  | |- steps _ (snd (if ?b then _ else _)) => destruct b
  end; try (cbn [snd]; rdchain; fail).
  cbv zeta.
  match goal with
  | |- steps ?s (snd (scanAgain _ ?x)) =>
      apply (steps_trans s x); [rdchain|apply steps_scanAgain]
  end.
Qed.

Lemma steps_Scan (s : Scanner) : steps s (snd (Scan s)).
Proof.
  unfold Scan. pose proof (steps_scan s) as H.
  destruct (scan s) as [[t str] s1]. exact H.
Qed.

(** X6.  [Scan] reads forward on the same source: it never changes the
    source, never moves the read offset back, and only appends to the list
    of errors, so the first recorded error stays the first for the rest of
    the scan. *)
Theorem Scan_reads (s : Scanner) :
  src (snd (Scan s)) = src s /\
  (readOffset s <= readOffset (snd (Scan s))) /\
  (exists l, Errors (snd (Scan s)) = (Errors s ++ l)%list) /\
  (forall e, head (Errors s) = Some e -> head (Errors (snd (Scan s))) = Some e).
Proof.
  destruct (steps_reads s (snd (Scan s)) (steps_Scan s)) as (Hsrc & (l & He) & Hro).
  split; [exact Hsrc|]. split; [exact Hro|]. split; [exists l; exact He|].
  intros e Hh. rewrite He. destruct (Errors s); [discriminate|exact Hh].
Qed.

(** *** Scanner: offsets stay inside the source *)

Lemma next_ok (s : Scanner) : Scanner_ok s -> Scanner_ok (next s).
Proof.
  unfold Scanner_ok. intros (H1 & H2 & H3 & H4 & H5 & H6 & H7).
  unfold next.
  destruct (advance_fields s (readOffset s))
    as (Hsrc & Hro & Herr & Hoff & Hch & Hlc & Hlo & _).
  destruct (advance_fields s (len (src s)))
    as (Hsrc' & Hro' & Herr' & Hoff' & Hch' & Hlc' & Hlo' & _).
  destruct (readOffset s <? len (src s)) eqn:Hlt.
  - apply Z.ltb_lt in Hlt.
    set (s1 := advance s (readOffset s)) in *.
    assert (Hlo1 : 0 <= lineOffset s1 <= readOffset s)
      by (rewrite Hlo; destruct (ch s =? chNL); lia).
    assert (Hlc1 : 0 <= lineCount s1) by (rewrite Hlc; destruct (ch s =? chNL); lia).
    pose proof (byteAt_range (src s1) (readOffset s1)) as Hb.
    assert (Hfin : forall r w (e : list ScannerError), 0 <= r -> 1 <= w ->
              readOffset s + w <= len (src s) ->
              let s' := mkScanner (src s1) (mode s1) (nextMode s1) (layout s1) r
                          (offset s1) (readOffset s1 + w) (lineOffset s1)
                          (lineCount s1) (indent s1) e in
              0 <= lineOffset s' /\ lineOffset s' <= offset s' /\
              offset s' <= readOffset s' /\ readOffset s' <= len (src s') /\
              0 <= lineCount s' /\ -1 <= ch s' /\
              (ch s' = chEOF -> len (src s') <= readOffset s')).
    { intros r w e Hr Hw Hle. simpl. rewrite Hsrc, Hoff, Hro. unfold chEOF.
      repeat split; lia. }
    destruct (byteAt (src s1) (readOffset s1) =? 0) eqn:Hz.
    { apply Z.eqb_eq in Hz. rewrite Hz. apply Hfin; lia. }
    destruct (128 <=? byteAt (src s1) (readOffset s1)).
    + destruct (DecodeRune _) as [r' w] eqn:Hd.
      pose proof (DecodeRune_width _ _ _ Hd) as [Hw Hw1].
      pose proof (DecodeRune_rune _ _ _ (bytesOf_nonneg _) Hd) as Hr.
      rewrite Hsrc, Hro, slice_rest_length in Hw by lia.
      assert (1 <= w).
      { apply Hw1. intros Hnil.
        pose proof (slice_rest_length (src s1) (readOffset s1)) as Hl.
        rewrite Hnil, Hsrc, Hro in Hl. simpl in Hl. lia. }
      destruct ((r' =? RuneError) && (w =? 1)); apply Hfin; lia.
    + apply Hfin; lia.
  - apply Z.ltb_ge in Hlt. simpl. rewrite Hsrc', Hoff', Hro', Hlo', Hlc'. unfold chEOF.
    destruct (ch s =? chNL); repeat split; lia.
Qed.

Lemma steps_ok (s s' : Scanner) : steps s s' -> Scanner_ok s -> Scanner_ok s'.
Proof.
  induction 1 as [s|s1 s2 s3 _ IH1 _ IH2|s|s m|s m|s t|s i]; intros Hok; auto.
  now apply next_ok.
Qed.

Lemma NewScanner_ok (markdown : string) : Scanner_ok (NewScanner markdown).
Proof. unfold Scanner_ok, NewScanner, len, chEOF. simpl. lia. Qed.

(** X7.  The scanner never leaves its source: when the line offset, the
    offset and the read offset are ordered and inside the source, they are so
    after [Scan]; the end-of-file character [-1] is current only once the
    read offset has reached the end of the source. *)
Theorem Scan_ok (s : Scanner) : Scanner_ok s -> Scanner_ok (snd (Scan s)).
Proof. apply steps_ok, steps_Scan. Qed.

Lemma Scan_ok_witness : Scanner_ok (snd (Scan (NewScanner "- a"))).
Proof. apply Scan_ok. apply NewScanner_ok. Defined.

(** *** Scanner: every loop ends before its fuel *)

Lemma next_read (s : Scanner) :
  Scanner_ok s -> readOffset s < len (src s) ->
  readOffset s < readOffset (next s) /\ 0 <= ch (next s).
Proof.
  intros Hok Hlt. pose proof (next_ok s Hok) as Hok'.
  unfold next in *. rewrite (proj2 (Z.ltb_lt _ _) Hlt) in *.
  destruct (advance_fields s (readOffset s))
    as (Hsrc & Hro & Herr & Hoff & Hch & Hlc & Hlo & _).
  set (s1 := advance s (readOffset s)) in *.
  pose proof (byteAt_range (src s1) (readOffset s1)) as Hb.
  destruct (byteAt (src s1) (readOffset s1) =? 0) eqn:Hz.
  { simpl. apply Z.eqb_eq in Hz. lia. }
  destruct (128 <=? byteAt (src s1) (readOffset s1)).
  - destruct (DecodeRune _) as [r' w] eqn:Hd.
    pose proof (DecodeRune_width _ _ _ Hd) as [Hw Hw1].
    pose proof (DecodeRune_rune _ _ _ (bytesOf_nonneg _) Hd) as Hr.
    assert (1 <= w).
    { apply Hw1. intros Hnil.
      pose proof (slice_rest_length (src s1) (readOffset s1)) as Hl.
      rewrite Hnil, Hsrc, Hro in Hl. simpl in Hl.
      destruct Hok as (? & ? & ? & ? & _). lia. }
    destruct ((r' =? RuneError) && (w =? 1)); simpl; lia.
  - simpl. lia.
Qed.

Lemma remaining_next (s : Scanner) :
  Scanner_ok s ->
  (remaining (next s) <= remaining s)%nat /\
  (ch s <> chEOF -> (remaining (next s) < remaining s)%nat).
Proof.
  intros Hok. pose proof Hok as (H1 & H2 & H3 & H4 & H5 & H6 & H7).
  destruct (steps_reads s (next s) (steps_next s)) as (Hsrc & _ & _).
  unfold remaining. rewrite Hsrc.
  destruct (Z.lt_ge_cases (readOffset s) (len (src s))) as [Hlt|Hge].
  - destruct (next_read s Hok Hlt) as [Hro Hch].
    assert (Hn : ch s <> chEOF) by (intros He; apply H7 in He; lia).
    apply Z.eqb_neq in Hn. rewrite Hn.
    assert (Hn' : ch (next s) <> chEOF) by (unfold chEOF; lia).
    apply Z.eqb_neq in Hn'. rewrite Hn'. split; intros; lia.
  - destruct (next_eof s Hge) as (Hch & _ & Hro & _). rewrite Hch, Hro, Z.eqb_refl.
    split; [lia|]. intros Hn. apply Z.eqb_neq in Hn. rewrite Hn. lia.
Qed.

Lemma steps_remaining (s s' : Scanner) :
  steps s s' -> Scanner_ok s -> (remaining s' <= remaining s)%nat.
Proof.
  induction 1 as [s|s1 s2 s3 H12 IH1 H23 IH2|s|s m|s m|s t|s i]; intros Hok;
    try reflexivity.
  - specialize (IH1 Hok). specialize (IH2 (steps_ok _ _ H12 Hok)). lia.
  - now apply remaining_next.
Qed.

Lemma advanced_remaining (s x : Scanner) :
  Scanner_ok s -> ch s <> chEOF -> advanced s x ->
  (remaining x < remaining s)%nat /\ Scanner_ok x.
Proof.
  intros Hok Hch (y & Hsy & Hyx).
  pose proof (steps_ok _ _ Hsy Hok) as Hoky.
  pose proof (next_ok _ Hoky) as Hokn.
  split; [|now apply (steps_ok _ _ Hyx)].
  pose proof (steps_remaining _ _ Hsy Hok) as H1.
  pose proof (steps_remaining _ _ Hyx Hokn) as H2.
  destruct (remaining_next y Hoky) as [H3 H4].
  destruct (Z.eq_dec (ch y) chEOF) as [He|Hne]; [|specialize (H4 Hne); lia].
  assert (remaining y < remaining s)%nat; [|lia].
  destruct (steps_reads _ _ Hsy) as (Hsrc & _ & Hro).
  unfold remaining. rewrite Hsrc, He, Z.eqb_refl.
  apply Z.eqb_neq in Hch. rewrite Hch. lia.
Qed.

Lemma fuel_remaining (s : Scanner) : (remaining s < fuel s)%nat.
Proof. unfold remaining, fuel. destruct (ch s =? chEOF); lia. Qed.

(** A loop of the form [for cond { next() }], where [cond] implies that the
    end of the file is not reached, leaves because [cond] fails. *)
Lemma loop_exit (loop : nat -> Scanner -> Scanner) (cond : Scanner -> bool) :
  (forall s, loop O s = s) ->
  (forall n s, loop (S n) s = if cond s then loop n (next s) else s) ->
  (forall s, cond s = true -> ch s <> chEOF) ->
  forall n s, Scanner_ok s -> (remaining s < n)%nat -> cond (loop n s) = false.
Proof.
  intros H0 HS Hc. induction n as [|n IH]; intros s Hok Hn; [lia|].
  rewrite HS. destruct (cond s) eqn:Hcs; [|exact Hcs].
  apply IH; [now apply next_ok|].
  destruct (remaining_next s Hok) as [_ H]. specialize (H (Hc s Hcs)). lia.
Qed.

(** X8.  [skipWhitespace] stops on a character that is not white space:
    after it the current character is neither a blank, a tab nor a carriage
    return, and not a newline when newlines are skipped too; the offsets
    stay inside the source. *)
Theorem skipWhitespace_stops (newline : bool) (s : Scanner) :
  Scanner_ok s ->
  let s' := skipWhitespace newline s in
  Scanner_ok s' /\ steps s s' /\
  ch s' <> chSpace /\ ch s' <> chTab /\ ch s' <> chCR /\
  (newline = true -> ch s' <> chNL).
Proof.
  intros Hok. cbv zeta.
  split; [apply (steps_ok s); [apply steps_skipWhitespace|exact Hok]|].
  split; [apply steps_skipWhitespace|].
  pose proof (loop_exit (fun n => skipWhitespace_loop n newline)
    (fun s => (ch s =? chSpace) || (ch s =? chTab) || (newline && (ch s =? chNL))
              || (ch s =? chCR))
    (fun _ => eq_refl) (fun _ _ => eq_refl)) as H.
  assert (Hc : forall s0, (ch s0 =? chSpace) || (ch s0 =? chTab)
                 || (newline && (ch s0 =? chNL)) || (ch s0 =? chCR) = true ->
               ch s0 <> chEOF).
  { intros s0 Hs0 He. rewrite He in Hs0. destruct newline; discriminate. }
  specialize (H Hc (fuel s) s Hok (fuel_remaining s)). cbv beta in H.
  fold (skipWhitespace newline s) in H.
  apply orb_false_elim in H. destruct H as [H Hcr].
  apply orb_false_elim in H. destruct H as [H Hnl].
  apply orb_false_elim in H. destruct H as [Hsp Htab].
  apply Z.eqb_neq in Hsp, Htab, Hcr.
  repeat split; try assumption.
  intros ->. simpl in Hnl. now apply Z.eqb_neq in Hnl.
Qed.

Lemma skipWhitespace_stops_witness :
  let s' := skipWhitespace true (next (NewScanner "  x")) in
  Scanner_ok s' /\ steps (next (NewScanner "  x")) s' /\
  ch s' <> chSpace /\ ch s' <> chTab /\ ch s' <> chCR /\
  (true = true -> ch s' <> chNL).
Proof.
  apply (skipWhitespace_stops true (next (NewScanner "  x"))).
  apply next_ok, NewScanner_ok.
Defined.

(** *** Scanner: the end-of-file token *)

Lemma advanced_next (s y : Scanner) : steps s y -> advanced s (next y).
Proof. intros H. exists y. split; [exact H|apply steps_refl]. Qed.

Lemma advanced_step (s x x' : Scanner) : advanced s x -> steps x x' -> advanced s x'.
Proof.
  intros (y & H1 & H2) H3. exists y. split; [exact H1|].
  eapply steps_trans; eassumption.
Qed.

(** [advtac]: proves [advanced s x] for a state [x] built from [s] by nested
    calls, one of them [next]. *)
Ltac advtac :=
  repeat first
    [ match goal with
      | |- advanced ?s (if ?b then _ else _) => destruct b
      | |- advanced ?s (next ?y) => apply advanced_next; solve [rdchain]
      | |- advanced ?s (set_mode ?x _) =>
          apply (advanced_step s x); [|apply steps_set_mode]
      | |- advanced ?s (set_nextMode ?x _) =>
          apply (advanced_step s x); [|apply steps_set_nextMode]
      | |- advanced ?s (set_layout ?x _) =>
          apply (advanced_step s x); [|apply steps_set_layout]
      | |- advanced ?s (set_indent ?x _) =>
          apply (advanced_step s x); [|apply steps_set_indent]
      | |- advanced ?s (skipWhitespace _ ?x) =>
          apply (advanced_step s x); [|apply steps_skipWhitespace]
      | |- advanced ?s (skipLine_loop _ ?x) =>
          apply (advanced_step s x); [|apply steps_skipLine_loop]
      end ].

Lemma scanTail_eof (again : Scanner -> (Token * string) * Scanner) (s : Scanner) :
  (forall x, advanced s x -> fst (fst (again x)) = TokenEOF ->
             ch (snd (again x)) = chEOF) ->
  fst (fst (scanTail again s)) = TokenEOF ->
  ch (snd (scanTail again s)) = chEOF.
Proof.
  intros Hag. unfold scanTail.
  assert (Hval :
    let r := (let '(s1, start1, result) := scanValue_loop (fuel s) s (offset s) "" in
      let s2 := if ch s1 =? chSemicolon then s1 else set_mode s1 (nextMode s1) in
      let str := (result ++ slice (src s2) start1 (offset s2))%string in
      let s3 := next s2 in
      if (String.length str =? 0)%nat then again s3 else ((TokenValue, str), s3)) in
    fst (fst r) = TokenEOF -> ch (snd r) = chEOF).
  { pose proof (steps_scanValue_loop (fuel s) s (offset s) "") as H.
    destruct (scanValue_loop (fuel s) s (offset s) "") as [[s1 start1] result].
    simpl in H. cbv zeta.
    destruct (String.length _ =? 0)%nat; [|discriminate].
    apply Hag. apply advanced_next.
    destruct (ch s1 =? chSemicolon); [exact H|].
    eapply steps_trans; [exact H|apply steps_set_mode]. }
  assert (Htext : forall s0 nl,
    let r := (let '(s1, start1, result, newline1, colon) :=
        scanText_loop (fuel s0) s0 (offset s) "" nl false in
      let result1 := (result ++ slice (src s1) start1 (offset s1))%string in
      if newline1 && isTagStart (ch s1) then
        ((TokenText, result1), set_mode s1 modeNewTag)
      else if colon && bool_decide (layout s1 = textParagraph) && (ch s1 =? chNL) then
        ((TokenText, TrimRight_ws result1),
         set_layout (set_mode (skipWhitespace true s1) modeNewTag) textNormal)
      else ((TokenText, result1), s1)) in
    fst (fst r) = TokenEOF -> ch (snd r) = chEOF).
  { intros s0 nl.
    destruct (scanText_loop (fuel s0) s0 (offset s) "" nl false)
      as [[[[s1 start1] result] newline1] colon]. cbv zeta.
    destruct (newline1 && isTagStart (ch s1)); [discriminate|].
    destruct (colon && bool_decide (layout s1 = textParagraph) && (ch s1 =? chNL));
      discriminate. }
  assert (Hdef :
    let newline := lineOffset s =? offset s in
    let r := (if ch s =? chNL then
        let s1 := skipWhitespace false (next s) in
        if ch s1 =? chNL then
          let s2 := skipWhitespace true s1 in
          if isTagStart (ch s2) then again (set_mode s2 modeNewTag)
          else ((TokenSection, "#p"), set_indent s2 (offset s2 - lineOffset s2))
        else
          (let '(s1', start1, result, newline1, colon) :=
             scanText_loop (fuel s1) s1 (offset s) "" true false in
           let result1 := (result ++ slice (src s1') start1 (offset s1'))%string in
           if newline1 && isTagStart (ch s1') then
             ((TokenText, result1), set_mode s1' modeNewTag)
           else if colon && bool_decide (layout s1' = textParagraph) && (ch s1' =? chNL) then
             ((TokenText, TrimRight_ws result1),
              set_layout (set_mode (skipWhitespace true s1') modeNewTag) textNormal)
           else ((TokenText, result1), s1'))
      else
        (let '(s1', start1, result, newline1, colon) :=
           scanText_loop (fuel s) s (offset s) "" newline false in
         let result1 := (result ++ slice (src s1') start1 (offset s1'))%string in
         if newline1 && isTagStart (ch s1') then
           ((TokenText, result1), set_mode s1' modeNewTag)
         else if colon && bool_decide (layout s1' = textParagraph) && (ch s1' =? chNL) then
           ((TokenText, TrimRight_ws result1),
            set_layout (set_mode (skipWhitespace true s1') modeNewTag) textNormal)
         else ((TokenText, result1), s1'))) in
    fst (fst r) = TokenEOF -> ch (snd r) = chEOF).
  { cbv zeta. destruct (ch s =? chNL); [|apply Htext].
    destruct (ch (skipWhitespace false (next s)) =? chNL); [|apply Htext].
    destruct (isTagStart _); [|discriminate].
    apply Hag. advtac. }
  destruct (mode s); try exact Hval; try exact Hdef. discriminate.
Qed.

Lemma scanAgain_eof (n : nat) (s : Scanner) :
  Scanner_ok s -> (remaining s < n)%nat ->
  fst (fst (scanAgain n s)) = TokenEOF -> ch (snd (scanAgain n s)) = chEOF.
Proof.
  revert s. induction n as [|n IH]; intros s Hok Hn; [lia|].
  cbn [scanAgain]. cbv zeta.
  destruct (ch s =? chEOF) eqn:Heof; [intros _; now apply Z.eqb_eq in Heof|].
  apply Z.eqb_neq in Heof.
  assert (Hadv : forall x, advanced s x -> fst (fst (scanAgain n x)) = TokenEOF ->
                           ch (snd (scanAgain n x)) = chEOF).
  { intros x Hx. destruct (advanced_remaining s x Hok Heof Hx) as [Hr Hokx].
    apply IH; [exact Hokx|lia]. }
  repeat match goal with
  | |- fst (fst (if ?b then _ else _)) = _ -> _ => destruct b
  end;
  try discriminate;
  try (apply Hadv; advtac; fail).
  - destruct (scanCode_loop _ _ _ _) as [[s2 start] str]. discriminate.
  - destruct (scanMath_loop _ _ _ _) as [[s2 start] str]. discriminate.
  - apply scanTail_eof. exact Hadv.
Qed.

Lemma Scan_eof_ch (s : Scanner) :
  Scanner_ok s ->
  snd (fst (fst (Scan s))) = TokenEOF -> ch (snd (Scan s)) = chEOF.
Proof.
  intros Hok. unfold Scan.
  assert (H : fst (fst (scan s)) = TokenEOF -> ch (snd (scan s)) = chEOF).
  { unfold scan.
    repeat match goal with
    | |- fst (fst (if ?b then _ else _)) = _ -> _ => destruct b
    end; try discriminate.
    cbv zeta. apply scanAgain_eof; [|apply fuel_remaining].
    apply (steps_ok s); [rdchain|exact Hok]. }
  destruct (scan s) as [[t str] s1]. exact H.
Qed.

(** X9.  [Scan] answers the end-of-file token only at the end of the
    source: when it returns [TokenEOF] the current character is [-1] and
    every byte of the source has been read. *)
Theorem Scan_eof (s : Scanner) :
  Scanner_ok s ->
  snd (fst (fst (Scan s))) = TokenEOF ->
  ch (snd (Scan s)) = chEOF /\ readOffset (snd (Scan s)) = len (src s).
Proof.
  intros Hok Ht.
  pose proof (steps_ok _ _ (steps_Scan s) Hok) as Hok'.
  destruct (steps_reads _ _ (steps_Scan s)) as (Hsrc & _ & _).
  pose proof (Scan_eof_ch s Hok Ht) as Hch.
  split; [exact Hch|].
  destruct Hok' as (_ & _ & _ & H4 & _ & _ & H7). specialize (H7 Hch).
  rewrite Hsrc in *. lia.
Qed.

Lemma Scan_eof_witness :
  (ch (snd (Scan (NewScanner "  "))) = chEOF /\
   readOffset (snd (Scan (NewScanner "  "))) = len "  ") /\
  (let s1 := snd (Scan (snd (Scan (NewScanner "#a b")))) in
   ch (snd (Scan s1)) = chEOF /\ readOffset (snd (Scan s1)) = len "#a b").
Proof.
  split.
  - apply (Scan_eof (NewScanner "  ")); [apply NewScanner_ok|reflexivity].
  - apply (Scan_eof (snd (Scan (snd (Scan (NewScanner "#a b")))))).
    + apply (steps_ok (NewScanner "#a b")); [|apply NewScanner_ok].
      eapply steps_trans; apply steps_Scan.
    + vm_compute. reflexivity.
Defined.

(** *** Scanner: NUL bytes are recorded *)

Lemma byteAt_nth (s : string) (i : Z) :
  0 <= i -> byteAt s i = nth (Z.to_nat i) (bytesOf s) 0.
Proof.
  intros Hi. unfold byteAt. rewrite (proj2 (Z.ltb_ge _ _) Hi).
  generalize (Z.to_nat i) as n. clear i Hi.
  induction s as [|c s IH]; intros n; simpl; [now destruct n|].
  destruct n as [|n]; simpl; [reflexivity|apply IH].
Qed.

Lemma bytesOf_substring (s : string) (a n : nat) :
  bytesOf (String.substring a n s) = take n (drop a (bytesOf s)).
Proof.
  revert a n. induction s as [|c s IH]; intros a n; simpl.
  - destruct a, n; reflexivity.
  - destruct a as [|a].
    + destruct n as [|n]; simpl; [reflexivity|]. f_equal. apply (IH O n).
    + simpl. apply IH.
Qed.

Lemma byteAt_rest (s : string) (a j : Z) :
  0 <= a -> 0 <= j -> a + j < len s ->
  nth (Z.to_nat j) (bytesOf (slice s a (len s))) 0 = byteAt s (a + j).
Proof.
  intros Ha Hj Hlt. rewrite byteAt_nth by lia. unfold slice.
  rewrite bytesOf_substring.
  assert (Hl : length (bytesOf s) = Z.to_nat (len s))
    by (rewrite bytesOf_length; unfold len; lia).
  rewrite !nth_lookup, lookup_take_lt, lookup_drop by lia.
  do 2 f_equal. lia.
Qed.

Lemma DecodeRune_tail (p : list Z) (r w : Z) :
  DecodeRune p = (r, w) ->
  forall j, (1 <= j)%nat -> Z.of_nat j < w -> 128 <= nth j p 0.
Proof.
  unfold DecodeRune. destruct p as [|p0 rest]; [intros [= <- <-]; lia|].
  destruct (p0 <? 128); [intros [= <- <-]; lia|].
  destruct ((p0 <? 194) || (244 <? p0)); [intros [= <- <-]; lia|].
  destruct (p0 <? 224).
  { destruct rest as [|b1 rest]; [intros [= <- <-]; lia|].
    destruct (isCont b1) eqn:H1; intros [= <- <-]; [|lia].
    intros j Hj Hw. assert (j = 1%nat) as -> by lia. simpl.
    unfold isCont in H1. lia. }
  destruct (p0 <? 240).
  { destruct rest as [|b1 [|b2 rest]]; try (intros [= <- <-]; lia).
    destruct (_ && _) eqn:H1; intros [= <- <-]; [|lia].
    apply andb_prop in H1. destruct H1 as [H1 H2].
    apply andb_prop in H1. destruct H1 as [H1 H1'].
    unfold isCont in H2. intros j Hj Hw.
    assert (j = 1 \/ j = 2)%nat as [-> | ->] by lia; simpl;
      destruct (p0 =? 224); lia. }
  destruct rest as [|b1 [|b2 [|b3 rest]]]; try (intros [= <- <-]; lia).
  destruct (_ && _) eqn:H1; intros [= <- <-]; [|lia].
  apply andb_prop in H1. destruct H1 as [H1 H3].
  apply andb_prop in H1. destruct H1 as [H1 H2].
  apply andb_prop in H1. destruct H1 as [H1 H1'].
  unfold isCont in H2, H3. intros j Hj Hw.
  assert (j = 1 \/ j = 2 \/ j = 3)%nat as [-> | [-> | ->]] by lia; simpl;
    destruct (p0 =? 240); lia.
Qed.

Lemma next_nul (s : Scanner) :
  readOffset s < len (src s) -> byteAt (src s) (readOffset s) = 0 ->
  exists e, In e (Errors (next s)) /\ From (Pos e) = readOffset s /\
            To (Pos e) = readOffset s /\ ErrText e = "illegal character NUL".
Proof.
  intros Hlt Hb. unfold next. rewrite (proj2 (Z.ltb_lt _ _) Hlt).
  destruct (advance_fields s (readOffset s)) as (Hsrc & Hro & _ & Hoff & _).
  rewrite Hsrc, Hro, Hb. simpl.
  eexists. split; [apply in_or_app; right; left; reflexivity|].
  simpl. rewrite Hoff. auto.
Qed.

Lemma next_nulsRecorded (s : Scanner) :
  Scanner_ok s -> nulsRecorded s -> nulsRecorded (next s).
Proof.
  intros Hok Hrec k Hk Hz.
  destruct (steps_reads s (next s) (steps_next s)) as (Hsrc & (l & Hl) & Hro).
  rewrite Hsrc in Hz.
  destruct (Z.lt_ge_cases k (readOffset s)) as [Hold|Hnew].
  { destruct (Hrec k ltac:(lia) Hz) as (e & He & H).
    exists e. split; [|exact H]. rewrite Hl. apply in_or_app. now left. }
  pose proof Hok as (H1 & H2 & H3 & H4 & H5 & H6 & H7).
  destruct (Z.lt_ge_cases (readOffset s) (len (src s))) as [Hlt|Hge];
    [|destruct (next_eof s Hge) as (_ & _ & Hro' & _); lia].
  assert (Hkey : k = readOffset s /\ byteAt (src s) (readOffset s) = 0).
  { destruct (Z.eq_dec k (readOffset s)) as [->|Hne]; [auto|]. exfalso.
    revert Hk. unfold next. rewrite (proj2 (Z.ltb_lt _ _) Hlt).
    destruct (advance_fields s (readOffset s)) as (Hsrc1 & Hro1 & _).
    set (s1 := advance s (readOffset s)) in *.
    pose proof (byteAt_range (src s1) (readOffset s1)) as Hb.
    destruct (byteAt (src s1) (readOffset s1) =? 0); [simpl; lia|].
    destruct (128 <=? byteAt (src s1) (readOffset s1)); [|simpl; lia].
    destruct (DecodeRune _) as [r' w] eqn:Hd.
    assert (Hk' : k < readOffset s + w -> False).
    { intros Hkw.
      pose proof (DecodeRune_tail _ _ _ Hd (Z.to_nat (k - readOffset s))
                    ltac:(lia) ltac:(lia)) as Ht.
      pose proof (DecodeRune_width _ _ _ Hd) as [Hw _].
      rewrite Hsrc1, Hro1 in Ht, Hw. rewrite slice_rest_length in Hw by lia.
      rewrite byteAt_rest in Ht by lia.
      replace (readOffset s + (k - readOffset s)) with k in Ht by lia. lia. }
    destruct ((r' =? RuneError) && (w =? 1)); simpl; rewrite Hro1; lia. }
  destruct Hkey as [-> Hb]. exact (next_nul s Hlt Hb).
Qed.

Lemma steps_nulsRecorded (s s' : Scanner) :
  steps s s' -> Scanner_ok s -> nulsRecorded s -> nulsRecorded s'.
Proof.
  induction 1 as [s|s1 s2 s3 H12 IH1 H23 IH2|s|s m|s m|s t|s i]; intros Hok Hrec; auto.
  - apply IH2; [now apply (steps_ok s1)|now apply IH1].
  - now apply next_nulsRecorded.
Qed.

(** X10.  No NUL byte escapes the scanner: if every NUL byte read so far has
    its error, then when [Scan] returns the end-of-file token every NUL byte
    of the whole source has an error in the list, carrying the byte's offset
    and the text "illegal character NUL". *)
Theorem Scan_nuls (s : Scanner) :
  Scanner_ok s -> nulsRecorded s ->
  nulsRecorded (snd (Scan s)) /\
  (snd (fst (fst (Scan s))) = TokenEOF ->
   forall k, 0 <= k < len (src s) -> byteAt (src s) k = 0 ->
     exists e, In e (Errors (snd (Scan s))) /\ From (Pos e) = k /\ To (Pos e) = k /\
               ErrText e = "illegal character NUL").
Proof.
  intros Hok Hrec.
  pose proof (steps_nulsRecorded _ _ (steps_Scan s) Hok Hrec) as Hrec'.
  split; [exact Hrec'|]. intros Ht k Hk Hz.
  pose proof (Scan_eof_ch s Hok Ht) as Hch.
  destruct (steps_reads _ _ (steps_Scan s)) as (Hsrc & _ & _).
  destruct (steps_ok _ _ (steps_Scan s) Hok) as (_ & _ & _ & H4 & _ & _ & H7).
  specialize (H7 Hch). rewrite Hsrc in H7.
  apply Hrec'; [lia|now rewrite Hsrc].
Qed.

Lemma NewScanner_nulsRecorded (markdown : string) : nulsRecorded (NewScanner markdown).
Proof. intros k Hk. simpl in Hk. lia. Qed.

Lemma Scan_nuls_witness :
  nulsRecorded (snd (Scan (NewScanner nulInput))).
Proof.
  exact (proj1 (Scan_nuls (NewScanner nulInput) (NewScanner_ok nulInput)
                  (NewScanner_nulsRecorded nulInput))).
Defined.

(** ** Document tree: [appendChild] and [RemoveChild] *)

Local Close Scope Z_scope.

(** C9.  [RemoveChild] takes the child out of the parent's [Children] and
    clears the child's [Parent], and leaves every sibling link as it was.
    After removing the middle one of three children built by [appendChild],
    the first child still has the removed node as its next sibling, the third
    still has it as its previous sibling, and the removed node still points
    at both.  In [parse] the same happens to the paragraph that the rewrite
    of a term detaches: after parsing a headline followed by [term:], the
    detached paragraph (node 2) has no parent and is a child of no node, and
    keeps the headline (node 1) as its previous sibling. *)
Theorem RemoveChild_keeps_sibling_links :
  (links threeChildren 0 = Some (None, None, None, [1; 2; 3]) /\
   links threeChildren 1 = Some (Some 0, None, Some 2, []) /\
   links threeChildren 2 = Some (Some 0, Some 1, Some 3, []) /\
   links threeChildren 3 = Some (Some 0, Some 2, None, [])) /\
  (links (RemoveChild threeChildren 0 2) 0 = Some (None, None, None, [1; 3]) /\
   links (RemoveChild threeChildren 0 2) 1 = Some (Some 0, None, Some 2, []) /\
   links (RemoveChild threeChildren 0 2) 2 = Some (None, Some 1, Some 3, []) /\
   links (RemoveChild threeChildren 0 2) 3 = Some (Some 0, Some 2, None, [])) /\
  (exists st, parse plainExternals 10 (NewParser NewGrammar termInput) = Ok 0 st /\
     Tag <$> docs st !! 2 = Some "#p" /\
     links (docs st) 2 = Some (None, Some 1, None, []) /\
     links (docs st) 1 = Some (Some 0, None, Some 4, []) /\
     links (docs st) 0 = Some (None, None, None, [1; 4])).
Proof.
  split; [|split].
  - vm_compute. repeat split.
  - vm_compute. repeat split.
  - eexists. split; [vm_compute; reflexivity|]. vm_compute. repeat split.
Qed.

(** ** Parser: relations that every step respects *)

Lemma follows_ret {A : Type} (E : Prop) (R : Parser -> Parser -> Prop) (a : A) :
  AtomicClose R -> follows E R (ret a).
Proof. intros HC st. apply (a_refl R HC). Qed.

Lemma follows_get (E : Prop) (R : Parser -> Parser -> Prop) : AtomicClose R -> follows E R get.
Proof. intros HC st. apply (a_refl R HC). Qed.

Lemma follows_panic {A : Type} (E : Prop) (R : Parser -> Parser -> Prop) : follows E R (@panic A).
Proof. intros st. exact I. Qed.

Lemma follows_outOfFuel {A : Type} (E : Prop) (R : Parser -> Parser -> Prop) :
  follows E R (@outOfFuel A).
Proof. intros st. exact I. Qed.

Lemma follows_fail {A : Type} (E : Prop) (R : Parser -> Parser -> Prop) (e : ParseError) :
  E -> AtomicClose R -> follows E R (@fail A e).
Proof. intros HE HC st. split; [apply (a_refl R HC)|exact HE]. Qed.

Lemma follows_some {A : Type} (E : Prop) (R : Parser -> Parser -> Prop) (x : option A) :
  AtomicClose R -> follows E R (some x).
Proof. intros HC. destruct x; [now apply follows_ret|apply follows_panic]. Qed.

Lemma follows_bind {A B : Type} (E : Prop) (R : Parser -> Parser -> Prop) (m : M A) (k : A -> M B) :
  AtomicClose R ->
  follows E R m -> (forall a, follows E R (k a)) -> follows E R (bind m k).
Proof.
  intros HC Hm Hk st. unfold bind. specialize (Hm st).
  destruct (m st) as [a st1|e st1| |]; [|exact Hm|exact I|exact I].
  specialize (Hk a st1).
  destruct (k a st1) as [b st2|e st2| |]; [| |exact I|exact I].
  - exact (a_trans R HC _ _ _ Hm Hk).
  - destruct Hk as [Hk HE]. split; [exact (a_trans R HC _ _ _ Hm Hk)|exact HE].
Qed.

Lemma follows_modify (E : Prop) (R : Parser -> Parser -> Prop) (f : Parser -> Parser) :
  (forall st, R st (f st)) -> follows E R (modify f).
Proof. intros Hf st. apply Hf. Qed.

Lemma follows_when (E : Prop) (R : Parser -> Parser -> Prop) (b : bool) (m : M unit) :
  AtomicClose R -> follows E R m -> follows E R (when b m).
Proof. intros HC Hm. destruct b; [exact Hm|now apply follows_ret]. Qed.

Lemma follows_pops {A : Type} (E : Prop) (R : Parser -> Parser -> Prop) (k : M A) :
  AtomicClose R -> follows E R k -> follows E R (popTag ;; popNode ;; k).
Proof.
  intros HC Hk st. cbv [bind popTag popNode get modify panic].
  destruct (tagStack st) as [|t ts] eqn:Ht; [exact I|]. cbn [nodeStack set_tagStack].
  destruct (nodeStack st) as [|x xs] eqn:Hn; [exact I|].
  assert (Hp : R st (popped st)).
  { apply (a_popped R HC); [rewrite Ht|rewrite Hn]; discriminate. }
  match goal with |- match k ?st1 with _ => _ end => specialize (Hk st1) end.
  match goal with |- match ?r with _ => _ end =>
    destruct r as [a st2|e st2| |]; [| |exact I|exact I] end.
  - exact (a_trans R HC st (popped st) st2 Hp Hk).
  - destruct Hk as [Hk HE]. split; [exact (a_trans R HC st (popped st) st2 Hp Hk)|exact HE].
Qed.

Lemma follows_push (E : Prop) (R : Parser -> Parser -> Prop) (t node : nat) :
  AtomicOpen R ->
  follows E R (modify (fun st => set_tagStack st (tagStack st ++ [t])%list) ;;
             modify (fun st => set_nodeStack st (nodeStack st ++ [node])%list)).
Proof. intros HR st. exact (a_pushed R HR st t node). Qed.

Lemma follows_pnext (E : Prop) (R : Parser -> Parser -> Prop) : Atomic R -> follows E R pnext.
Proof. intros HR st. apply (a_scanned R HR). Qed.

Lemma follows_setDoc (E : Prop) (R : Parser -> Parser -> Prop) (id : nat)
    (f : DocumentNode -> DocumentNode) :
  AtomicOpen R -> decorates f -> follows E R (setDoc id f).
Proof. intros HR Hf st. apply (a_decorate R HR). exact Hf. Qed.

Create HintDb follows discriminated.

#[local] Hint Resolve a_close a_open : follows.

(** The side condition of a lemma: the relation is atomic. *)
Ltac atomicOpen := first [ assumption | apply a_open; assumption ].

Ltac atomic := first [ assumption | apply a_close; atomicOpen ].

Ltac atom :=
  first [ apply a_refl; atomic | apply a_log; atomic
        | apply a_styleStack; atomic | apply a_secmode; atomic
        | apply a_alloc; atomicOpen | apply a_appendChild; atomicOpen
        | apply a_maps; atomicOpen | apply a_tableInbody; atomicOpen
        | apply a_decorate; [atomicOpen|solve [intros ?; repeat split; reflexivity]]
        | apply a_docs; assumption | apply a_styles; assumption
        | apply a_grammar; assumption | apply a_started; assumption ].

Ltac follow :=
  repeat first
    [ apply follows_pops; [atomic|]
    | apply follows_push; atomicOpen
    | apply follows_pnext; assumption
    | apply follows_ret; atomic | apply follows_get; atomic | apply follows_panic
    | apply follows_outOfFuel | apply follows_fail; [assumption|atomic]
    | apply follows_some; atomic
    | apply follows_when; [atomic|]
    | apply follows_setDoc; [atomicOpen|solve [intros ?; repeat split; reflexivity]]
    | apply follows_modify; intros ?; cbv beta; atom
    | unfold setDoc; apply follows_modify; intros ?; cbv beta; atom
    | assumption
    | solve [auto 4 with follows nocore]
    | match goal with
      | |- follows _ _ (bind _ _) => apply follows_bind; [atomic| |intros ?]
      | |- follows _ _ (if ?b then _ else _) => destruct b
      | |- follows _ _ (match ?x with _ => _ end) => destruct x
      end ].

Lemma follows_logf (E : Prop) (R : Parser -> Parser -> Prop) (e : LogEntry) :
  AtomicClose R -> follows E R (logf e).
Proof.
  intros HC. unfold logf. follow.
Qed.

#[local] Hint Resolve follows_logf : follows.

Lemma follows_doc (E : Prop) (R : Parser -> Parser -> Prop) (id : nat) :
  AtomicClose R -> follows E R (doc id).
Proof.
  intros HC. unfold doc. follow.
Qed.

#[local] Hint Resolve follows_doc : follows.

Lemma follows_style (E : Prop) (R : Parser -> Parser -> Prop) (id : nat) :
  AtomicClose R -> follows E R (style id).
Proof.
  intros HC. unfold style. follow.
Qed.

#[local] Hint Resolve follows_style : follows.

Lemma follows_tagAt (E : Prop) (R : Parser -> Parser -> Prop) (t : nat) :
  AtomicClose R -> follows E R (tagAt t).
Proof.
  intros HC. unfold tagAt. follow.
Qed.

#[local] Hint Resolve follows_tagAt : follows.

Lemma follows_tagOf (E : Prop) (R : Parser -> Parser -> Prop) (tag : option nat) :
  AtomicClose R -> follows E R (tagOf tag).
Proof.
  intros HC. unfold tagOf. follow.
Qed.

#[local] Hint Resolve follows_tagOf : follows.

Lemma follows_getTag (E : Prop) (R : Parser -> Parser -> Prop) (tagname : string) :
  AtomicClose R -> follows E R (getTag tagname).
Proof.
  intros HC. unfold getTag. follow.
Qed.

#[local] Hint Resolve follows_getTag : follows.

Lemma follows_closeStyles_loop (E : Prop) (R : Parser -> Parser -> Prop) (l : list nat) :
  AtomicClose R -> follows E R (closeStyles_loop l).
Proof.
  intros HC. induction l; simpl; follow.
Qed.

#[local] Hint Resolve follows_closeStyles_loop : follows.

Lemma follows_closeStyles (E : Prop) (R : Parser -> Parser -> Prop) :
  AtomicClose R -> follows E R (closeStyles).
Proof.
  intros HC. unfold closeStyles. follow.
Qed.

#[local] Hint Resolve follows_closeStyles : follows.

Lemma follows_closeStyle (E : Prop) (R : Parser -> Parser -> Prop) (styleName : string) :
  AtomicClose R -> follows E R (closeStyle styleName).
Proof.
  intros HC. unfold closeStyle. follow.
Qed.

#[local] Hint Resolve follows_closeStyle : follows.

Lemma follows_tagLevel (E : Prop) (R : Parser -> Parser -> Prop) (tag tag2 : option nat) :
  AtomicClose R -> follows E R (tagLevel tag tag2).
Proof.
  intros HC. unfold tagLevel. follow.
Qed.

#[local] Hint Resolve follows_tagLevel : follows.

Lemma follows_closeTags_loop (E : Prop) (R : Parser -> Parser -> Prop) (n : nat) (level : Z) :
  AtomicClose R -> follows E R (closeTags_loop n level).
Proof.
  intros HC. induction n; simpl; follow.
Qed.

#[local] Hint Resolve follows_closeTags_loop : follows.

Lemma follows_closeTags (E : Prop) (R : Parser -> Parser -> Prop) (level : Z) :
  AtomicClose R -> follows E R (closeTags level).
Proof.
  intros HC. unfold closeTags. follow.
Qed.

#[local] Hint Resolve follows_closeTags : follows.

Lemma follows_nodeAt (E : Prop) (R : Parser -> Parser -> Prop) (i : Z) :
  AtomicClose R -> follows E R (nodeAt i).
Proof.
  intros HC. unfold nodeAt. follow.
Qed.

#[local] Hint Resolve follows_nodeAt : follows.

Lemma follows_stackTag (E : Prop) (R : Parser -> Parser -> Prop) (i : Z) :
  AtomicClose R -> follows E R (stackTag i).
Proof.
  intros HC. unfold stackTag. follow.
Qed.

#[local] Hint Resolve follows_stackTag : follows.

Lemma follows_topNode (E : Prop) (R : Parser -> Parser -> Prop) :
  AtomicClose R -> follows E R (topNode).
Proof.
  intros HC. unfold topNode. follow.
Qed.

#[local] Hint Resolve follows_topNode : follows.

Lemma follows_parent (E : Prop) (R : Parser -> Parser -> Prop) :
  AtomicClose R -> follows E R (parent).
Proof.
  intros HC. unfold parent. follow.
Qed.

#[local] Hint Resolve follows_parent : follows.

Lemma follows_newDocumentNode (E : Prop) (R : Parser -> Parser -> Prop) (tag : string) (indent : Z) :
  AtomicOpen R -> follows E R (newDocumentNode tag indent).
Proof.
  intros HP. unfold newDocumentNode. follow.
Qed.

#[local] Hint Resolve follows_newDocumentNode : follows.

Lemma follows_copyCounter (E : Prop) (R : Parser -> Parser -> Prop) (c : nat) :
  AtomicOpen R -> follows E R (copyCounter c).
Proof.
  intros HP. unfold copyCounter. follow.
Qed.

#[local] Hint Resolve follows_copyCounter : follows.

Lemma follows_incCounter (E : Prop) (R : Parser -> Parser -> Prop) (counter : string) :
  AtomicOpen R -> follows E R (incCounter counter).
Proof.
  intros HP. unfold incCounter. apply follows_modify. intros st.
  destruct (maps st !! counters st); atom.
Qed.

#[local] Hint Resolve follows_incCounter : follows.

Lemma follows_resetCounter (E : Prop) (R : Parser -> Parser -> Prop) (l : list string) :
  AtomicOpen R -> follows E R (resetCounter l).
Proof.
  intros HP. unfold resetCounter. apply follows_modify. intros st.
  destruct (maps st !! counters st); atom.
Qed.

#[local] Hint Resolve follows_resetCounter : follows.

Lemma follows_closeTableCell (E : Prop) (R : Parser -> Parser -> Prop) (colspan : Z) :
  AtomicOpen R -> follows E R (closeTableCell colspan).
Proof.
  intros HP. unfold closeTableCell. follow.
Qed.

#[local] Hint Resolve follows_closeTableCell : follows.

Lemma follows_closeTableRow (E : Prop) (R : Parser -> Parser -> Prop) (colspan : Z) :
  AtomicOpen R -> follows E R (closeTableRow colspan).
Proof.
  intros HP. unfold closeTableRow. follow.
Qed.

#[local] Hint Resolve follows_closeTableRow : follows.

Lemma follows_pushNodeOnStack (E : Prop) (R : Parser -> Parser -> Prop) (n node : nat) :
  AtomicOpen R -> follows E R (pushNodeOnStack n node).
Proof.
  intros HP. revert node. induction n; intros node; simpl; follow.
Qed.

#[local] Hint Resolve follows_pushNodeOnStack : follows.

Lemma follows_parseAttributes_loop (E : Prop) (R : Parser -> Parser -> Prop) (n : nat) (tag : option nat)
    (attributes : gmap string string) :
  Atomic R -> follows E R (parseAttributes_loop n tag attributes).
Proof.
  intros HR. revert attributes. induction n; intros attributes; simpl; follow.
Qed.

#[local] Hint Resolve follows_parseAttributes_loop : follows.

Lemma follows_parseAttributes (E : Prop) (R : Parser -> Parser -> Prop) (n : nat) (tag : option nat) :
  Atomic R -> follows E R (parseAttributes n tag).
Proof.
  intros HR. unfold parseAttributes. follow.
Qed.

#[local] Hint Resolve follows_parseAttributes : follows.

Lemma follows_defaultParents (E : Prop) (R : Parser -> Parser -> Prop) (n : nat) (p : option nat)
    (defaults : list (option nat)) :
  AtomicOpen R -> follows E R (defaultParents n p defaults).
Proof.
  intros HP. revert p defaults. induction n; intros p defaults; simpl; follow.
Qed.

#[local] Hint Resolve follows_defaultParents : follows.

Lemma follows_tagsOf (E : Prop) (R : Parser -> Parser -> Prop) (l : list (option nat)) :
  AtomicOpen R -> follows E R (tagsOf l).
Proof.
  intros HP. induction l; simpl; follow.
Qed.

#[local] Hint Resolve follows_tagsOf : follows.

Lemma follows_fixParents_loop (E : Prop) (R : Parser -> Parser -> Prop) (i : nat) (defaults : list (option nat))
    (indent : Z) (depth : nat) :
  AtomicOpen R -> follows E R (fixParents_loop i defaults indent depth).
Proof.
  intros HP. induction i; simpl; follow.
Qed.

#[local] Hint Resolve follows_fixParents_loop : follows.

Lemma follows_openDefaults (E : Prop) (R : Parser -> Parser -> Prop) (n i : nat) (defaults : list (option nat))
    (indent : Z) :
  AtomicOpen R -> follows E R (openDefaults n i defaults indent).
Proof.
  intros HP. induction i; simpl; follow.
Qed.

#[local] Hint Resolve follows_openDefaults : follows.

Lemma follows_openTag2 (E : Prop) (R : Parser -> Parser -> Prop) (n : nat) (tag : option nat) (node : nat)
    (fixParents : bool) :
  AtomicOpen R -> follows E R (openTag2 n tag node fixParents).
Proof.
  intros HP. unfold openTag2. follow.
Qed.

#[local] Hint Resolve follows_openTag2 : follows.

Lemma follows_openTag (E : Prop) (R : Parser -> Parser -> Prop) (n : nat) (tag : option nat) :
  Atomic R -> follows E R (openTag n tag).
Proof.
  intros HR. unfold openTag. follow.
Qed.

#[local] Hint Resolve follows_openTag : follows.

Lemma follows_openTableCell (E : Prop) (R : Parser -> Parser -> Prop) (n : nat) :
  AtomicOpen R -> follows E R (openTableCell n).
Proof.
  intros HP. unfold openTableCell. follow.
Qed.

#[local] Hint Resolve follows_openTableCell : follows.

Lemma follows_isPossibleParent (E : Prop) (R : Parser -> Parser -> Prop) (n : nat) (parent : DocumentNode)
    (child : option nat) (childIndent depth : Z) :
  AtomicOpen R -> follows E R (isPossibleParent n parent child childIndent depth).
Proof.
  intros HP. revert child depth. induction n; intros child depth; simpl; follow.
Qed.

#[local] Hint Resolve follows_isPossibleParent : follows.

Lemma follows_enumLevels (E : Prop) (R : Parser -> Parser -> Prop) (n i : nat) (enumTag : option nat)
    (indent siblingEnum : Z) :
  AtomicOpen R -> follows E R (enumLevels n i enumTag indent siblingEnum).
Proof.
  intros HP. revert siblingEnum. induction i; intros siblingEnum; simpl; follow.
Qed.

#[local] Hint Resolve follows_enumLevels : follows.

Lemma follows_openEnum (E : Prop) (R : Parser -> Parser -> Prop) (n : nat) (enumTag : option nat) (indent : Z) :
  AtomicOpen R -> follows E R (openEnum n enumTag indent).
Proof.
  intros HP. unfold openEnum. follow.
Qed.

#[local] Hint Resolve follows_openEnum : follows.

Lemma follows_caseEnum (E : Prop) (R : Parser -> Parser -> Prop) (n : nat) :
  Atomic R -> follows E R (caseEnum n).
Proof.
  intros HR. unfold caseEnum. follow.
Qed.

#[local] Hint Resolve follows_caseEnum : follows.

Lemma follows_tableCell (E : Prop) (R : Parser -> Parser -> Prop) (n : nat) :
  AtomicOpen R -> follows E R (tableCell n).
Proof.
  intros HP. unfold tableCell. follow.
Qed.

#[local] Hint Resolve follows_tableCell : follows.

Lemma follows_set_scannerLayout (E : Prop) (R : Parser -> Parser -> Prop) (t : textMode) :
  Atomic R -> follows E R (set_scannerLayout t).
Proof.
  intros HR. unfold set_scannerLayout. apply follows_modify. intros st.
  apply (a_scanner R HR). apply steps_set_layout.
Qed.

#[local] Hint Resolve follows_set_scannerLayout : follows.

Lemma follows_section (E : Prop) (R : Parser -> Parser -> Prop) (n : nat) :
  Atomic R -> follows E R (section n).
Proof.
  intros HR. unfold section. follow.
Qed.

#[local] Hint Resolve follows_section : follows.

Lemma follows_AppendText (E : Prop) (R : Parser -> Parser -> Prop) (p : NodeRef) (text : Leaf) :
  E -> Atomic R -> AtomicAll R -> follows E R (AppendText p text).
Proof.
  intros HE HR HA. unfold AppendText. follow.
Qed.

#[local] Hint Resolve follows_AppendText : follows.

Lemma follows_parseConfig (E : Prop) (R : Parser -> Parser -> Prop) (ext : Externals) :
  E -> Atomic R -> AtomicAll R -> follows E R (parseConfig ext).
Proof.
  intros HE HR HA. unfold parseConfig. follow.
Qed.

#[local] Hint Resolve follows_parseConfig : follows.

Lemma follows_codeText (E : Prop) (R : Parser -> Parser -> Prop) (n : nat) (text : string) :
  E -> Atomic R -> AtomicAll R -> follows E R (codeText n text).
Proof.
  intros HE HR HA. revert text. induction n; intros text; simpl; follow.
Qed.

#[local] Hint Resolve follows_codeText : follows.

Lemma follows_defineConfig (E : Prop) (R : Parser -> Parser -> Prop) (ext : Externals) :
  E -> Atomic R -> AtomicAll R -> follows E R (defineConfig ext).
Proof.
  intros HE HR HA. unfold defineConfig. apply follows_bind; [atomic| |intros ?; follow].
  apply follows_modify. intros st. apply (a_scanner R HR).
  eapply steps_trans; [apply steps_set_mode|].
  eapply steps_trans; [apply steps_set_layout|apply steps_skipWhitespace].
Qed.

#[local] Hint Resolve follows_defineConfig : follows.

Lemma follows_defineTemplate (E : Prop) (R : Parser -> Parser -> Prop) (ext : Externals) (n : nat) :
  E -> Atomic R -> AtomicAll R -> follows E R (defineTemplate ext n).
Proof.
  intros HE HR HA. unfold defineTemplate. follow.
Qed.

#[local] Hint Resolve follows_defineTemplate : follows.

Lemma follows_defineTag (E : Prop) (R : Parser -> Parser -> Prop) (ext : Externals) (n : nat) :
  E -> Atomic R -> AtomicAll R -> follows E R (defineTag ext n).
Proof.
  intros HE HR HA. unfold defineTag. follow.
Qed.

#[local] Hint Resolve follows_defineTag : follows.

Lemma follows_defineEntity (E : Prop) (R : Parser -> Parser -> Prop) (ext : Externals) (n : nat) :
  E -> Atomic R -> AtomicAll R -> follows E R (defineEntity ext n).
Proof.
  intros HE HR HA. unfold defineEntity. follow.
Qed.

#[local] Hint Resolve follows_defineEntity : follows.

Lemma follows_defineStyle (E : Prop) (R : Parser -> Parser -> Prop) (ext : Externals) (n : nat) :
  E -> Atomic R -> AtomicAll R -> follows E R (defineStyle ext n).
Proof.
  intros HE HR HA. unfold defineStyle. follow.
Qed.

#[local] Hint Resolve follows_defineStyle : follows.

Lemma follows_caseSection (E : Prop) (R : Parser -> Parser -> Prop) (ext : Externals) (n : nat) :
  E -> Atomic R -> AtomicAll R -> follows E R (caseSection ext n).
Proof.
  intros HE HR HA. unfold caseSection. follow.
Qed.

#[local] Hint Resolve follows_caseSection : follows.

Lemma follows_term (E : Prop) (R : Parser -> Parser -> Prop) (n parag : nat) :
  E -> Atomic R -> AtomicAll R -> follows E R (term n parag).
Proof.
  intros HE HR HA. unfold term. follow.
Qed.

#[local] Hint Resolve follows_term : follows.

Lemma follows_caseText (E : Prop) (R : Parser -> Parser -> Prop) (n : nat) :
  E -> Atomic R -> AtomicAll R -> follows E R (caseText n).
Proof.
  intros HE HR HA. unfold caseText. follow.
Qed.

#[local] Hint Resolve follows_caseText : follows.

Lemma follows_caseLeaf (E : Prop) (R : Parser -> Parser -> Prop) (n : nat) (leaf : string -> NodeRef -> Leaf) :
  E -> Atomic R -> AtomicAll R -> follows E R (caseLeaf n leaf).
Proof.
  intros HE HR HA. unfold caseLeaf. follow.
Qed.

#[local] Hint Resolve follows_caseLeaf : follows.

Lemma follows_newStyle (E : Prop) (R : Parser -> Parser -> Prop) (sn : StyleNode) :
  E -> Atomic R -> AtomicAll R -> follows E R (newStyle sn).
Proof.
  intros HE HR HA. unfold newStyle. follow.
Qed.

#[local] Hint Resolve follows_newStyle : follows.

Lemma follows_pushStyle (E : Prop) (R : Parser -> Parser -> Prop) (id : nat) :
  E -> Atomic R -> AtomicAll R -> follows E R (pushStyle id).
Proof.
  intros HE HR HA. unfold pushStyle. follow.
Qed.

#[local] Hint Resolve follows_pushStyle : follows.

Lemma follows_emphasis (E : Prop) (R : Parser -> Parser -> Prop) (mark : string) (p : NodeRef) :
  E -> Atomic R -> AtomicAll R -> follows E R (emphasis mark p).
Proof.
  intros HE HR HA. unfold emphasis. follow.
Qed.

#[local] Hint Resolve follows_emphasis : follows.

Lemma follows_styleAttributes (E : Prop) (R : Parser -> Parser -> Prop) (n node : nat) :
  E -> Atomic R -> AtomicAll R -> follows E R (styleAttributes n node).
Proof.
  intros HE HR HA. induction n; simpl; follow.
Qed.

#[local] Hint Resolve follows_styleAttributes : follows.

Lemma follows_namedStyle (E : Prop) (R : Parser -> Parser -> Prop) (n : nat) (p : NodeRef) :
  E -> Atomic R -> AtomicAll R -> follows E R (namedStyle n p).
Proof.
  intros HE HR HA. unfold namedStyle. follow.
Qed.

#[local] Hint Resolve follows_namedStyle : follows.

Lemma follows_caseStyle (E : Prop) (R : Parser -> Parser -> Prop) (n : nat) :
  E -> Atomic R -> AtomicAll R -> follows E R (caseStyle n).
Proof.
  intros HE HR HA. unfold caseStyle. follow.
Qed.

#[local] Hint Resolve follows_caseStyle : follows.

Lemma follows_caseEntity (E : Prop) (R : Parser -> Parser -> Prop) (n : nat) :
  E -> Atomic R -> AtomicAll R -> follows E R (caseEntity n).
Proof.
  intros HE HR HA. unfold caseEntity. follow.
Qed.

#[local] Hint Resolve follows_caseEntity : follows.

Lemma follows_parseToken (E : Prop) (R : Parser -> Parser -> Prop) (ext : Externals) (n : nat) :
  E -> Atomic R -> AtomicAll R -> follows E R (parseToken ext n).
Proof.
  intros HE HR HA. unfold parseToken. follow.
Qed.

#[local] Hint Resolve follows_parseToken : follows.

Lemma follows_parse_loop (E : Prop) (R : Parser -> Parser -> Prop) (ext : Externals) (fuel n : nat) :
  E -> Atomic R -> AtomicAll R -> follows E R (parse_loop ext fuel n).
Proof.
  intros HE HR HA. induction fuel; simpl; follow.
Qed.

#[local] Hint Resolve follows_parse_loop : follows.

Lemma follows_parse (E : Prop) (R : Parser -> Parser -> Prop) (ext : Externals) (n : nat) :
  E -> Atomic R -> AtomicAll R -> follows E R (parse ext n).
Proof.
  intros HE HR HA. unfold parse. apply follows_bind; [atomic|now apply follows_pnext|intros _].
  apply follows_bind; [atomic| |intros _; follow].
  apply follows_modify. intros st. now apply a_started.
Qed.

#[local] Hint Resolve follows_parse : follows.


(** ** Parser: results of the monad *)

Lemma bind_Ok {A B : Type} (m : M A) (k : A -> M B) (st st' : Parser) (b : B) :
  bind m k st = Ok b st' ->
  exists a st1, m st = Ok a st1 /\ k a st1 = Ok b st'.
Proof.
  unfold bind. destruct (m st) as [a st1|e st1| |]; try discriminate.
  intros H. now exists a, st1.
Qed.

Lemma follows_Ok {A : Type} (E : Prop) (R : Parser -> Parser -> Prop) (m : M A)
    (st st' : Parser) (a : A) :
  follows E R m -> m st = Ok a st' -> R st st'.
Proof. intros Hm H. specialize (Hm st). now rewrite H in Hm. Qed.

Lemma follows_Return {A : Type} (E : Prop) (R : Parser -> Parser -> Prop) (m : M A)
    (st st' : Parser) (e : ParseError) :
  follows E R m -> m st = Return e st' -> R st st' /\ E.
Proof. intros Hm H. specialize (Hm st). now rewrite H in Hm. Qed.

(** ** Parser: the two stacks *)

Lemma removelast_length {A : Type} (l : list A) :
  length (removelast l) = pred (length l).
Proof.
  induction l as [|x l IH]; [reflexivity|].
  destruct l as [|y l]; [reflexivity|].
  simpl in *. rewrite IH. reflexivity.
Qed.

Lemma removelast_head {A : Type} (l : list A) :
  (2 <= length l)%nat -> head (removelast l) = head l.
Proof. destruct l as [|x [|y l]]; simpl; intros; try lia; reflexivity. Qed.

Lemma keepsStacks_AtomicClose : AtomicClose keepsStacks.
Proof.
  constructor; try (intros; split; [reflexivity|exact (fun x => x)]).
  - intros st1 st2 st3 [H1 H1'] [H2 H2']. split; [congruence|auto].
  - intros st Ht Hn. split; [reflexivity|]. intros [Hl Hh].
    unfold stackInv, popped. simpl.
    rewrite !removelast_length. destruct (tagStack st) as [|t ts]; [congruence|].
    simpl in Hl. split; [simpl; lia|].
    rewrite removelast_head; [exact Hh|simpl in *; lia].
Qed.

Lemma keepsStacks_AtomicOpen : AtomicOpen keepsStacks.
Proof.
  constructor; try (intros; split; [reflexivity|exact (fun x => x)]).
  - exact keepsStacks_AtomicClose.
  - intros st t node. split; [reflexivity|]. intros [Hl Hh].
    unfold stackInv, pushed. simpl. rewrite !length_app. simpl.
    split; [lia|]. destruct (nodeStack st); [discriminate|exact Hh].
Qed.

Lemma keepsStacks_Atomic : Atomic keepsStacks.
Proof.
  constructor; try (intros; split; [reflexivity|exact (fun x => x)]).
  - exact keepsStacks_AtomicOpen.
  - intros st. unfold scanned. destruct (Scan (s st)) as [[[pos t] str] s1].
    split; [reflexivity|exact (fun x => x)].
Qed.

Lemma keepsStacks_AtomicAll : AtomicAll keepsStacks.
Proof.
  constructor; try (intros; split; [reflexivity|exact (fun x => x)]).
  intros st. split; [reflexivity|]. intros _. split; reflexivity.
Qed.

Lemma closeTags_loop_level (n : nat) (level : Z) (st st' : Parser) :
  closeTags_loop n level st = Ok tt st' -> (len_list (tagStack st') <= level)%Z.
Proof.
  revert st. induction n as [|n IH]; intros st; simpl; unfold bind at 1, get.
  - destruct (len_list (tagStack st) >? level)%Z eqn:Hc; [discriminate|].
    intros [= <-]. rewrite Z.gtb_ltb in Hc. apply Z.ltb_ge in Hc. lia.
  - destruct (len_list (tagStack st) >? level)%Z eqn:Hc.
    + intros H. apply bind_Ok in H as (? & st1 & _ & H).
      apply bind_Ok in H as (? & st2 & _ & H). now apply IH in H.
    + intros [= <-]. rewrite Z.gtb_ltb in Hc. apply Z.ltb_ge in Hc. lia.
Qed.

Lemma popTag_Ok (st st' : Parser) :
  popTag st = Ok tt st' ->
  tagStack st <> [] /\ st' = set_tagStack st (removelast (tagStack st)).
Proof.
  unfold popTag, bind, get. destruct (tagStack st) eqn:E; [discriminate|].
  intros [= <-]. rewrite E. split; [discriminate|reflexivity].
Qed.

Lemma popNode_Ok (st st' : Parser) :
  popNode st = Ok tt st' ->
  nodeStack st <> [] /\ st' = set_nodeStack st (removelast (nodeStack st)).
Proof.
  unfold popNode, bind, get. destruct (nodeStack st) eqn:E; [discriminate|].
  intros [= <-]. rewrite E. split; [discriminate|reflexivity].
Qed.

Lemma closeTags_loop_styleStack (n : nat) (level : Z) (st st' : Parser) :
  closeTags_loop n level st = Ok tt st' -> styleStack st' = styleStack st.
Proof.
  revert st. induction n as [|n IH]; intros st; simpl; unfold bind at 1, get;
    destruct (len_list (tagStack st) >? level)%Z; try discriminate;
    try (intros [= <-]; reflexivity).
  intros H. apply bind_Ok in H as ([] & st1 & H1 & H).
  apply bind_Ok in H as ([] & st2 & H2 & H).
  apply popTag_Ok in H1 as [_ ->]. apply popNode_Ok in H2 as [_ ->].
  now apply IH in H.
Qed.

Lemma closeStyles_loop_stacks (l : list nat) (st st' : Parser) :
  closeStyles_loop l st = Ok tt st' ->
  tagStack st' = tagStack st /\ nodeStack st' = nodeStack st /\
  styleStack st' = styleStack st.
Proof.
  revert st. induction l as [|id l IH]; intros st; simpl.
  - intros [= <-]. auto.
  - intros H. apply bind_Ok in H as (sn & st1 & H1 & H).
    apply bind_Ok in H as (? & st2 & H2 & H).
    apply IH in H as (Ha & Hb & Hc).
    unfold style in H1. apply bind_Ok in H1 as (? & ? & [= <- <-] & H1).
    destruct (styles st !! id); [|discriminate]. injection H1 as <- <-.
    injection H2 as <-. simpl in *. subst. simpl in *. auto.
Qed.

Lemma closeTags_closes (level : Z) (st st' : Parser) :
  closeTags level st = Ok tt st' ->
  (len_list (tagStack st') <= level)%Z /\ styleStack st' = [].
Proof.
  unfold closeTags. intros H.
  apply bind_Ok in H as (? & st1 & H1 & H).
  apply bind_Ok in H as (? & ? & [= <- <-] & H).
  apply bind_Ok in H as ([] & st2 & H2 & H).
  apply bind_Ok in H as (? & ? & [= <- <-] & H).
  assert (Hs1 : styleStack st1 = []).
  { unfold closeStyles in H1. apply bind_Ok in H1 as (? & ? & [= <- <-] & H1).
    apply bind_Ok in H1 as ([] & st0 & _ & H1). now injection H1 as _ <-. }
  pose proof (closeTags_loop_styleStack _ _ _ _ H2) as Hs2.
  pose proof (closeTags_loop_level _ _ _ _ H2) as Hl.
  destruct (last (tagStack st2)).
  - apply bind_Ok in H as (td & st3 & H3 & H).
    unfold tagAt in H3. apply bind_Ok in H3 as (? & ? & [= <- <-] & H3).
    destruct (Tags (grammar st2) !! n); [|discriminate]. injection H3 as <- <-.
    injection H as <-. simpl. split; [exact Hl|congruence].
  - injection H as <-. simpl. split; [exact Hl|congruence].
Qed.

(** C2.  When [parse] gets to the end of the input and returns, the stack
    of open tags is empty, the stack of open nodes holds the root node and
    nothing else, no style is open, and the node returned is the root. *)
Theorem parse_closes_all (ext : Externals) (n : nat) (st st' : Parser) (d : nat) :
  parse ext n st = Ok d st' ->
  tagStack st' = [] /\ nodeStack st' = [rootNode st] /\ styleStack st' = [] /\
  d = rootNode st.
Proof.
  intros H.
  pose proof (follows_Ok _ _ _ _ _ _
                (follows_parse True _ ext n I keepsStacks_Atomic keepsStacks_AtomicAll) H)
    as [Hroot _].
  unfold parse in H.
  apply bind_Ok in H as ([] & st1 & H1 & H).
  apply bind_Ok in H as ([] & st2 & H2 & H).
  apply bind_Ok in H as ([] & st3 & H3 & H).
  apply bind_Ok in H as ([] & st4 & H4 & H).
  apply bind_Ok in H as (? & ? & [= <- <-] & H). injection H as <- <-.
  injection H2 as <-.
  pose proof (follows_Ok _ _ _ _ _ _
                (follows_parse_loop True _ ext n n I keepsStacks_Atomic
                   keepsStacks_AtomicAll) H3)
    as [_ Hloop].
  pose proof (follows_Ok _ _ _ _ _ _
                (follows_closeTags True _ 0%Z keepsStacks_AtomicClose) H4)
    as [_ Hclose].
  destruct (Hclose (Hloop ltac:(split; reflexivity))) as [Hlen Hhead].
  destruct (closeTags_closes _ _ _ H4) as [Hl Hs].
  unfold len_list in Hl.
  destruct (tagStack st4) as [|t ts]; [|simpl in Hl; lia].
  rewrite Hroot in Hhead.
  destruct (nodeStack st4) as [|x [|y l]]; simpl in Hlen, Hhead; try discriminate.
  injection Hhead as ->. auto.
Qed.

Lemma parse_closes_all_witness :
  exists st', parse plainExternals 10 (NewParser NewGrammar listInput) = Ok O st' /\
    length (docs st') = 5%nat /\
    tagStack st' = [] /\ nodeStack st' = [O] /\ styleStack st' = [].
Proof.
  eexists. split; [vm_compute; reflexivity|]. split; [reflexivity|].
  match goal with |- tagStack ?x = _ /\ _ =>
    destruct (parse_closes_all plainExternals 10 (NewParser NewGrammar listInput) x O)
      as (H1 & H2 & H3 & _); [vm_compute; reflexivity|] end.
  repeat split; assumption.
Defined.

(** ** Parser: errors of the scanner *)

Local Open Scope Z_scope.

Lemma next_records (sc : Scanner) :
  readOffset sc < len (src sc) ->
  byteAt (src sc) (readOffset sc) = 0 \/
  (128 <= byteAt (src sc) (readOffset sc) /\
   DecodeRune (bytesOf (slice (src sc) (readOffset sc) (len (src sc)))) = (RuneError, 1)) ->
  exists text,
    Errors (next sc)
    = (Errors sc ++
       [mkScannerError
          (mkRange (if ch sc =? chNL then lineCount sc + 1 else lineCount sc)
                   (if ch sc =? chNL then 0 else readOffset sc - lineOffset sc)
                   (readOffset sc) (readOffset sc)) text])%list /\
    text = (if byteAt (src sc) (readOffset sc) =? 0
            then "illegal character NUL" else "illegal UTF-8 encoding") /\
    readOffset (next sc) = readOffset sc + 1.
Proof.
  intros Hlt Hbad. unfold next. rewrite (proj2 (Z.ltb_lt _ _) Hlt).
  destruct (advance_fields sc (readOffset sc))
    as (Hsrc & Hro & Herr & Hoff & Hch & Hlc & Hlo & _).
  set (s1 := advance sc (readOffset sc)) in *.
  rewrite Hsrc, Hro.
  assert (Hcol : offset s1 - lineOffset s1
                 = if ch sc =? chNL then 0 else readOffset sc - lineOffset sc).
  { rewrite Hlo, Hoff. destruct (ch sc =? chNL); [apply Z.sub_diag|reflexivity]. }
  destruct Hbad as [Hz|[Hge Hd]].
  - rewrite Hz. simpl. unfold error, set_read. cbn [Errors readOffset].
    rewrite Hcol, Hlc, Herr, Hoff, Hro. eexists. repeat split.
  - destruct (byteAt (src sc) (readOffset sc) =? 0) eqn:Hb0;
      [apply Z.eqb_eq in Hb0; lia|].
    rewrite (proj2 (Z.leb_le _ _) Hge), Hd. simpl.
    unfold error, set_read. cbn [Errors readOffset].
    rewrite Hcol, Hlc, Herr, Hoff, Hro. eexists. repeat split.
Qed.

Lemma steps_eof (sc sc' : Scanner) :
  steps sc sc' -> Scanner_ok sc -> ch sc = chEOF -> ch sc' = chEOF.
Proof.
  induction 1 as [x|s1 s2 s3 H12 IH1 H23 IH2|x|x m|x m|x t|x i]; intros Hok Hch; auto.
  - apply IH2; [now apply (steps_ok s1)|now apply IH1].
  - destruct Hok as (_ & _ & _ & _ & _ & _ & H7).
    now destruct (next_eof x (H7 Hch)) as (Hc & _).
Qed.

Lemma keepsScanner_AtomicClose : AtomicClose keepsScanner.
Proof.
  constructor; try (intros; split; [apply steps_refl|exact (fun _ x => x)]).
  intros st1 st2 st3 [H1 H1'] [H2 H2']. split; [now apply (steps_trans _ (s st2))|].
  intros Hok He. apply H2'; [now apply (steps_ok (s st1))|now apply H1'].
Qed.

Lemma keepsScanner_AtomicOpen : AtomicOpen keepsScanner.
Proof.
  constructor; try (intros; split; [apply steps_refl|exact (fun _ x => x)]).
  exact keepsScanner_AtomicClose.
Qed.

Lemma keepsScanner_Atomic : Atomic keepsScanner.
Proof.
  constructor.
  - exact keepsScanner_AtomicOpen.
  - intros st. unfold keepsScanner, atEOF, scanned.
    pose proof (steps_Scan (s st)) as Hs. pose proof (Scan_eof_ch (s st)) as He.
    destruct (Scan (s st)) as [[[pos t] str] s1]. simpl in *.
    split; [exact Hs|]. intros Hok _ Ht. now apply He.
  - intros st s1 Hs. split; [exact Hs|]. unfold atEOF. simpl.
    intros Hok He Ht. apply (steps_eof (s st)); auto.
Qed.

Lemma keepsScanner_AtomicAll : AtomicAll keepsScanner.
Proof. constructor; intros; split; try apply steps_refl; exact (fun _ x => x). Qed.

Lemma sameToken_AtomicClose : AtomicClose sameToken.
Proof.
  constructor; try (intros; repeat split; reflexivity).
  intros st1 st2 st3 (H1 & H1' & H1'') (H2 & H2' & H2''). repeat split; congruence.
Qed.

Lemma sameToken_AtomicOpen : AtomicOpen sameToken.
Proof.
  constructor; try (intros; repeat split; reflexivity).
  exact sameToken_AtomicClose.
Qed.

Lemma parse_loop_eof (ext : Externals) (fuel n : nat) (st st' : Parser) :
  parse_loop ext fuel n st = Ok tt st' -> token st' = TokenEOF.
Proof.
  revert st. induction fuel as [|fuel IH]; intros st; simpl; unfold bind at 1, get;
    destruct (bool_decide (token st = TokenEOF)) eqn:Ht; try discriminate;
    try (intros [= <-]; now apply bool_decide_eq_true in Ht).
  intros H. apply bind_Ok in H as ([] & st1 & _ & H). now apply IH in H.
Qed.

Lemma parse_eof (ext : Externals) (n : nat) (st st' : Parser) (d : nat) :
  parse ext n st = Ok d st' -> token st' = TokenEOF.
Proof.
  unfold parse. intros H.
  apply bind_Ok in H as ([] & st1 & _ & H).
  apply bind_Ok in H as ([] & st2 & _ & H).
  apply bind_Ok in H as ([] & st3 & H3 & H).
  apply bind_Ok in H as ([] & st4 & H4 & H).
  apply bind_Ok in H as (? & ? & [= <- <-] & H). injection H as _ <-.
  apply parse_loop_eof in H3.
  destruct (follows_Ok _ _ _ _ _ _ (follows_closeTags True _ 0 sameToken_AtomicClose) H4)
    as [Ht _].
  congruence.
Qed.

Lemma parse_atEOF (ext : Externals) (n : nat) (st st' : Parser) (d : nat) :
  Scanner_ok (s st) -> parse ext n st = Ok d st' -> ch (s st') = chEOF.
Proof.
  intros Hok H. pose proof (parse_eof _ _ _ _ _ H) as Ht.
  unfold parse in H. apply bind_Ok in H as ([] & st1 & H1 & H).
  injection H1 as <-.
  assert (F : follows True keepsScanner
                (modify started ;; parse_loop ext n n ;; closeTags 0 ;;
                 st0 <- get ;; ret (rootNode st0))).
  { pose proof keepsScanner_Atomic as HR. pose proof keepsScanner_AtomicAll as HA.
    pose proof I as HE. follow. }
  destruct (follows_Ok _ _ _ _ _ _ F H) as [_ Hkeep].
  pose proof (a_scanned _ keepsScanner_Atomic st) as [Hs Hscan].
  apply Hkeep; [now apply (steps_ok (s st))| |exact Ht].
  unfold atEOF, scanned. pose proof (Scan_eof_ch (s st) Hok) as He.
  destruct (Scan (s st)) as [[[pos t] str] s1]. exact He.
Qed.



Local Close Scope Z_scope.

(** ** Parser: counters on a push *)

Lemma update_length (h : Heap) (id : nat) (f : DocumentNode -> DocumentNode) :
  length (update h id f) = length h.
Proof. unfold update. destruct (h !! id); [apply length_insert|reflexivity]. Qed.

Lemma update_lookup_eq (h : Heap) (id : nat) (f : DocumentNode -> DocumentNode) :
  update h id f !! id = f <$> (h !! id).
Proof.
  unfold update. destruct (h !! id) as [d|] eqn:E; simpl.
  - apply list_lookup_insert_eq. eapply lookup_lt_Some. exact E.
  - exact E.
Qed.

Lemma update_lookup_ne (h : Heap) (id j : nat) (f : DocumentNode -> DocumentNode) :
  id <> j -> update h id f !! j = h !! j.
Proof.
  intros Hne. unfold update. destruct (h !! id) as [d|]; [|reflexivity].
  now apply list_lookup_insert_ne.
Qed.

Lemma appendChild_length (h : Heap) (parent child : nat) :
  length (appendChild h parent child) = length h.
Proof.
  unfold appendChild. rewrite update_length.
  destruct (update h child _ !! parent) as [p|]; [|apply update_length].
  destruct (last (Children p)); rewrite !update_length; reflexivity.
Qed.

Lemma docsGrow_AtomicOpen : AtomicOpen docsGrow.
Proof.
  constructor; [constructor|..]; unfold docsGrow; intros; simpl;
    rewrite ?update_length, ?appendChild_length, ?length_app; simpl; lia.
Qed.

Lemma reset_foldr (l : list string) (m : gmap string Z) :
  reset l m = foldr delete m l.
Proof.
  revert m. induction l as [|c l IH]; intros m; simpl; [reflexivity|].
  assert (E : match m !! c with Some _ => delete c m | None => m end = delete c m).
  { destruct (m !! c) eqn:Hc; [reflexivity|]. symmetry. now apply delete_id. }
  rewrite E, IH. clear. induction l as [|d l IH]; simpl; [reflexivity|].
  rewrite IH. apply delete_delete.
Qed.

Lemma inc_reset (td : TagDefinition) (m : gmap string Z) :
  inc (Counter td) (reset (ResetCounter td) m) = pushedCounters td m.
Proof.
  unfold inc, pushedCounters. rewrite reset_foldr.
  destruct (String.eqb (Counter td) ""); [reflexivity|].
  now destruct (foldr delete m (ResetCounter td) !! Counter td).
Qed.

Lemma modify_Ok (f : Parser -> Parser) (st st' : Parser) (u : unit) :
  modify f st = Ok u st' -> st' = f st.
Proof. now intros [= <-]. Qed.

Lemma some_Ok {A : Type} (x : option A) (a : A) (st st' : Parser) :
  some x st = Ok a st' -> x = Some a /\ st' = st.
Proof. destruct x; [|discriminate]. now intros [= <- <-]. Qed.

Lemma get_Ok (st st' x : Parser) : get st = Ok x st' -> x = st /\ st' = st.
Proof. now intros [= <- <-]. Qed.

Lemma copyCounter_Ok (c : nat) (st st' : Parser) :
  copyCounter c st = Ok tt st' ->
  exists m, maps st !! counters st = Some m /\
    st' = set_docs (set_maps st (maps st ++ [m])%list)
                   (update (docs st) c (fun n => set_Counters n (Some (length (maps st))))).
Proof.
  unfold copyCounter. intros H.
  apply bind_Ok in H as (? & ? & H0 & H). apply get_Ok in H0 as [-> ->].
  apply bind_Ok in H as (m & ? & H0 & H). apply some_Ok in H0 as [Hm ->].
  apply bind_Ok in H as (? & ? & H0 & H). apply modify_Ok in H0 as ->.
  apply modify_Ok in H as ->. now exists m.
Qed.

(** The end of [pushNodeOnStack]: the node is attached, the counters are
    handled, and the node is pushed. *)
Lemma pushNodeOnStack_end (st1 st' : Parser) (parent node t : nat)
    (nd : DocumentNode) (td : TagDefinition) :
  (modify (fun st => set_docs st (appendChild (docs st) parent node)) ;;
   resetCounter (ResetCounter td) ;;
   incCounter (Counter td) ;;
   copyCounter node ;;
   t <- some (TagDef nd) ;;
   modify (fun st => set_tagStack st (tagStack st ++ [t])%list) ;;
   modify (fun st => set_nodeStack st (nodeStack st ++ [node])%list)) st1 = Ok tt st' ->
  TagDef nd = Some t -> (node < length (docs st1))%nat ->
  exists m,
    maps st1 !! counters st1 = Some m /\
    counters st' = counters st1 /\
    maps st' = (<[counters st1 := pushedCounters td m]> (maps st1)
                ++ [pushedCounters td m])%list /\
    Counters <$> (docs st' !! node) = Some (Some (length (maps st1))) /\
    tagStack st' = (tagStack st1 ++ [t])%list /\
    nodeStack st' = (nodeStack st1 ++ [node])%list.
Proof.
  intros H Ht Hnode.
  apply bind_Ok in H as (? & sa & H1 & H). apply modify_Ok in H1. subst sa.
  apply bind_Ok in H as (? & sb & H2 & H). unfold resetCounter in H2.
  apply modify_Ok in H2. cbn [maps counters set_docs] in H2.
  apply bind_Ok in H as (? & sc & H3 & H). unfold incCounter in H3.
  apply modify_Ok in H3.
  apply bind_Ok in H as ([] & sd & H4 & H). apply copyCounter_Ok in H4 as (m' & Hm' & H4).
  apply bind_Ok in H as (t' & se & H5 & H). apply some_Ok in H5 as [H5 H5'].
  apply bind_Ok in H as (? & sf & H6 & H). apply modify_Ok in H6.
  apply modify_Ok in H.
  assert (t' = t) as -> by congruence.
  destruct (maps st1 !! counters st1) as [m|] eqn:Hm.
  - assert (Hlt : (counters st1 < length (maps st1))%nat)
      by (eapply lookup_lt_Some; eassumption).
    subst sb. cbn [maps counters set_docs set_maps] in H3.
    rewrite list_lookup_insert_eq in H3 by exact Hlt.
    rewrite list_insert_insert_eq, inc_reset in H3.
    subst sc. cbn [maps counters set_docs set_maps docs] in Hm', H4.
    rewrite list_lookup_insert_eq in Hm' by exact Hlt. injection Hm' as <-.
    rewrite length_insert in H4.
    subst st' sf se sd.
    cbn [maps counters set_docs set_maps docs tagStack nodeStack
         set_tagStack set_nodeStack].
    exists m. repeat split; try reflexivity.
    rewrite update_lookup_eq.
    destruct (appendChild (docs st1) parent node !! node) as [d|] eqn:Hd;
      [reflexivity|].
    apply lookup_ge_None in Hd. rewrite appendChild_length in Hd. lia.
  - subst sb. cbn [maps counters set_docs set_maps] in H3. rewrite Hm in H3.
    subst sc. cbn [maps counters set_docs set_maps] in Hm'. congruence.
Qed.

Lemma doc_Ok (id : nat) (d : DocumentNode) (st st' : Parser) :
  doc id st = Ok d st' -> docs st !! id = Some d /\ st' = st.
Proof.
  unfold doc. intros H. apply bind_Ok in H as (? & ? & H0 & H).
  apply get_Ok in H0 as [-> ->]. now apply some_Ok in H.
Qed.

Lemma tagAt_Ok (t : nat) (td : TagDefinition) (st st' : Parser) :
  tagAt t st = Ok td st' -> Tags (grammar st) !! t = Some td /\ st' = st.
Proof.
  unfold tagAt. intros H. apply bind_Ok in H as (? & ? & H0 & H).
  apply get_Ok in H0 as [-> ->]. now apply some_Ok in H.
Qed.

Lemma tagOf_Ok (tag : option nat) (td : TagDefinition) (st st' : Parser) :
  tagOf tag st = Ok td st' ->
  exists t, tag = Some t /\ Tags (grammar st) !! t = Some td /\ st' = st.
Proof.
  unfold tagOf. intros H. apply bind_Ok in H as (t & ? & H0 & H).
  apply some_Ok in H0 as [-> ->]. apply tagAt_Ok in H as [H ->]. now exists t.
Qed.

Lemma topNode_Ok (id : nat) (st st' : Parser) :
  topNode st = Ok id st' -> last (nodeStack st) = Some id /\ st' = st.
Proof.
  unfold topNode. intros H. apply bind_Ok in H as (? & ? & H0 & H).
  apply get_Ok in H0 as [-> ->]. now apply some_Ok in H.
Qed.

(** C5.  Whenever [pushNodeOnStack] pushes a node, be it the node of a
    tag of the text or a default parent opened by [openTag2], it ends as
    follows, in a state [st1] that is the state it was called in unless the
    parent had to be split for a first-child tag: the counters of the reset
    list are deleted from the running map, the counter of the tag is then
    incremented, or created with 1, and the result is copied into a new
    map that becomes the [Counters] of the node; the running map stays
    another map, so later changes of the running map do not reach the copy.
    The tag and the node are then pushed on the two stacks. *)
Theorem pushNodeOnStack_counters (n node : nat) (st st' : Parser)
    (nd : DocumentNode) (t : nat) (td : TagDefinition) :
  pushNodeOnStack n node st = Ok tt st' ->
  docs st !! node = Some nd -> TagDef nd = Some t ->
  Tags (grammar st) !! t = Some td ->
  exists (st1 : Parser) (m : gmap string Z),
    (FirstChild td = false -> st1 = st) /\
    maps st1 !! counters st1 = Some m /\
    counters st' = counters st1 /\
    maps st' = (<[counters st1 := pushedCounters td m]> (maps st1)
                ++ [pushedCounters td m])%list /\
    Counters <$> (docs st' !! node) = Some (Some (length (maps st1))) /\
    length (maps st1) <> counters st1 /\
    (forall c st2, incCounter c st' = Ok tt st2 \/ resetCounter [c] st' = Ok tt st2 ->
       maps st2 !! length (maps st1) = Some (pushedCounters td m)) /\
    tagStack st' = (tagStack st1 ++ [t])%list /\
    nodeStack st' = (nodeStack st1 ++ [node])%list.
Proof.
  intros H Hnd Ht Htd.
  assert (Hshape : exists parent st1,
    docsGrow st st1 /\ (FirstChild td = false -> st1 = st) /\
    (modify (fun st => set_docs st (appendChild (docs st) parent node)) ;;
     resetCounter (ResetCounter td) ;;
     incCounter (Counter td) ;;
     copyCounter node ;;
     t <- some (TagDef nd) ;;
     modify (fun st => set_tagStack st (tagStack st ++ [t])%list) ;;
     modify (fun st => set_nodeStack st (nodeStack st ++ [node])%list)) st1 = Ok tt st').
  { pose proof docsGrow_AtomicOpen as HP.
    destruct n as [|n]; simpl in H;
      apply bind_Ok in H as (parent & ? & H1 & H); apply topNode_Ok in H1 as [_ ->];
      apply bind_Ok in H as (nd' & ? & H2 & H); apply doc_Ok in H2 as [H2 ->];
      assert (nd' = nd) as -> by congruence;
      apply bind_Ok in H as (td' & ? & H3 & H);
      apply tagOf_Ok in H3 as (t' & H3 & H3' & ->);
      assert (td' = td) as -> by congruence;
      apply bind_Ok in H as (par & ? & H4 & H); apply doc_Ok in H4 as [_ ->];
      apply bind_Ok in H as (sp & sa & H5 & H);
      assert (sa = st /\ (FirstChild td = false -> sp = false)) as [-> Hsplit]
        by (destruct (FirstChild td); simpl in H5;
            [destruct (0 <? _)%Z;
             [apply bind_Ok in H5 as (? & ? & H5 & H6);
              apply tagOf_Ok in H5 as (? & _ & _ & ->); injection H6 as _ <-;
              split; [reflexivity|discriminate]
             |injection H5 as _ <-; split; [reflexivity|discriminate]]
            |injection H5 as <- <-; split; reflexivity]);
      apply bind_Ok in H as (parent' & st1 & H6 & H);
      exists parent', st1;
      (split; [|split; [|exact H]]).
    - destruct sp; [discriminate H6|]. injection H6 as _ <-. unfold docsGrow. lia.
    - intros Hf. rewrite (Hsplit Hf) in H6. now injection H6 as _ <-.
    - destruct sp; [|injection H6 as _ <-; unfold docsGrow; lia].
      refine (follows_Ok True docsGrow _ _ _ _ _ H6).
      follow.
    - intros Hf. rewrite (Hsplit Hf) in H6. now injection H6 as _ <-. }
  destruct Hshape as (parent & st1 & Hgrow & Hsame & Hend).
  apply (pushNodeOnStack_end st1 st' parent node t) in Hend
    as (m & Hm & Hc & Hmaps & Hcnt & Hts & Hns);
    [|exact Ht|unfold docsGrow in Hgrow; apply lookup_lt_Some in Hnd; lia].
  assert (Hlt : (counters st1 < length (maps st1))%nat)
    by (eapply lookup_lt_Some; eassumption).
  exists st1, m. repeat split; try assumption; try lia.
  intros c st2 [H2|H2].
  - unfold incCounter in H2. apply modify_Ok in H2. subst st2.
    destruct (maps st' !! counters st'); cbn [maps set_maps];
      rewrite ?list_lookup_insert_ne by lia;
      rewrite Hmaps; apply list_lookup_middle; now rewrite length_insert.
  - unfold resetCounter in H2. apply modify_Ok in H2. subst st2.
    destruct (maps st' !! counters st'); cbn [maps set_maps];
      rewrite ?list_lookup_insert_ne by lia;
      rewrite Hmaps; apply list_lookup_middle; now rewrite length_insert.
Qed.

Lemma pushNodeOnStack_counters_witness :
  exists st',
    pushNodeOnStack 1 1 figureState = Ok tt st' /\
    maps st' = [{["fig" := 5%Z]}; {["fig" := 5%Z]}] /\
    Counters <$> (docs st' !! 1%nat) = Some (Some 1%nat) /\
    counters st' = O /\
    exists m, maps figureState !! O = Some m /\
              maps st' = [pushedCounters figureTag m; pushedCounters figureTag m].
Proof.
  eexists. split; [vm_compute; reflexivity|].
  split; [vm_compute; reflexivity|]. split; [vm_compute; reflexivity|].
  split; [reflexivity|].
  match goal with |- exists m, _ /\ maps ?x = _ =>
    destruct (pushNodeOnStack_counters 1 1 figureState x
                (mkDoc "#figure" (Some 26%nat) None None None None [] [] (Some O) ∅ 0 0)
                26 figureTag)
      as (st1 & m & Hst1 & Hm & _ & Hmaps & _);
      [vm_compute; reflexivity|reflexivity|reflexivity|reflexivity|] end.
  rewrite (Hst1 eq_refl) in Hm, Hmaps.
  exists m. split; [exact Hm|]. rewrite Hmaps. reflexivity.
Defined.

(** ** Parser: names that are not registered *)

Lemma update_keeps (h : Heap) (id j : nat) (f : DocumentNode -> DocumentNode)
    (d' : DocumentNode) :
  (forall d, Tag (f d) = Tag d /\ TagDef (f d) = TagDef d /\ Text (f d) = Text d) ->
  update h id f !! j = Some d' ->
  exists d, h !! j = Some d /\ Tag d' = Tag d /\ TagDef d' = TagDef d /\ Text d' = Text d.
Proof.
  intros Hf H. destruct (decide (id = j)) as [->|Hne].
  - rewrite update_lookup_eq in H. destruct (h !! j) as [d|]; [|discriminate].
    injection H as <-. exists d. split; [reflexivity|apply Hf].
  - rewrite update_lookup_ne in H by exact Hne. exists d'. auto.
Qed.

Lemma appendChild_keeps (h : Heap) (parent child j : nat) (d' : DocumentNode) :
  appendChild h parent child !! j = Some d' ->
  exists d, h !! j = Some d /\ Tag d' = Tag d /\ TagDef d' = TagDef d /\ Text d' = Text d.
Proof.
  assert (Hstep : forall (h1 h2 : Heap),
    (forall j d', h2 !! j = Some d' ->
       exists d, h1 !! j = Some d /\ Tag d' = Tag d /\ TagDef d' = TagDef d
                 /\ Text d' = Text d) ->
    forall id f j d',
      (forall d, Tag (f d) = Tag d /\ TagDef (f d) = TagDef d /\ Text (f d) = Text d) ->
      update h2 id f !! j = Some d' ->
      exists d, h1 !! j = Some d /\ Tag d' = Tag d /\ TagDef d' = TagDef d
                /\ Text d' = Text d).
  { intros h1 h2 H12 id f k e Hf H.
    apply update_keeps in H as (d2 & H2 & Ha & Hb & Hc); [|exact Hf].
    apply H12 in H2 as (d1 & H1 & Ha' & Hb' & Hc').
    exists d1. repeat split; congruence. }
  unfold appendChild. revert j d'.
  intros j d'. apply Hstep; [|intros d; repeat split].
  clear j d'. intros j d'.
  destruct (update h child _ !! parent) as [p|].
  - destruct (last (Children p)) as [childPrev|].
    + apply Hstep; [|intros d; repeat split].
      clear j d'. intros j d'. apply Hstep; [|intros d; repeat split].
      clear j d'. intros j d'. apply update_keeps. intros d; repeat split.
    + apply update_keeps. intros d; repeat split.
  - apply update_keeps. intros d; repeat split.
Qed.

Lemma keepsNodes_refl (st : Parser) : keepsNodes st st.
Proof.
  split; [reflexivity|]. split; [reflexivity|].
  split; [exists []; now rewrite app_nil_r|]. split; [lia|].
  intros id d' H. rewrite H. auto.
Qed.

Lemma keepsNodes_trans (st1 st2 st3 : Parser) :
  keepsNodes st1 st2 -> keepsNodes st2 st3 -> keepsNodes st1 st3.
Proof.
  intros (Hg1 & Hs1 & (l1 & Hl1) & Hn1 & Hd1) (Hg2 & Hs2 & (l2 & Hl2) & Hn2 & Hd2).
  split; [congruence|]. split; [congruence|].
  split; [exists (l1 ++ l2)%list; rewrite Hl2, Hl1; now rewrite app_assoc|].
  split; [lia|]. intros id d3 H3. specialize (Hd2 id d3 H3).
  destruct (docs st2 !! id) as [d2|] eqn:H2.
  - specialize (Hd1 id d2 H2). destruct (docs st1 !! id) as [d1|].
    + destruct Hd2 as (? & ? & ?), Hd1 as (? & ? & ?). repeat split; congruence.
    + destruct Hd2 as (? & ? & ?). congruence.
  - destruct (docs st1 !! id) as [d1|] eqn:H1; [|exact Hd2].
    apply lookup_lt_Some in H1. apply lookup_ge_None in H2. lia.
Qed.

(** A change of the state that leaves the grammar, the styles, the log
    and the document nodes alone. *)
Lemma keepsNodes_same (st st' : Parser) :
  grammar st' = grammar st -> styles st' = styles st -> log st' = log st ->
  docs st' = docs st -> keepsNodes st st'.
Proof.
  intros Hg Hs Hl Hd. split; [exact Hg|]. split; [exact Hs|].
  split; [exists []; now rewrite app_nil_r|]. rewrite Hd. split; [lia|].
  intros id d' H. rewrite H. auto.
Qed.

Lemma keepsNodes_docs (st : Parser) (h : Heap) :
  (forall j d', h !! j = Some d' ->
     exists d, docs st !! j = Some d /\ Tag d' = Tag d /\ TagDef d' = TagDef d
               /\ Text d' = Text d) ->
  length h = length (docs st) ->
  keepsNodes st (set_docs st h).
Proof.
  intros Hk Hlen. split; [reflexivity|]. split; [reflexivity|].
  split; [exists []; now rewrite app_nil_r|]. simpl. split; [lia|].
  intros id d' H. apply Hk in H as (d & -> & H). exact H.
Qed.

Lemma keepsNodes_AtomicClose : AtomicClose keepsNodes.
Proof.
  constructor; try exact keepsNodes_refl; try exact keepsNodes_trans;
    try (intros; apply keepsNodes_same; reflexivity).
  intros st e. split; [reflexivity|]. split; [reflexivity|].
  split; [now exists [e]|]. split; [simpl; lia|].
  simpl. intros id d' H. rewrite H. auto.
Qed.

Lemma keepsNodes_AtomicOpen : AtomicOpen keepsNodes.
Proof.
  constructor; try (intros; apply keepsNodes_same; reflexivity).
  - exact keepsNodes_AtomicClose.
  - intros st tag tagdef indent. split; [reflexivity|]. split; [reflexivity|].
    split; [exists []; now rewrite app_nil_r|]. simpl. rewrite length_app. simpl.
    split; [lia|]. intros id d' H.
    destruct (docs st !! id) as [d|] eqn:Hd.
    + rewrite lookup_app_l in H by (eapply lookup_lt_Some; eassumption).
      rewrite Hd in H. injection H as <-. auto.
    + apply lookup_ge_None in Hd. rewrite lookup_app_r in H by exact Hd.
      destruct (id - length (docs st))%nat as [|k]; simpl in H; [|discriminate].
      now injection H as <-.
  - intros st id f Hf. apply keepsNodes_docs; [|apply update_length].
    intros j d'. apply update_keeps. intros d.
    destruct (Hf d) as (? & ? & _ & _ & _ & _ & ? & _). auto.
  - intros st parent child. apply keepsNodes_docs; [|apply appendChild_length].
    intros j d'. apply appendChild_keeps.
Qed.

Lemma keepsNodes_Atomic : Atomic keepsNodes.
Proof.
  constructor; try (intros; apply keepsNodes_same; reflexivity).
  - exact keepsNodes_AtomicOpen.
  - intros st. unfold scanned. destruct (Scan (s st)) as [[[? ?] ?] ?].
    now apply keepsNodes_same.
Qed.

Lemma getTag_Ok (tagname : string) (t : option nat) (st st' : Parser) :
  getTag tagname st = Ok t st' -> t = GetTag (grammar st) tagname /\ st' = st.
Proof.
  unfold getTag. intros H. apply bind_Ok in H as (? & ? & H0 & H).
  apply get_Ok in H0 as [-> ->]. now injection H as <- <-.
Qed.

Lemma logf_Ok (e : LogEntry) (st st' : Parser) (u : unit) :
  logf e st = Ok u st' -> st' = set_log st (log st ++ [e])%list.
Proof. unfold logf. apply modify_Ok. Qed.

Lemma newDocumentNode_Ok (tag : string) (indent : Z) (x id : nat) (st st' : Parser) :
  GetTag (grammar st) tag = Some x ->
  newDocumentNode tag indent st = Ok id st' ->
  id = length (docs st) /\
  st' = set_docs st (docs st ++ [mkDoc tag (Some x) None None None None [] []
                                       (Some (rootNode st)) ∅ 0%Z indent])%list.
Proof.
  intros Hx H. unfold newDocumentNode in H.
  apply bind_Ok in H as (t & ? & H1 & H). apply getTag_Ok in H1 as [-> ->].
  rewrite Hx in H.
  apply bind_Ok in H as (? & ? & H1 & H). injection H1 as <- <-.
  apply bind_Ok in H as (? & ? & H1 & H). apply get_Ok in H1 as [-> ->].
  apply bind_Ok in H as (? & ? & H1 & H). apply modify_Ok in H1 as ->.
  injection H as <- <-. auto.
Qed.

Lemma section_unknown (n : nat) (st st' : Parser) :
  GetTag (grammar st) (nameOf (tokenStr st)) = None ->
  section n st = Ok tt st' ->
  exists p pd d l,
    GetTag (grammar st) "#p" = Some p /\ Tags (grammar st) !! p = Some pd /\
    docs st' !! length (docs st) = Some d /\ Tag d = "#p" /\ TagDef d = Some p /\
    log st' = (log st ++ LogUnknownTag (FromLine (tokenPos st)) (nameOf (tokenStr st))
                 :: l)%list.
Proof.
  intros Hnone H. unfold section in H.
  pose proof keepsNodes_Atomic as HR.
  apply bind_Ok in H as (? & ? & H1 & H). apply get_Ok in H1 as [-> ->].
  fold (nameOf (tokenStr st)) in H. fold (valueOf (tokenStr st)) in H.
  apply bind_Ok in H as (t & ? & H1 & H). apply getTag_Ok in H1 as [-> ->].
  rewrite Hnone in H.
  apply bind_Ok in H as (tag & sa & H1 & H).
  apply bind_Ok in H1 as (? & ? & H2 & H3). apply logf_Ok in H2 as ->.
  apply getTag_Ok in H3 as [-> ->]. cbn [grammar set_log] in H.
  apply bind_Ok in H as (pd & ? & H1 & H).
  apply tagOf_Ok in H1 as (p & Hp & Hpd & ->). cbn [grammar set_log] in Hpd.
  assert (Hname : Name pd = "#p").
  { unfold GetTag in Hp. apply GetTag_loop_Some in Hp as (_ & (t & Ht & Hn) & _).
    congruence. }
  apply bind_Ok in H as ([] & sb & H1 & H).
  assert (Hsb : docs sb = docs st /\ grammar sb = grammar st /\
                log sb = (log st ++ [LogUnknownTag (FromLine (tokenPos st))
                                       (nameOf (tokenStr st))])%list).
  { destruct (TagSectionMode pd); unfold set_scannerLayout in H1;
      first [apply modify_Ok in H1 as ->|injection H1 as <-]; auto. }
  destruct Hsb as (Hdocs & Hgram & Hlog). clear H1.
  apply bind_Ok in H as (node & sd & H1 & H).
  unfold openTag in H1.
  apply bind_Ok in H1 as (pd' & ? & H2 & H1).
  apply tagOf_Ok in H2 as (p' & Hp' & Hpd' & ->).
  assert (p' = p) as -> by congruence.
  assert (pd' = pd) as -> by (rewrite Hgram in Hpd'; congruence).
  apply bind_Ok in H1 as (? & ? & H2 & H1). apply get_Ok in H2 as [-> ->].
  apply bind_Ok in H1 as (id & sc & H2 & H1).
  rewrite Hname in H2.
  apply (newDocumentNode_Ok _ _ p) in H2 as [-> ->]; [|now rewrite Hgram].
  assert (F1 : keepsNodes
                 (set_docs sb (docs sb ++ [mkDoc "#p" (Some p) None None None None [] []
                                             (Some (rootNode sb)) ∅ 0%Z (indent (s sb))])%list)
                 sd).
  { refine (follows_Ok True keepsNodes _ _ _ _ _ H1). follow. }
  assert (F2 : keepsNodes sd st').
  { refine (follows_Ok True keepsNodes _ _ _ _ _ H). follow. }
  destruct (keepsNodes_trans _ _ _ F1 F2) as (_ & _ & (l & Hl) & _ & Hd).
  cbn [log docs set_docs] in Hl, Hd.
  destruct (docs st' !! length (docs st)) as [d|] eqn:Hnode.
  - specialize (Hd _ _ Hnode). rewrite <- Hdocs in Hd.
    rewrite list_lookup_middle in Hd by reflexivity.
    destruct Hd as (Ha & Hb & _).
    exists p, pd, d, l. repeat split; try assumption.
    rewrite Hl, Hlog, <- app_assoc. reflexivity.
  - exfalso. destruct (keepsNodes_trans _ _ _ F1 F2) as (_ & _ & _ & Hlen & _).
    cbn [docs set_docs] in Hlen. rewrite length_app in Hlen. simpl in Hlen.
    apply lookup_ge_None in Hnode. rewrite Hdocs in Hlen. lia.
Qed.

Lemma anyState_Atomic : Atomic anyState.
Proof. repeat constructor. Qed.

Lemma section_quiet (n : nat) (st st' : Parser) (e : ParseError) :
  section n st <> Return e st'.
Proof.
  intros H. pose proof (follows_section False anyState n anyState_Atomic st) as F.
  rewrite H in F. now destruct F.
Qed.


Lemma caseEntity_unknown (n : nat) (st st' : Parser) :
  GetEntity (grammar st) (nameOf (tokenStr st)) = None ->
  caseEntity n st = Ok tt st' ->
  keepsNodes st st' /\
  exists l line off,
    log st' = (log st ++ l ++ [LogUnknownEntity line off (nameOf (tokenStr st))])%list.
Proof.
  intros Hnone H. unfold caseEntity in H.
  pose proof keepsNodes_Atomic as HR.
  apply bind_Ok in H as ([] & sa & H1 & H).
  pose proof (follows_Ok True sameToken _ _ _ _
                (follows_tableCell True _ n sameToken_AtomicOpen) H1) as (_ & Htok & _).
  apply (follows_Ok True keepsNodes) in H1; [|apply follows_tableCell; atomicOpen].
  apply bind_Ok in H as (? & ? & H2 & H). apply get_Ok in H2 as [-> ->].
  fold (nameOf (tokenStr sa)) in H. fold (valueOf (tokenStr sa)) in H.
  apply bind_Ok in H as (attribs & sb & H2 & H).
  apply (follows_Ok True keepsNodes) in H2; [|now apply follows_parseAttributes].
  apply bind_Ok in H as (? & ? & H3 & H). apply get_Ok in H3 as [-> ->].
  pose proof (keepsNodes_trans _ _ _ H1 H2) as H12.
  pose proof H12 as (Hg & _ & (l & Hl) & _).
  rewrite Hg, Htok, Hnone in H. apply logf_Ok in H as ->.
  split.
  - apply (keepsNodes_trans _ sb); [exact H12|]. apply (a_log _ (a_close _ (a_open _ HR))).
  - exists l, (lineCount (s sb)), (lineOffset (s sb)). cbn [log set_log].
    rewrite Hl, <- app_assoc. reflexivity.
Qed.

Lemma styleAttributes_Ok (n node : nat) (st st' : Parser) :
  styleAttributes n node st = Ok tt st' ->
  docs st' = docs st /\ log st' = log st /\ styleStack st' = styleStack st /\
  length (styles st') = length (styles st) /\
  (forall q, q <> node -> styles st' !! q = styles st !! q) /\
  (forall sn, styles st !! node = Some sn ->
     exists a, styles st' !! node
               = Some (mkStyleNode (StName sn) (StDef sn) a (StParent sn) (StText sn)
                                   (StValue sn)) /\
               forall k, is_Some (StAttributes sn !! k) -> is_Some (a !! k)).
Proof.
  revert st. induction n as [|n IH]; intros st; simpl; unfold bind at 1, get;
    destruct (bool_decide (token st = TokenValue)); try discriminate.
  - intros [= <-]. repeat split; try reflexivity.
    intros sn Hsn. exists (StAttributes sn). split; [|auto]. rewrite Hsn. now destruct sn.
  - intros H. apply bind_Ok in H as (sn0 & ? & H1 & H).
    unfold style in H1. apply bind_Ok in H1 as (? & ? & H1 & H2).
    apply get_Ok in H1 as [-> ->]. apply some_Ok in H2 as [Hsn0 ->].
    apply bind_Ok in H as (? & sa & H1 & H). apply modify_Ok in H1.
    apply bind_Ok in H as (? & sb & H2 & H). apply modify_Ok in H2.
    apply IH in H as (Hd & Hl & Hs & Hlen & Hother & Hnode). subst sb sa.
    unfold scanned in *. destruct (Scan _) as [[[? ?] ?] ?].
    cbn [docs log styleStack styles set_styles set_scanner set_tokenStr set_token
         set_tokenPos] in *.
    assert (Hlt : node < length (styles st)) by (eapply lookup_lt_Some; eassumption).
    rewrite length_insert in Hlen.
    repeat split; try assumption.
    + intros q Hq. rewrite Hother by exact Hq. now apply list_lookup_insert_ne.
    + intros sn Hsn. assert (sn0 = sn) as -> by congruence.
      destruct (Hnode _ (list_lookup_insert_eq _ _ _ Hlt)) as (a & Ha & Hk).
      cbn [StName StDef StParent StText StValue StAttributes] in Ha, Hk.
      exists a. split; [exact Ha|]. intros k Hsome. apply Hk.
      destruct (Index _ _ =? -1)%Z; cbn [negb];
        match goal with |- is_Some (<[?k':=_]> _ !! _) =>
          destruct (decide (k' = k)) as [->|Hne];
            [rewrite lookup_insert_eq; eauto|now rewrite lookup_insert_ne] end.
  - intros [= <-]. repeat split; try reflexivity.
    intros sn Hsn. exists (StAttributes sn). split; [|auto]. rewrite Hsn. now destruct sn.
Qed.

Lemma scanned_fields (st : Parser) :
  docs (scanned st) = docs st /\ styles (scanned st) = styles st /\
  log (scanned st) = log st /\ styleStack (scanned st) = styleStack st /\
  grammar (scanned st) = grammar st.
Proof. unfold scanned. destruct (Scan (s st)) as [[[? ?] ?] ?]. repeat split. Qed.

Lemma namedStyle_unknown (n : nat) (p : NodeRef) (st st' : Parser) :
  token st = TokenValue ->
  GetStyle (grammar st) (nameOf (tokenStr st)) = None ->
  namedStyle n p st = Ok tt st' ->
  exists a text,
    styles st' !! length (styles st) = Some (mkStyleNode "-css-" None a p text "") /\
    is_Some (a !! nameOf (tokenStr st)) /\
    styleStack st' = (styleStack st ++ [length (styles st)])%list /\
    log st' = log st /\
    appended p (LStyle (length (styles st))) st st'.
Proof.
  intros Htok Hnone H. unfold namedStyle in H.
  apply bind_Ok in H as (? & ? & H1 & H). apply get_Ok in H1 as [-> ->].
  rewrite Htok in H. rewrite bool_decide_eq_true_2 in H by reflexivity. cbn [negb] in H.
  fold (nameOf (tokenStr st)) in H. fold (valueOf (tokenStr st)) in H.
  rewrite Hnone in H.
  set (name := nameOf (tokenStr st)) in *. set (value := valueOf (tokenStr st)) in *.
  set (id := length (styles st)).
  apply bind_Ok in H as (node & s1 & H1 & H).
  unfold newStyle in H1.
  apply bind_Ok in H1 as (? & ? & H1 & H2). apply get_Ok in H1 as [-> ->].
  apply bind_Ok in H2 as (? & ? & H1 & H2). apply modify_Ok in H1 as ->.
  injection H2 as <- <-. fold id in H.
  apply bind_Ok in H as ([] & s2 & H2 & H).
  apply bind_Ok in H as ([] & s3 & H3 & H). apply modify_Ok in H3.
  apply bind_Ok in H as ([] & s4 & H4 & H).
  unfold pushStyle in H. apply modify_Ok in H.
  apply styleAttributes_Ok in H4 as (Hd & Hl & Hs & Hlen & Hother & Hnode).
  destruct (scanned_fields s2) as (Sd & Ss & Sl & Sk & _). rewrite <- H3 in Sd, Ss, Sl, Sk.
  rewrite Sd in Hd. rewrite Sl in Hl. rewrite Sk in Hs. rewrite Ss in Hlen, Hother, Hnode.
  clear H3 Sd Ss Sl Sk.
  assert (Hnew : forall l : list StyleNode, (styles st ++ l)%list !! id = l !! O).
  { intros l. rewrite lookup_app_r by (unfold id; lia).
    unfold id. now rewrite Nat.sub_diag. }
  destruct p as [d|q]; simpl in H2.
  - apply bind_Ok in H2 as (dn & ? & H2 & H2'). apply doc_Ok in H2 as [Hdn ->].
    unfold setDoc in H2'. apply modify_Ok in H2'. subst s2.
    cbn [docs styles log styleStack set_docs set_styles] in *.
    destruct (Hnode _ (Hnew _)) as (a & Ha & Hk).
    cbn [StName StDef StParent StText StValue StAttributes] in Ha, Hk.
    exists a, []. subst st'. cbn [styles log styleStack set_styleStack docs].
    split; [exact Ha|]. split; [apply Hk; rewrite lookup_insert_eq; eauto|].
    split; [now rewrite Hs|]. split; [exact Hl|].
    unfold appended. cbn [docs set_styleStack].
    rewrite Hd, update_lookup_eq, Hdn. reflexivity.
  - apply bind_Ok in H2 as (snq & ? & H2 & H2').
    unfold style in H2. apply bind_Ok in H2 as (? & ? & H2 & H2'').
    apply get_Ok in H2 as [-> ->]. apply some_Ok in H2'' as [Hq ->].
    apply modify_Ok in H2'. subst s2.
    cbn [docs styles log styleStack set_docs set_styles] in *.
    assert (Hqlt : q < length (styles st ++ [mkStyleNode "-css-" None (<[name:=value]> ∅)
                                              (RStyle q) [] ""])%list)
      by (eapply lookup_lt_Some; eassumption).
    destruct (decide (q = id)) as [->|Hne].
    + rewrite Hnew in Hq. injection Hq as <-.
      destruct (Hnode _ (list_lookup_insert_eq _ _ _ Hqlt)) as (a & Ha & Hk).
      cbn [StName StDef StParent StText StValue StAttributes] in Ha, Hk.
      exists a, [LStyle id]. subst st'. cbn [styles log styleStack set_styleStack docs].
      split; [exact Ha|]. split; [apply Hk; rewrite lookup_insert_eq; eauto|].
      split; [now rewrite Hs|]. split; [exact Hl|].
      unfold appended. fold id. intros Hlt. lia.
    + assert (Hid : <[q:=mkStyleNode (StName snq) (StDef snq) (StAttributes snq) (StParent snq)
                         (StText snq ++ [LStyle id])%list (StValue snq)]>
                      (styles st ++ [mkStyleNode "-css-" None (<[name:=value]> ∅)
                                       (RStyle q) [] ""])%list !! id
                    = Some (mkStyleNode "-css-" None (<[name:=value]> ∅) (RStyle q) [] "")).
      { rewrite list_lookup_insert_ne by exact Hne. now rewrite Hnew. }
      destruct (Hnode _ Hid) as (a & Ha & Hk).
      cbn [StName StDef StParent StText StValue StAttributes] in Ha, Hk.
      exists a, []. subst st'. cbn [styles log styleStack set_styleStack docs].
      split; [exact Ha|]. split; [apply Hk; rewrite lookup_insert_eq; eauto|].
      split; [now rewrite Hs|]. split; [exact Hl|].
      unfold appended. fold id. cbn [styles set_styleStack]. intros Hlt.
      rewrite Hother by exact Hne. rewrite list_lookup_insert_eq by exact Hqlt.
      rewrite lookup_app_l in Hq by exact Hlt. rewrite Hq. reflexivity.
Qed.




(** ** Parser: list markers *)

Local Open Scope Z_scope.

Lemma onlyStacks_AtomicClose : AtomicClose onlyStacks.
Proof.
  constructor; try (intros; repeat split; reflexivity).
  intros st1 st2 st3 (A1 & A2 & A3 & A4 & A5 & A6 & A7 & A8)
         (B1 & B2 & B3 & B4 & B5 & B6 & B7 & B8).
  repeat split; congruence.
Qed.

Lemma NewGrammar_lists : listGrammar NewGrammar 2 4 3.
Proof.
  repeat split; try (vm_compute; reflexivity).
  - eexists. split; [vm_compute; reflexivity|]. repeat split.
  - eexists. split; [vm_compute; reflexivity|]. repeat split.
  - eexists. split; [vm_compute; reflexivity|]. repeat split.
Qed.

Lemma stackTag_Ok (i : Z) (t : nat) (st st' : Parser) :
  stackTag i st = Ok t st' ->
  0 <= i /\ tagStack st !! Z.to_nat i = Some t /\ st' = st.
Proof.
  unfold stackTag. intros H. apply bind_Ok in H as (? & ? & H0 & H).
  apply get_Ok in H0 as [-> ->]. destruct (i <? 0) eqn:Hi; [discriminate|].
  apply Z.ltb_ge in Hi. apply some_Ok in H as [H ->]. auto.
Qed.

Lemma nodeAt_Ok (i : Z) (n : nat) (st st' : Parser) :
  nodeAt i st = Ok n st' ->
  0 <= i /\ nodeStack st !! Z.to_nat i = Some n /\ st' = st.
Proof.
  unfold nodeAt. intros H. apply bind_Ok in H as (? & ? & H0 & H).
  apply get_Ok in H0 as [-> ->]. destruct (i <? 0) eqn:Hi; [discriminate|].
  apply Z.ltb_ge in Hi. apply some_Ok in H as [H ->]. auto.
Qed.

Lemma ret_Ok {A : Type} (a b : A) (st st' : Parser) :
  ret a st = Ok b st' -> b = a /\ st' = st.
Proof. now intros [= <- <-]. Qed.

(** [isPossibleParent] only reads the state. *)
Lemma isPossibleParent_state (n : nat) (parent : DocumentNode) (child : option nat)
    (childIndent depth r : Z) (st st' : Parser) :
  isPossibleParent n parent child childIndent depth st = Ok r st' -> st' = st.
Proof.
  revert child depth st. induction n as [|n IH]; intros child depth st; simpl;
    (destruct child as [c|]; [|now intros [= _ <-]]); intros H;
    apply bind_Ok in H as (cd & ? & H1 & H); apply tagAt_Ok in H1 as [_ ->];
    apply bind_Ok in H as (fits & sa & H1 & H);
    assert (sa = st) as ->
      by (destruct (allowedInParentHood cd);
          [apply bind_Ok in H1 as (? & ? & H1 & H2);
           apply tagOf_Ok in H1 as (? & _ & _ & ->); now apply ret_Ok in H2
          |now apply ret_Ok in H1]);
    apply bind_Ok in H as (named & sb & H2 & H);
    assert (sb = st) as ->
      by (destruct (PossibleParents cd);
          [now apply ret_Ok in H2
          |apply bind_Ok in H2 as (? & ? & H2 & H3);
           apply tagOf_Ok in H2 as (? & _ & _ & ->); now apply ret_Ok in H3]);
    destruct (fits || named); try (now apply ret_Ok in H);
    destruct (DefaultParent cd) as [dp|]; try (now apply ret_Ok in H);
    destruct (String.eqb dp "#root"); try (now apply ret_Ok in H);
    try discriminate.
  apply bind_Ok in H as (c1 & ? & H3 & H). apply getTag_Ok in H3 as [_ ->].
  now apply IH in H.
Qed.

(** A list tag below an item: it fits nowhere. *)
Lemma isPossibleParent_item (n : nat) (parent : DocumentNode) (e : nat)
    (ed ld : TagDefinition) (i : nat) (childIndent r : Z) (st st' : Parser) :
  Tags (grammar st) !! e = Some ed -> isList ed ->
  TagDef parent = Some i -> Tags (grammar st) !! i = Some ld ->
  TagParentHood ld = TextParentHood ->
  isPossibleParent n parent (Some e) childIndent 0 st = Ok r st' -> r = -1.
Proof.
  intros He (Hdp & Hpp & Hhood & Hfc & Hall) Hi Hld Htext H.
  destruct n as [|n]; simpl in H;
    apply bind_Ok in H as (cd & ? & H1 & H); apply tagAt_Ok in H1 as [H1 ->];
    assert (cd = ed) as -> by congruence;
    rewrite Hall, Hpp, Hdp in H;
    apply bind_Ok in H as (fits & ? & H2 & H);
    apply bind_Ok in H2 as (ptd & ? & H2 & H3);
    apply tagOf_Ok in H2 as (i' & Hi' & Hptd & ->);
    assert (ptd = ld) as -> by congruence;
    apply ret_Ok in H3 as [-> ->];
    rewrite Htext in H;
    apply bind_Ok in H as (named & ? & H4 & H); apply ret_Ok in H4 as [-> ->];
    simpl in H; now apply ret_Ok in H.
Qed.

(** A list tag below a list: it fits when the indent is greater. *)
Lemma isPossibleParent_list (n : nat) (parent : DocumentNode) (e : nat)
    (ed ud : TagDefinition) (tU : nat) (childIndent r : Z) (st st' : Parser) :
  Tags (grammar st) !! e = Some ed -> isList ed ->
  TagDef parent = Some tU -> Tags (grammar st) !! tU = Some ud -> isList ud ->
  isPossibleParent n parent (Some e) childIndent 0 st = Ok r st' ->
  r = if Indent parent <? childIndent then 0 else -1.
Proof.
  intros He (Hdp & Hpp & Hhood & Hfc & Hall) Hi Hud (_ & _ & Hind & _) H.
  destruct n as [|n]; simpl in H;
    apply bind_Ok in H as (cd & ? & H1 & H); apply tagAt_Ok in H1 as [H1 ->];
    assert (cd = ed) as -> by congruence;
    rewrite Hall, Hpp, Hdp in H;
    apply bind_Ok in H as (fits & ? & H2 & H);
    apply bind_Ok in H2 as (ptd & ? & H2 & H3);
    apply tagOf_Ok in H2 as (i' & Hi' & Hptd & ->);
    assert (ptd = ud) as -> by congruence;
    apply ret_Ok in H3 as [-> ->];
    rewrite Hind in H;
    apply bind_Ok in H as (named & ? & H4 & H); apply ret_Ok in H4 as [-> ->];
    rewrite (bool_decide_eq_true_2 (IndentParentHood = IndentParentHood)) in H
      by reflexivity;
    rewrite !bool_decide_eq_false_2 in H by discriminate;
    simpl in H; rewrite orb_false_r in H;
    destruct (Indent parent <? childIndent); simpl in H; now apply ret_Ok in H.
Qed.

Local Close Scope Z_scope.

(** *** What the single functions do to the stacks and the nodes *)

Lemma closeStyles_fields (st st' : Parser) :
  closeStyles st = Ok tt st' ->
  onlyStacks st st' /\ tagStack st' = tagStack st /\ nodeStack st' = nodeStack st.
Proof.
  intros H. split.
  - exact (follows_Ok True onlyStacks _ _ _ _
             (follows_closeStyles True _ onlyStacks_AtomicClose) H).
  - unfold closeStyles in H. apply bind_Ok in H as (? & ? & H0 & H).
    apply get_Ok in H0 as [-> ->]. apply bind_Ok in H as ([] & sa & H1 & H).
    apply closeStyles_loop_stacks in H1 as (Ha & Hb & _).
    apply modify_Ok in H as ->. simpl. auto.
Qed.

Lemma removelast_take {A : Type} (l : list A) :
  removelast l = take (length l - 1) l.
Proof.
  induction l as [|x l IH]; [reflexivity|].
  destruct l as [|y l]; [reflexivity|].
  change (removelast (x :: y :: l)) with (x :: removelast (y :: l)).
  rewrite IH. simpl. now rewrite Nat.sub_0_r.
Qed.

Lemma closeTags_loop_take (n : nat) (level : Z) (st st' : Parser) :
  (0 <= level)%Z ->
  closeTags_loop n level st = Ok tt st' ->
  onlyStacks st st' /\
  tagStack st' = take (Z.to_nat level) (tagStack st) /\
  nodeStack st'
  = take (length (nodeStack st) - (length (tagStack st) - Z.to_nat level))
         (nodeStack st) /\
  styleStack st' = styleStack st /\ log st' = log st.
Proof.
  intros Hlevel. revert st. induction n as [|n IH]; intros st; simpl;
    unfold bind at 1, get; unfold len_list;
    destruct (Z.of_nat (length (tagStack st)) >? level)%Z eqn:Hc; try discriminate.
  - intros [= <-]. rewrite Z.gtb_ltb in Hc. apply Z.ltb_ge in Hc.
    split; [repeat split|]. rewrite take_ge by lia.
    replace (length (tagStack st) - Z.to_nat level) with O by lia.
    rewrite Nat.sub_0_r, take_ge by lia. auto.
  - intros H. apply bind_Ok in H as ([] & s1 & H1 & H).
    apply bind_Ok in H as ([] & s2 & H2 & H).
    apply popTag_Ok in H1 as [Ht ->]. apply popNode_Ok in H2 as [Hn ->].
    apply IH in H as (Ho & Hts & Hns & Hss & Hl). clear IH.
    cbn [tagStack nodeStack set_tagStack set_nodeStack styleStack log] in *.
    rewrite Z.gtb_ltb in Hc. apply Z.ltb_lt in Hc.
    split; [destruct Ho as (A1 & A2 & A3 & A4 & A5 & A6 & A7 & A8); repeat split;
            assumption|].
    rewrite Hts, Hns, !removelast_take, !length_take.
    rewrite !take_take. split; [f_equal; lia|].
    split; [|auto].
    assert (length (nodeStack st) <> O) by (destruct (nodeStack st); simpl; congruence).
    f_equal. lia.
  - intros [= <-]. rewrite Z.gtb_ltb in Hc. apply Z.ltb_ge in Hc.
    split; [repeat split|]. rewrite take_ge by lia.
    replace (length (tagStack st) - Z.to_nat level) with O by lia.
    rewrite Nat.sub_0_r, take_ge by lia. auto.
Qed.

Lemma closeTags_fields (level : Z) (st st' : Parser) :
  (0 <= level)%Z ->
  closeTags level st = Ok tt st' ->
  onlyStacks st st' /\
  tagStack st' = take (Z.to_nat level) (tagStack st) /\
  nodeStack st'
  = take (length (nodeStack st) - (length (tagStack st) - Z.to_nat level))
         (nodeStack st).
Proof.
  intros Hlevel H.
  pose proof (follows_Ok True onlyStacks _ _ _ _
                (follows_closeTags True _ level onlyStacks_AtomicClose) H) as Ho.
  split; [exact Ho|].
  unfold closeTags in H.
  apply bind_Ok in H as ([] & s1 & H1 & H). apply closeStyles_fields in H1 as (_ & Ht1 & Hn1).
  apply bind_Ok in H as (? & ? & H2 & H). apply get_Ok in H2 as [-> ->].
  apply bind_Ok in H as ([] & s2 & H2 & H).
  apply closeTags_loop_take in H2 as (_ & Ht2 & Hn2 & _); [|exact Hlevel].
  apply bind_Ok in H as (? & ? & H3 & H). apply get_Ok in H3 as [-> ->].
  assert (Hst : tagStack st' = tagStack s2 /\ nodeStack st' = nodeStack s2).
  { destruct (last (tagStack s2)).
    - apply bind_Ok in H as (? & ? & H3 & H). apply tagAt_Ok in H3 as [_ ->].
      apply modify_Ok in H as ->. auto.
    - apply modify_Ok in H as ->. auto. }
  destruct Hst as [-> ->]. rewrite Ht2, Hn2, Ht1, Hn1. auto.
Qed.

Lemma pushNodeOnStack_plain (n node parent t : nat) (nd : DocumentNode)
    (td : TagDefinition) (st st' : Parser) :
  docs st !! node = Some nd -> TagDef nd = Some t ->
  Tags (grammar st) !! t = Some td -> FirstChild td = false ->
  last (nodeStack st) = Some parent ->
  pushNodeOnStack n node st = Ok tt st' ->
  docs st' = update (appendChild (docs st) parent node) node
                    (fun d => set_Counters d (Some (length (maps st)))) /\
  tagStack st' = (tagStack st ++ [t])%list /\
  nodeStack st' = (nodeStack st ++ [node])%list /\
  grammar st' = grammar st /\ s st' = s st /\ tokenStr st' = tokenStr st /\
  styleStack st' = styleStack st.
Proof.
  intros Hnd Ht Htd Hfc Hlast H.
  assert (Hend :
    (modify (fun st => set_docs st (appendChild (docs st) parent node)) ;;
     resetCounter (ResetCounter td) ;;
     incCounter (Counter td) ;;
     copyCounter node ;;
     t <- some (TagDef nd) ;;
     modify (fun st => set_tagStack st (tagStack st ++ [t])%list) ;;
     modify (fun st => set_nodeStack st (nodeStack st ++ [node])%list)) st = Ok tt st').
  { destruct n as [|n]; simpl in H;
      apply bind_Ok in H as (parent' & ? & H1 & H); apply topNode_Ok in H1 as [H1 ->];
      assert (parent' = parent) as -> by congruence;
      apply bind_Ok in H as (nd' & ? & H2 & H); apply doc_Ok in H2 as [H2 ->];
      assert (nd' = nd) as -> by congruence;
      apply bind_Ok in H as (td' & ? & H3 & H);
      apply tagOf_Ok in H3 as (t' & H3 & H3' & ->);
      assert (td' = td) as -> by congruence;
      apply bind_Ok in H as (par & ? & H4 & H); apply doc_Ok in H4 as [_ ->];
      rewrite Hfc in H; cbn [andb] in H;
      apply bind_Ok in H as (sp & ? & H5 & H); apply ret_Ok in H5 as [-> ->];
      apply bind_Ok in H as (p2 & ? & H6 & H); apply ret_Ok in H6 as [-> ->];
      exact H. }
  clear H.
  apply bind_Ok in Hend as (? & sa & H1 & H). apply modify_Ok in H1. subst sa.
  apply bind_Ok in H as (? & sb & H2 & H). unfold resetCounter in H2.
  apply modify_Ok in H2.
  apply bind_Ok in H as (? & sc & H3 & H). unfold incCounter in H3.
  apply modify_Ok in H3.
  apply bind_Ok in H as ([] & sd & H4 & H). apply copyCounter_Ok in H4 as (m' & Hm' & H4).
  apply bind_Ok in H as (t' & se & H5 & H). apply some_Ok in H5 as [H5 H5'].
  apply bind_Ok in H as (? & sf & H6 & H). apply modify_Ok in H6.
  apply modify_Ok in H.
  assert (t' = t) as -> by congruence.
  assert (Hsb : docs sb = appendChild (docs st) parent node /\
                length (maps sb) = length (maps st) /\
                tagStack sb = tagStack st /\ nodeStack sb = nodeStack st /\
                grammar sb = grammar st /\ s sb = s st /\ tokenStr sb = tokenStr st /\
                styleStack sb = styleStack st).
  { subst sb. cbn [maps counters set_docs]. destruct (maps st !! counters st);
      cbn [docs maps set_maps set_docs tagStack nodeStack grammar s tokenStr styleStack];
      rewrite ?length_insert; repeat split. }
  assert (Hsc : docs sc = docs sb /\ length (maps sc) = length (maps sb) /\
                tagStack sc = tagStack sb /\ nodeStack sc = nodeStack sb /\
                grammar sc = grammar sb /\ s sc = s sb /\ tokenStr sc = tokenStr sb /\
                styleStack sc = styleStack sb).
  { subst sc. destruct (maps sb !! counters sb);
      cbn [docs maps set_maps set_docs tagStack nodeStack grammar s tokenStr styleStack];
      rewrite ?length_insert; repeat split. }
  destruct Hsb as (B1 & B2 & B3 & B4 & B5 & B6 & B7 & B8).
  destruct Hsc as (C1 & C2 & C3 & C4 & C5 & C6 & C7 & C8).
  subst st' sf se sd.
  cbn [docs maps set_maps set_docs tagStack nodeStack grammar s tokenStr styleStack
       set_tagStack set_nodeStack].
  rewrite C1, B1, C2, B2, C3, B3, C4, B4, C5, B5, C6, B6, C7, B7, C8, B8.
  repeat split.
Qed.

Lemma parseAttributes_loop_fields (n : nat) (tag : option nat)
    (attributes r : gmap string string) (st st' : Parser) :
  parseAttributes_loop n tag attributes st = Ok r st' ->
  docs st' = docs st /\ grammar st' = grammar st /\ tagStack st' = tagStack st /\
  nodeStack st' = nodeStack st /\ maps st' = maps st.
Proof.
  revert attributes st. induction n as [|n IH]; intros attributes st; simpl;
    unfold bind at 1, get; destruct (bool_decide (token st = TokenValue));
    try discriminate; try (intros [= _ <-]; repeat split).
  intros H. apply bind_Ok in H as (? & sa & H1 & H).
  assert (sa = st) as ->.
  { destruct tag; [|now apply ret_Ok in H1].
    apply bind_Ok in H1 as (? & ? & H1 & H2). apply tagAt_Ok in H1 as [_ ->].
    now apply ret_Ok in H2. }
  apply bind_Ok in H as (? & sb & H2 & H). apply modify_Ok in H2 as ->.
  apply IH in H as (A1 & A2 & A3 & A4 & A5).
  unfold scanned in *. destruct (Scan (s st)) as [[[? ?] ?] ?]. simpl in *. auto.
Qed.

Lemma parseAttributes_fields (n : nat) (tag : option nat) (r : gmap string string)
    (st st' : Parser) :
  parseAttributes n tag st = Ok r st' ->
  docs st' = docs st /\ grammar st' = grammar st /\ tagStack st' = tagStack st /\
  nodeStack st' = nodeStack st /\ maps st' = maps st.
Proof.
  unfold parseAttributes. intros H.
  apply bind_Ok in H as (? & sa & H1 & H). apply modify_Ok in H1 as ->.
  apply parseAttributes_loop_fields in H as (A1 & A2 & A3 & A4 & A5).
  unfold scanned in *. destruct (Scan (s st)) as [[[? ?] ?] ?]. simpl in *. auto.
Qed.

(** [openTag2] without the search for a parent: the node goes below the
    innermost open node. *)
Lemma openTag2_below (n node parent t : nat) (nd : DocumentNode) (td : TagDefinition)
    (st st' : Parser) :
  docs st !! node = Some nd -> TagDef nd = Some t ->
  Tags (grammar st) !! t = Some td -> FirstChild td = false ->
  last (nodeStack st) = Some parent ->
  openTag2 n (Some t) node false st = Ok tt st' ->
  (exists c, docs st' = update (appendChild (docs st) parent node) node
                               (fun d => set_Counters d (Some c))) /\
  tagStack st' = (tagStack st ++ [t])%list /\
  nodeStack st' = (nodeStack st ++ [node])%list /\
  grammar st' = grammar st.
Proof.
  intros Hnd Ht Htd Hfc Hlast H. unfold openTag2 in H.
  apply bind_Ok in H as ([] & sa & H1 & H).
  apply closeStyles_fields in H1 as ((G & D & _) & T & N).
  apply bind_Ok in H as ([] & ? & H2 & H). apply ret_Ok in H2 as [_ ->].
  apply bind_Ok in H as ([] & sb & H2 & H).
  apply (pushNodeOnStack_plain _ _ parent t nd td) in H2
    as (D2 & T2 & N2 & G2 & _); try congruence.
  apply bind_Ok in H as (? & ? & H3 & H). apply tagOf_Ok in H3 as (? & _ & _ & ->).
  apply modify_Ok in H as ->. cbn [docs tagStack nodeStack grammar set_secmode].
  rewrite D2, T2, N2, G2, D, T, N, G. split; [eexists; reflexivity|auto].
Qed.

(** [openTag2] for a list tag when the innermost open tag is a list of
    smaller indent: the list goes below it, nothing is closed. *)
Lemma openTag2_list (n node e tU nU : nat) (nd dU : DocumentNode)
    (ed ud : TagDefinition) (ts ns : list nat) (st st' : Parser) :
  docs st !! node = Some nd -> TagDef nd = Some e ->
  Tags (grammar st) !! e = Some ed -> isList ed ->
  tagStack st = (ts ++ [tU])%list -> nodeStack st = (ns ++ [nU])%list ->
  length ns = S (length ts) ->
  Tags (grammar st) !! tU = Some ud -> isList ud ->
  docs st !! nU = Some dU -> (Indent dU < Indent nd)%Z ->
  openTag2 n (Some e) node true st = Ok tt st' ->
  (exists c, docs st' = update (appendChild (docs st) nU node) node
                               (fun d => set_Counters d (Some c))) /\
  tagStack st' = (ts ++ [tU; e])%list /\
  nodeStack st' = (ns ++ [nU; node])%list /\
  grammar st' = grammar st.
Proof.
  intros Hnd Ht He (Hdp & Hpp & Hhood & Hfc & Hall) Hts Hns Hlen Hud
         (_ & _ & Hind & _) HdU Hlt H.
  unfold openTag2 in H.
  apply bind_Ok in H as ([] & sa & H1 & H).
  apply closeStyles_fields in H1 as ((G & D & _) & T & N).
  apply bind_Ok in H as ([] & sb & H2 & H).
  assert (sb = sa) as ->.
  { apply bind_Ok in H2 as (defaults & s1 & H2 & H3).
    assert (defaults = [Some e] /\ s1 = sa) as [-> ->].
    { destruct n as [|n]; simpl in H2;
        apply bind_Ok in H2 as (ed' & ? & H2 & H4);
        apply tagOf_Ok in H2 as (e' & [= <-] & He' & ->);
        assert (ed' = ed) as -> by (rewrite G in He'; congruence);
        rewrite Hdp in H4; now apply ret_Ok in H4. }
    apply bind_Ok in H3 as (nd' & ? & H3 & H4). apply doc_Ok in H3 as [H3 ->].
    assert (nd' = nd) as -> by (rewrite D in H3; congruence).
    apply bind_Ok in H4 as (? & ? & H4 & H5). apply get_Ok in H4 as [-> ->].
    apply bind_Ok in H5 as (depth & s2 & H5 & H6).
    assert (depth = O /\ s2 = sa) as [-> ->].
    { rewrite T, Hts, length_app in H5. simpl in H5.
      rewrite Nat.add_1_r in H5. simpl in H5.
      apply bind_Ok in H5 as (t & ? & H5 & H7).
      apply stackTag_Ok in H5 as (_ & H5 & ->).
      rewrite Nat2Z.id, T, Hts, list_lookup_middle in H5 by reflexivity.
      injection H5 as <-.
      apply bind_Ok in H7 as (ud' & ? & H7 & H8). apply tagAt_Ok in H7 as [H7 ->].
      assert (ud' = ud) as -> by (rewrite G in H7; congruence).
      apply bind_Ok in H8 as (nU' & ? & H8 & H9).
      apply nodeAt_Ok in H8 as (_ & H8 & ->).
      replace (Z.to_nat (Z.of_nat (length ts) + 1)) with (length ns) in H8 by lia.
      rewrite N, Hns, list_lookup_middle in H8 by reflexivity. injection H8 as <-.
      apply bind_Ok in H9 as (dU' & ? & H9 & H10). apply doc_Ok in H9 as [H9 ->].
      assert (dU' = dU) as -> by (rewrite D in H9; congruence).
      apply bind_Ok in H10 as (defs & ? & H10 & H11).
      simpl in H10. apply bind_Ok in H10 as (ed' & ? & H10 & H12).
      apply tagOf_Ok in H10 as (e' & [= <-] & He' & ->).
      assert (ed' = ed) as -> by (rewrite G in He'; congruence).
      apply bind_Ok in H12 as (? & ? & H12 & H13). apply ret_Ok in H12 as [-> ->].
      apply ret_Ok in H13 as [-> ->].
      simpl in H11. unfold fitsBelow in H11. rewrite Hall, Hind in H11.
      rewrite (proj2 (Z.ltb_lt _ _) Hlt) in H11.
      rewrite (bool_decide_eq_true_2 (IndentParentHood = IndentParentHood)) in H11
        by reflexivity.
      rewrite !bool_decide_eq_false_2 in H11 by discriminate.
      simpl in H11. now apply ret_Ok in H11. }
    simpl in H6. now apply ret_Ok in H6. }
  apply bind_Ok in H as ([] & sc & H3 & H).
  apply (pushNodeOnStack_plain _ _ nU e nd ed) in H3
    as (D2 & T2 & N2 & G2 & _); try congruence;
    [|rewrite N, Hns; apply last_snoc].
  apply bind_Ok in H as (? & ? & H4 & H). apply tagOf_Ok in H4 as (? & _ & _ & ->).
  apply modify_Ok in H as ->. cbn [docs tagStack nodeStack grammar set_secmode].
  rewrite D2, T2, N2, G2, D, T, N, G, Hts, Hns, <- !app_assoc.
  split; [eexists; reflexivity|auto].
Qed.

(** *** The shape of the tree *)

Lemma update_shape (h : Heap) (id j : nat) (f : DocumentNode -> DocumentNode) :
  (forall d, shape (f d) = shape d) ->
  shape <$> (update h id f !! j) = shape <$> (h !! j).
Proof.
  intros Hf. destruct (decide (id = j)) as [->|Hne].
  - rewrite update_lookup_eq. destruct (h !! j); simpl; [now rewrite Hf|reflexivity].
  - now rewrite update_lookup_ne.
Qed.

Lemma appendChild_shape (h : Heap) (p c j : nat) :
  shape <$> (appendChild h p c !! j) = adopted p c j <$> (shape <$> (h !! j)).
Proof.
  unfold appendChild.
  set (h1 := update h c (fun d => set_Parent d (Some p))).
  assert (H1 : shape <$> (h1 !! j)
               = (fun x => (x.1.1, (if Nat.eqb j c then Some p else x.1.2), x.2))
                   <$> (shape <$> (h !! j))).
  { unfold h1. destruct (Nat.eqb_spec j c) as [->|Hne].
    - rewrite update_lookup_eq. now destruct (h !! c).
    - rewrite update_lookup_ne by congruence. now destruct (h !! j). }
  set (h2 := match h1 !! p with
             | Some dp =>
                 match last (Children dp) with
                 | Some childPrev =>
                     update (update h1 childPrev (fun d => set_NextSibling d (Some c)))
                            c (fun d => set_PrevSibling d (Some childPrev))
                 | None => h1
                 end
             | None => h1
             end).
  assert (H2 : forall k, shape <$> (h2 !! k) = shape <$> (h1 !! k)).
  { intros k. unfold h2. destruct (h1 !! p) as [dp|]; [|reflexivity].
    destruct (last (Children dp)); [|reflexivity].
    rewrite !update_shape; [reflexivity|intros d; reflexivity|intros d; reflexivity]. }
  destruct (Nat.eqb_spec j p) as [->|Hne].
  - rewrite update_lookup_eq. specialize (H2 p). rewrite H1 in H2.
    destruct (h2 !! p) as [d2|], (h !! p) as [d|]; simpl in *; try discriminate;
      [|reflexivity].
    injection H2 as Ha Hb Hc. unfold shape, adopted. simpl.
    rewrite Ha, Hb, Hc, Nat.eqb_refl. reflexivity.
  - rewrite update_lookup_ne by congruence. rewrite H2, H1.
    destruct (h !! j); [|reflexivity]. unfold adopted. simpl.
    now rewrite (proj2 (Nat.eqb_neq j p) Hne).
Qed.

Lemma shape_app_l (h l : Heap) (j : nat) :
  j < length h -> (h ++ l)%list !! j = h !! j.
Proof. intros H. now apply lookup_app_l. Qed.

(** [enumLevels] only reads the state. *)
Lemma enumLevels_state (n i : nat) (enumTag : option nat) (indent sib : Z)
    (r : Z * Z) (st st' : Parser) :
  enumLevels n i enumTag indent sib st = Ok r st' -> st' = st.
Proof.
  revert sib st. induction i as [|i IH]; intros sib st; simpl.
  - now intros [= _ <-].
  - intros H. apply bind_Ok in H as (t & ? & H1 & H). apply stackTag_Ok in H1 as (_ & _ & ->).
    apply bind_Ok in H as (td & ? & H1 & H). apply tagAt_Ok in H1 as [_ ->].
    apply bind_Ok in H as (node & ? & H1 & H). apply nodeAt_Ok in H1 as (_ & _ & ->).
    apply bind_Ok in H as (nd & ? & H1 & H). apply doc_Ok in H1 as [_ ->].
    apply bind_Ok in H as (depth & ? & H1 & H). apply isPossibleParent_state in H1 as ->.
    destruct (negb _); [now apply ret_Ok in H|now apply IH in H].
Qed.

(** Below the list of the marker, no other list is taken for a sibling. *)
Lemma enumLevels_outer (n i : nat) (enumTag : option nat) (indent sib : Z)
    (r : Z * Z) (ts ns rest rest' : list nat) (st st' : Parser) :
  tagStack st = (ts ++ rest)%list -> nodeStack st = (ns ++ rest')%list ->
  length ns = S (length ts) -> i <= length ts ->
  noOuterList st ts ns indent ->
  enumLevels n i enumTag indent sib st = Ok r st' -> r.2 = sib.
Proof.
  intros Hts Hns Hlen. revert sib. induction i as [|i IH]; intros sib Hi Hno; simpl.
  - now intros [= <- _].
  - intros H. apply bind_Ok in H as (t & ? & H1 & H).
    apply stackTag_Ok in H1 as (_ & Ht & ->). rewrite Nat2Z.id in Ht.
    apply bind_Ok in H as (td & ? & H1 & H). apply tagAt_Ok in H1 as [Htd ->].
    apply bind_Ok in H as (node & ? & H1 & H). apply nodeAt_Ok in H1 as (_ & Hn & ->).
    replace (Z.to_nat (Z.of_nat i + 1)) with (S i) in Hn by lia.
    apply bind_Ok in H as (nd & ? & H1 & H). apply doc_Ok in H1 as [Hnd ->].
    apply bind_Ok in H as (depth & ? & H1 & H). apply isPossibleParent_state in H1 as ->.
    destruct (negb _); [now apply ret_Ok in H as [-> _]|].
    rewrite Hts, lookup_app_l in Ht by lia. rewrite Hns, lookup_app_l in Hn by lia.
    apply IH in H; [|lia|exact Hno]. rewrite H.
    destruct (Hno i t td node nd Ht Htd Hn Hnd) as [Hlt|[Hu Ho]].
    + rewrite (proj2 (Z.leb_gt _ _) Hlt). reflexivity.
    + apply String.eqb_neq in Hu, Ho. rewrite Hu, Ho, andb_false_r. reflexivity.
Qed.

(** The end of [case TokenEnum]: the item goes below the innermost open
    node. *)
Lemma caseEnum_item (n i P : nat) (ld : TagDefinition) (indent : Z) (st st' : Parser) :
  GetTag (grammar st) "#li" = Some i -> Tags (grammar st) !! i = Some ld ->
  Name ld = "#li" -> FirstChild ld = false ->
  last (nodeStack st) = Some P ->
  (td <- tagOf (Some i) ;;
   node <- newDocumentNode (Name td) indent ;;
   attributes <- parseAttributes n (Some i) ;;
   setDoc node (fun d => set_Attributes d attributes) ;;
   openTag2 n (Some i) node false) st = Ok tt st' ->
  (exists a c,
     docs st'
     = update (appendChild
                 (update (docs st ++ [mkDoc "#li" (Some i) None None None None [] []
                                        (Some (rootNode st)) ∅ 0%Z indent])%list
                         (length (docs st)) (fun d => set_Attributes d a))
                 P (length (docs st)))
              (length (docs st)) (fun d => set_Counters d (Some c))) /\
  tagStack st' = (tagStack st ++ [i])%list /\
  nodeStack st' = (nodeStack st ++ [length (docs st)])%list.
Proof.
  intros Hli Hld Hname Hfc Hlast H.
  apply bind_Ok in H as (ld' & ? & H1 & H).
  apply tagOf_Ok in H1 as (i' & [= <-] & Hld' & ->).
  assert (ld' = ld) as -> by congruence. rewrite Hname in H.
  apply bind_Ok in H as (node & s1 & H1 & H).
  apply (newDocumentNode_Ok _ _ i) in H1 as [-> ->]; [|exact Hli].
  apply bind_Ok in H as (a & s2 & H2 & H).
  apply parseAttributes_fields in H2 as (D2 & G2 & T2 & N2 & _).
  cbn [docs grammar tagStack nodeStack set_docs] in D2, G2, T2, N2.
  apply bind_Ok in H as ([] & s3 & H3 & H). unfold setDoc in H3.
  apply modify_Ok in H3. rewrite D2 in H3.
  assert (Hnode : docs s3 !! length (docs st)
                  = Some (set_Attributes
                            (mkDoc "#li" (Some i) None None None None [] []
                                   (Some (rootNode st)) ∅ 0%Z indent) a)).
  { subst s3. cbn [docs set_docs]. rewrite update_lookup_eq.
    now rewrite list_lookup_middle. }
  apply (openTag2_below _ _ P i
           (set_Attributes (mkDoc "#li" (Some i) None None None None [] []
                                  (Some (rootNode st)) ∅ 0%Z indent) a) ld)
    in H as ((c & D) & T & N & _);
    [|exact Hnode|reflexivity|subst s3; cbn [grammar set_docs]; congruence|exact Hfc
     |subst s3; cbn [nodeStack set_docs]; congruence].
  subst s3. cbn [docs tagStack nodeStack set_docs] in D, T, N.
  rewrite T, N, T2, N2. split; [exists a, c; exact D|auto].
Qed.

(** The first two turns of the loop of [case TokenEnum] in the line
    after a marker: the item is passed over, and the list is the place for
    a list of greater indent, else a sibling. *)
Lemma enumLevels_top (n u o i e : nat) (ts ns : list nat) (tU nU nL : nat)
    (dU dL : DocumentNode) (indent : Z) (r : Z * Z) (st st' : Parser) :
  openList st u o i ts ns tU nU nL dU dL -> e = u \/ e = o ->
  enumLevels n (length (tagStack st)) (Some e) indent (-1) st = Ok r st' ->
  ((Indent dU < indent)%Z -> r = (Z.of_nat (length ts), (-1)%Z)) /\
  ((indent <= Indent dU)%Z ->
   enumLevels n (length ts) (Some e) indent (Z.of_nat (length ts)) st = Ok r st').
Proof.
  intros ((_ & _ & _ & (ud & Hud & Hun & Hul) & (od & Hod & Hon & Hol)
           & (ld & Hld & Hln & Hlt & Hlf))
          & Hts & Hns & Hlen & HtU & HdU & HdL & HtdU & HtdL & Hne) He H.
  assert (Hed : exists ed, Tags (grammar st) !! e = Some ed /\ isList ed)
    by (destruct He as [-> | ->]; eauto).
  destruct Hed as (ed & Hed & Hel).
  assert (Hxd : exists xd, Tags (grammar st) !! tU = Some xd /\ isList xd /\
                           (Name xd = "#ul" \/ Name xd = "#ol"))
    by (destruct HtU as [-> | ->]; eauto 6).
  destruct Hxd as (xd & Hxd & Hxl & Hxn).
  rewrite Hts, length_app in H. simpl in H. rewrite Nat.add_comm in H. simpl in H.
  apply bind_Ok in H as (t & ? & H1 & H). apply stackTag_Ok in H1 as (_ & Ht & ->).
  rewrite Nat2Z.id, Hts in Ht.
  replace (ts ++ [tU; i])%list with ((ts ++ [tU]) ++ [i])%list in Ht
    by now rewrite <- app_assoc.
  rewrite list_lookup_middle in Ht by (rewrite length_app; simpl; lia).
  injection Ht as <-.
  apply bind_Ok in H as (td & ? & H1 & H). apply tagAt_Ok in H1 as [Htd ->].
  assert (td = ld) as -> by congruence.
  apply bind_Ok in H as (node & ? & H1 & H). apply nodeAt_Ok in H1 as (_ & Hn & ->).
  replace (Z.to_nat (Z.of_nat (S (length ts)) + 1)) with (length (ns ++ [nU])) in Hn
    by (rewrite length_app; simpl; lia).
  rewrite Hns in Hn.
  replace (ns ++ [nU; nL])%list with ((ns ++ [nU]) ++ [nL])%list in Hn
    by now rewrite <- app_assoc.
  rewrite list_lookup_middle in Hn by reflexivity. injection Hn as <-.
  apply bind_Ok in H as (nd & ? & H1 & H). apply doc_Ok in H1 as [Hnd ->].
  assert (nd = dL) as -> by congruence.
  apply bind_Ok in H as (depth & sa & H1 & H).
  pose proof (isPossibleParent_state _ _ _ _ _ _ _ _ H1) as ->.
  apply (isPossibleParent_item _ _ _ ed ld i) in H1; try assumption. subst depth.
  simpl in H. rewrite Hln in H. simpl in H. rewrite andb_false_r in H.
  apply bind_Ok in H as (t & ? & H1 & H). apply stackTag_Ok in H1 as (_ & Ht & ->).
  rewrite Nat2Z.id, Hts, list_lookup_middle in Ht by reflexivity. injection Ht as <-.
  apply bind_Ok in H as (td & ? & H1 & H). apply tagAt_Ok in H1 as [Htd' ->].
  assert (td = xd) as -> by congruence.
  apply bind_Ok in H as (node & ? & H1 & H). apply nodeAt_Ok in H1 as (_ & Hn & ->).
  replace (Z.to_nat (Z.of_nat (length ts) + 1)) with (length ns) in Hn by lia.
  rewrite Hns, list_lookup_middle in Hn by reflexivity. injection Hn as <-.
  apply bind_Ok in H as (nd & ? & H1 & H). apply doc_Ok in H1 as [Hnd' ->].
  assert (nd = dU) as -> by congruence.
  apply bind_Ok in H as (depth & sa & H1 & H).
  pose proof (isPossibleParent_state _ _ _ _ _ _ _ _ H1) as ->.
  apply (isPossibleParent_list _ _ _ ed xd tU) in H1; try assumption. subst depth.
  split.
  - intros Hlt'. rewrite (proj2 (Z.ltb_lt _ _) Hlt') in H. simpl in H.
    now apply ret_Ok in H as [-> _].
  - intros Hge. rewrite (proj2 (Z.ltb_ge _ _) Hge) in H. simpl in H.
    rewrite (proj2 (Z.leb_le _ _) Hge) in H.
    assert (Hname : (String.eqb (Name xd) "#ul" || String.eqb (Name xd) "#ol") = true)
      by (destruct Hxn as [-> | ->]; reflexivity).
    rewrite Hname in H. exact H.
Qed.
